(** * LSP controller and proxy of the Kibana code plugin

    A shallow embedding of
    [x-pack/plugins/code/server/lsp/controller.ts] (the
    [LanguageServerController]) and
    [x-pack/plugins/code/server/lsp/proxy.ts] (the [LanguageServerProxy]),
    and the properties of the pooling, dispatch, sequencing and shutdown
    logic that they implement.

    Conventions of the embedding:
    - a JavaScript object that is shared and mutated is kept in a store and
      named by its position there: a language server record by its index
      in [languageServers], a handler (connection proxy) by its address in
      [heap];
    - an [async] method is a state transformer that runs to completion; the
      answers of the collaborators it awaits (launcher, install manager,
      file system, clock, backend, handlers) are read from an environment
      [Env]; where calls that overlap matter, the method is also given in
      the parts that its suspension point separates
      ([findOrCreateHandler_start], [findOrCreateHandler_resume]);
    - a method that can throw or reject returns a [result];
      the state changes made before the exception are kept;
    - JavaScript numbers that only ever hold integers (time stamps, the
      capacity, the sequence counter) are integers here. *)

From Stdlib Require Import ZArith Lia.
From stdpp Require Import gmap strings list.

Local Open Scope string_scope.

(** ** JavaScript values and control effects *)

Module Js.

(** Modelled from the spec: the error codes of [common/lsp_error_codes],
    which are "named codes, not exception types": three distinct codes. *)
Inductive ErrorCode : Type :=
| UnknownErrorCode
| UnknownFileLanguage
| LanguageServerNotInstalled.

(** Exceptions and promise rejections seen in the two files. *)
Inductive Exn : Type :=
| ResponseError (code : ErrorCode) (message : string)
| TypeError (message : string)
| Error (message : string).

Inductive result (A : Type) : Type :=
| Ok (a : A)
| Throw (e : Exn).
Arguments Ok {A} a.
Arguments Throw {A} e.

(** State and exception monad: a throw keeps the state reached so far. *)
Definition M (S A : Type) : Type := S -> result A * S.

Definition ret {S A} (a : A) : M S A := fun s => (Ok a, s).

Definition throw {S A} (e : Exn) : M S A := fun s => (Throw e, s).

Definition bind {S A B} (c : M S A) (k : A -> M S B) : M S B :=
  fun s => match c s with
           | (Ok a, s') => k a s'
           | (Throw e, s') => (Throw e, s')
           end.

Definition get {S} : M S S := fun s => (Ok s, s).

Definition modify {S} (f : S -> S) : M S unit := fun s => (Ok tt, f s).

(** [try { c } catch (e) { h e }] *)
Definition try_catch {S A} (c : M S A) (h : Exn -> M S A) : M S A :=
  fun s => match c s with
           | (Ok a, s') => (Ok a, s')
           | (Throw e, s') => h e s'
           end.

(** [for (const x of xs) { body x }] *)
Fixpoint for_of {S A} (xs : list A) (body : A -> M S unit) : M S unit :=
  match xs with
  | [] => ret tt
  | x :: xs' => bind (body x) (fun _ => for_of xs' body)
  end.

(** Truthiness of a possibly undefined string: [undefined] and the empty
    string are falsy. *)
Definition truthy (v : option string) : bool :=
  match v with
  | Some s => negb (String.eqb s "")
  | None => false
  end.

(** [a < b] on possibly undefined numbers: a comparison with [undefined]
    is [false]. *)
Definition lt (a b : option Z) : bool :=
  match a, b with
  | Some x, Some y => (x <? y)%Z
  | _, _ => false
  end.

(** [`${v}`] for a possibly undefined string. *)
Definition template (v : option string) : string :=
  match v with
  | Some s => s
  | None => "undefined"
  end.

(** [s.replace(pat, by)] with a string pattern: the first occurrence only. *)
Fixpoint replace (pat by_ s : string) : string :=
  if String.prefix pat s
  then by_ +:+ String.substring (String.length pat) (String.length s - String.length pat) s
  else match s with
       | EmptyString => EmptyString
       | String c s' => String c (replace pat by_ s')
       end.

End Js.

Import Js.

Declare Scope js_scope.
Notation "'let*' x ':=' c 'in' k" := (bind c (fun x => k))
  (at level 10, x name, c at level 100, k at level 200) : js_scope.
Notation "c ';;' k" := (bind c (fun _ => k))
  (at level 100, k at level 200, right associativity) : js_scope.
Local Open Scope js_scope.

(** ** The request model *)

Module Model.

(** Modelled from the spec: [LspRequest] of [model], the inbound request
    shape [{ method, params, isNotification, resolvedFilePath?,
    workspacePath? }]; [params] is an opaque payload. *)
Record LspRequest : Type := {
  method : string;
  params : string;
  isNotification : bool;
  resolvedFilePath : option string;
  workspacePath : option string;
}.

End Model.

Import Model.

(** ** The connection proxy: [proxy.ts] *)

Module Proxy.

(** [RequestMessage] of [vscode-jsonrpc]. *)
Record RequestMessage : Type := {
  jsonrpc : string;
  id : N;
  message_method : string;
  message_params : string;
}.

(** [ResponseMessage] of [vscode-jsonrpc]: a result or an error. *)
Record ResponseMessage : Type := {
  response_id : N;
  response_result : string;
  response_error : option string;
}.

(** Address of a promise returned by [receiveRequest]. Its [resolve, reject]
    pair is what the reply table stores. *)
Definition PromiseRef : Type := nat.

Inductive PromiseState : Type :=
| Pending
| Resolved (value : option ResponseMessage)
| Rejected (reason : string).

(** A [MessageConnection] to the backend, by its identity. *)
Definition Conn : Type := nat.

(** Calls the proxy makes on its collaborators, in the order it makes
    them. *)
Inductive Effect : Type :=
| RepliesSet (key : N) (p : PromiseRef)
| HttpEmit (message : RequestMessage)
| Resolve (p : PromiseRef)
| SendRequest (c : Conn) (method : string)
| SendNotification (c : Conn) (method : string)
| ConnDispose
| ClientConnectionDispose (c : Conn)
| NewSocket
| SocketConnect
| Emit (event : string).

(** The fields of a [LanguageServerProxy], the promises it has handed out
    and the calls it has made. [connectingPromise] is [None] when
    undefined, [Some None] when pending and [Some (Some c)] when resolved
    with [c]; [connections] counts the message connections created so
    far. *)
Record LanguageServerProxy : Type := {
  initialized : bool;
  has_socket : bool;
  clientConnection : option Conn;
  closed : bool;
  sequenceNumber : N;
  replies : gmap N PromiseRef;
  connectingPromise : option (option Conn);
  promises : list PromiseState;
  connections : nat;
  trace : list Effect;
}.

(** The field initialisers and the constructor. *)
Definition new : LanguageServerProxy :=
  {| initialized := false;
     has_socket := false;
     clientConnection := None;
     closed := false;
     sequenceNumber := 0;
     replies := ∅;
     connectingPromise := None;
     promises := [];
     connections := 0;
     trace := [] |}.

(** [public get isClosed()] *)
Definition isClosed (st : LanguageServerProxy) : bool := closed st.

(** [public receiveRequest(method, params, isNotification = false)]; the
    executor of the new promise runs before the promise is returned. *)
Definition receiveRequest (method params : string) (isNotification : bool)
  (st : LanguageServerProxy) : PromiseRef * LanguageServerProxy :=
  let message := {| jsonrpc := "2.0";
                    id := sequenceNumber st;
                    message_method := method;
                    message_params := params |} in
  let p := length (promises st) in
  if isNotification
  then
    (p, {| initialized := initialized st;
           has_socket := has_socket st;
           clientConnection := clientConnection st;
           closed := closed st;
           sequenceNumber := (sequenceNumber st + 1)%N;
           replies := replies st;
           connectingPromise := connectingPromise st;
           promises := (promises st ++ [Resolved None])%list;
           connections := connections st;
           trace := (trace st ++ [HttpEmit message; Resolve p])%list |})
  else
    (p, {| initialized := initialized st;
           has_socket := has_socket st;
           clientConnection := clientConnection st;
           closed := closed st;
           sequenceNumber := (sequenceNumber st + 1)%N;
           replies := <[id message := p]> (replies st);
           connectingPromise := connectingPromise st;
           promises := (promises st ++ [Pending])%list;
           connections := connections st;
           trace := (trace st ++ [RepliesSet (id message) p; HttpEmit message])%list |}).

(** [public handleRequest(request)] *)
Definition handleRequest (request : LspRequest) (st : LanguageServerProxy)
  : PromiseRef * LanguageServerProxy :=
  receiveRequest (method request) (params request) (isNotification request) st.

(** How a response settles the promise of its caller. *)
Definition settle (response : ResponseMessage) : PromiseState :=
  match response_error response with
  | Some e => Rejected e
  | None => Resolved (Some response)
  end.

(** Modelled from the spec: the writer of the inbound connection
    ([http_message_writer], which shares the reply table) matches a response
    of the backend to its caller by the message id: the continuation
    registered under that id is taken out of the table and settled with the
    response, rejected when the response carries an error; a response whose
    id is not in the table settles nothing. *)
Definition write (response : ResponseMessage) (st : LanguageServerProxy)
  : LanguageServerProxy :=
  match replies st !! response_id response with
  | Some p =>
      {| initialized := initialized st;
         has_socket := has_socket st;
         clientConnection := clientConnection st;
         closed := closed st;
         sequenceNumber := sequenceNumber st;
         replies := delete (response_id response) (replies st);
         connectingPromise := connectingPromise st;
         promises := <[p := settle response]> (promises st);
         connections := connections st;
         trace := trace st |}
  | None => st
  end.

(** What the caller of the proxy and the backend do to it, one step at a
    time. *)
Inductive Step : Type :=
| Request (request : LspRequest)
| Response (response : ResponseMessage).

Definition step (st : LanguageServerProxy) (s : Step) : LanguageServerProxy :=
  match s with
  | Request request => snd (handleRequest request st)
  | Response response => write response st
  end.

Definition steps (ss : list Step) (st : LanguageServerProxy) : LanguageServerProxy :=
  fold_left step ss st.

(** The promises returned by a sequence of [handleRequest] calls, and the
    proxy after them. *)
Fixpoint handleRequests (requests : list LspRequest) (st : LanguageServerProxy)
  : list PromiseRef * LanguageServerProxy :=
  match requests with
  | [] => ([], st)
  | request :: requests' =>
      let '(p, st1) := handleRequest request st in
      let '(ps, st2) := handleRequests requests' st1 in
      (p :: ps, st2)
  end.

(** The messages put on the inbound emitter, in order. *)
Definition emitted (tr : list Effect) : list RequestMessage :=
  omap (fun e => match e with HttpEmit message => Some message | _ => None end) tr.

Definition set_closed (b : bool) (st : LanguageServerProxy) : LanguageServerProxy :=
  {| initialized := initialized st;
     has_socket := has_socket st;
     clientConnection := clientConnection st;
     closed := b;
     sequenceNumber := sequenceNumber st;
     replies := replies st;
     connectingPromise := connectingPromise st;
     promises := promises st;
     connections := connections st;
     trace := trace st |}.

Definition set_clientConnection (c : option Conn) (st : LanguageServerProxy)
  : LanguageServerProxy :=
  {| initialized := initialized st;
     has_socket := has_socket st;
     clientConnection := c;
     closed := closed st;
     sequenceNumber := sequenceNumber st;
     replies := replies st;
     connectingPromise := connectingPromise st;
     promises := promises st;
     connections := connections st;
     trace := trace st |}.

Definition log (es : list Effect) (st : LanguageServerProxy) : LanguageServerProxy :=
  {| initialized := initialized st;
     has_socket := has_socket st;
     clientConnection := clientConnection st;
     closed := closed st;
     sequenceNumber := sequenceNumber st;
     replies := replies st;
     connectingPromise := connectingPromise st;
     promises := promises st;
     connections := connections st;
     trace := (trace st ++ es)%list |}.

(** [public async exit()]. [shutdownFailure] is [Some e] when the
    [shutdown] request is rejected with [e]. *)
Definition exit (shutdownFailure : option Exn) : M LanguageServerProxy unit :=
  let* st := get in
  (match clientConnection st with
   | Some clientConn =>
       modify (log [SendRequest clientConn "shutdown"]) ;;
       match shutdownFailure with
       | Some e => throw e
       | None => modify (log [SendNotification clientConn "exit"; ConnDispose])
       end
   | None => ret tt
   end) ;;
  modify (set_closed true) ;;
  modify (log [Emit "exit"]).

(** The promise [connect()] returns: still pending, or resolved with a
    connection. *)
Inductive ConnectResult : Type :=
| Connecting
| Connected (c : Conn).

(** [public connect()] *)
Definition connect (st : LanguageServerProxy) : ConnectResult * LanguageServerProxy :=
  match clientConnection st with
  | Some c => (Connected c, st)
  | None =>
      let st1 := set_closed false st in
      match connectingPromise st1 with
      | None =>
          (Connecting,
           {| initialized := initialized st1;
              has_socket := true;
              clientConnection := clientConnection st1;
              closed := closed st1;
              sequenceNumber := sequenceNumber st1;
              replies := replies st1;
              connectingPromise := Some None;
              promises := promises st1;
              connections := connections st1;
              trace := (trace st1 ++ [NewSocket; SocketConnect])%list |})
      | Some pr =>
          (match pr with Some c => Connected c | None => Connecting end,
           log [SocketConnect] st1)
      end
  end.

(** The listener of the [connect] event of the socket, registered by
    [connect()]: a new message connection over the socket. *)
Definition on_socket_connect (st : LanguageServerProxy) : LanguageServerProxy :=
  let c := connections st in
  {| initialized := initialized st;
     has_socket := has_socket st;
     clientConnection := Some c;
     closed := closed st;
     sequenceNumber := sequenceNumber st;
     replies := replies st;
     connectingPromise := match connectingPromise st with
                          | Some None => Some (Some c)
                          | pr => pr
                          end;
     promises := promises st;
     connections := S c;
     trace := (trace st ++ [Emit "connect"])%list |}.

(** [private onSocketClosed()] *)
Definition onSocketClosed (st : LanguageServerProxy) : LanguageServerProxy :=
  let st1 := match clientConnection st with
             | Some c => log [ClientConnectionDispose c] st
             | None => st
             end in
  log [Emit "close"] (set_clientConnection None st1).

(** [public unloadWorkspace(workspaceDir)] *)
Definition unloadWorkspace (workspaceDir : string) : M LanguageServerProxy unit :=
  throw (Error "should not hit here").

(** The responses among the steps. *)
Definition responses (ss : list Step) : list ResponseMessage :=
  omap (fun s => match s with Response r => Some r | Request _ => None end) ss.

(** Every entry of the reply table belongs to a message already numbered
    and to a promise that is still pending, and no promise is registered
    twice. *)
Definition wf (st : LanguageServerProxy) : Prop :=
  (∀ k p, replies st !! k = Some p →
          (k < sequenceNumber st)%N ∧ promises st !! p = Some Pending) ∧
  (∀ k1 k2 p, replies st !! k1 = Some p → replies st !! k2 = Some p → k1 = k2).

(** *** Methods that await [connect()] *)

Definition set_initialized (b : bool) (st : LanguageServerProxy) : LanguageServerProxy :=
  {| initialized := b;
     has_socket := has_socket st;
     clientConnection := clientConnection st;
     closed := closed st;
     sequenceNumber := sequenceNumber st;
     replies := replies st;
     connectingPromise := connectingPromise st;
     promises := promises st;
     connections := connections st;
     trace := trace st |}.

(** The state of an [async] method that starts with [await this.connect()]:
    still waiting for the socket, or settled. *)
Inductive Awaited (A : Type) : Type :=
| Waiting
| Settled (r : result A).

Arguments Waiting {A}.
Arguments Settled {A} r.

(** [const clientConn = await this.connect(); k clientConn] *)
Definition await_connect {A} (k : Conn -> M LanguageServerProxy A)
  (st : LanguageServerProxy) : Awaited A * LanguageServerProxy :=
  match connect st with
  | (Connected clientConn, st1) => (Settled (fst (k clientConn st1)), snd (k clientConn st1))
  | (Connecting, st1) => (Waiting, st1)
  end.

(** [clientConn.sendRequest(method, ...)]; [answer] is how the request
    ends: a rejection, or the result of the backend. *)
Definition sendRequest (clientConn : Conn) (method : string) (answer : Exn + string)
  : M LanguageServerProxy string :=
  modify (log [SendRequest clientConn method]) ;;
  match answer with
  | inl e => throw e
  | inr r => ret r
  end.

(** [public async initialize(clientCapabilities, workspaceFolders)], after
    its [await this.connect()]; the folders are given by their uri. *)
Definition initialize_on (workspaceFolders : list string) (answer : Exn + string)
  (clientConn : Conn) : M LanguageServerProxy string :=
  match workspaceFolders with
  | [] => throw (TypeError "Cannot read properties of undefined (reading 'uri')")
  | rootUri :: _ =>
      let* r := sendRequest clientConn "initialize" answer in
      modify (log [SendNotification clientConn "initialized"]) ;;
      modify (set_initialized true) ;;
      ret r
  end.

(** [public async initialize(clientCapabilities, workspaceFolders)] *)
Definition initialize (workspaceFolders : list string) (answer : Exn + string)
  : LanguageServerProxy -> Awaited string * LanguageServerProxy :=
  await_connect (initialize_on workspaceFolders answer).

(** [public async shutdown()] *)
Definition shutdown (answer : Exn + string)
  : LanguageServerProxy -> Awaited string * LanguageServerProxy :=
  await_connect (fun clientConn => sendRequest clientConn "shutdown" answer).

(** The request handler that [listen()] registers on the inbound
    connection: the request is sent on to the backend. *)
Definition onRequest (method : string) (answer : Exn + string)
  : LanguageServerProxy -> Awaited string * LanguageServerProxy :=
  await_connect (fun clientConn => sendRequest clientConn method answer).

(** The listener that [awaitServerConnection()] gives to [net.createServer]:
    the backend has connected to the proxy, and a new message connection
    over that socket becomes the client connection. *)
Definition on_server_connection (st : LanguageServerProxy) : LanguageServerProxy :=
  let st1 := log [Emit "connect"] st in
  let c := connections st1 in
  {| initialized := initialized st1;
     has_socket := has_socket st1;
     clientConnection := Some c;
     closed := closed st1;
     sequenceNumber := sequenceNumber st1;
     replies := replies st1;
     connectingPromise := connectingPromise st1;
     promises := promises st1;
     connections := S c;
     trace := trace st1 |}.

(** What happens to a proxy and its sockets, one step at a time: the calls
    of its methods; the [connect] event of the socket that [connect()]
    created; a backend that connects to a proxy awaiting it; the [close]
    event of a socket; and a method that waited for [connect()] going on
    once the promise of [connect()] is resolved. *)
Inductive Op : Type :=
| OpConnect
| OpSocketConnect
| OpServerConnection
| OpSocketClose
| OpExit (shutdownFailure : option Exn)
| OpInitialize (workspaceFolders : list string) (answer : Exn + string)
| OpShutdown (answer : Exn + string)
| OpRequest (method : string) (answer : Exn + string)
| OpResumeInitialize (workspaceFolders : list string) (answer : Exn + string)
| OpResumeRequest (method : string) (answer : Exn + string).

(** A method that waited for [connect()] goes on with the connection the
    promise was resolved with. *)
Definition resume {A} (k : Conn -> M LanguageServerProxy A) (st : LanguageServerProxy)
  : LanguageServerProxy :=
  match connectingPromise st with
  | Some (Some clientConn) => snd (k clientConn st)
  | _ => st
  end.

Definition op (st : LanguageServerProxy) (o : Op) : LanguageServerProxy :=
  match o with
  | OpConnect => snd (connect st)
  | OpSocketConnect => if has_socket st then on_socket_connect st else st
  | OpServerConnection => on_server_connection st
  | OpSocketClose => onSocketClosed st
  | OpExit shutdownFailure => snd (exit shutdownFailure st)
  | OpInitialize workspaceFolders answer => snd (initialize workspaceFolders answer st)
  | OpShutdown answer => snd (shutdown answer st)
  | OpRequest method answer => snd (onRequest method answer st)
  | OpResumeInitialize workspaceFolders answer =>
      resume (initialize_on workspaceFolders answer) st
  | OpResumeRequest method answer =>
      resume (fun clientConn => sendRequest clientConn method answer) st
  end.

Definition ops (os : list Op) (st : LanguageServerProxy) : LanguageServerProxy :=
  fold_left op os st.

(** The number of sockets created. *)
Definition sockets (tr : list Effect) : nat :=
  length (List.filter (fun e => match e with NewSocket => true | _ => false end) tr).

(** How the connection fields of a proxy hang together: it has created
    a socket exactly when [connect()] has made its promise; the promise is
    resolved with a message connection that was made, and the client
    connection is the last one made; a proxy that says it is initialized
    has sent the [initialize] request and the [initialized] notification on
    one connection. *)
Definition connection_inv (st : LanguageServerProxy) : Prop :=
  sockets (trace st) = (if has_socket st then 1 else 0)%nat ∧
  (has_socket st = false ↔ connectingPromise st = None) ∧
  (∀ c, connectingPromise st = Some (Some c) → (c < connections st)%nat) ∧
  (∀ c, clientConnection st = Some c → S c = connections st) ∧
  (initialized st = true →
   ∃ c, SendRequest c "initialize" ∈ trace st ∧
        SendNotification c "initialized" ∈ trace st).

End Proxy.

(** ** The controller: [controller.ts] *)

Module Controller.

(** Modelled from the spec: [LanguageServerStatus] of
    [common/language_server], the answers "not-installed" and "ready" of the
    install manager, and [RUNNING], which [status] adds. *)
Inductive LanguageServerStatus : Type :=
| NOT_INSTALLED
| READY
| RUNNING.

(** [a === b] on statuses. *)
Definition status_eqb (a b : LanguageServerStatus) : bool :=
  match a, b with
  | NOT_INSTALLED, NOT_INSTALLED | READY, READY | RUNNING, RUNNING => true
  | _, _ => false
  end.

(** Modelled from the spec: [LanguageServerDefinition] of
    [language_servers], with its name, the languages it serves and whether
    it manages its own workspace folders; its launcher class is represented
    by the environment. *)
Record LanguageServerDefinition : Type := {
  name : string;
  def_builtinWorkspaceFolders : bool;
  def_languages : list string;
}.

(** Address of an [ILanguageServerHandler] object. *)
Definition Ref : Type := nat.

(** The mutable part of an [ILanguageServerHandler] the controller touches. *)
Record HandlerObj : Type := {
  lastAccess : option Z;
}.

(** [LanguageServerHandlerMap]: an object used as a map from workspace path
    to handler. The list holds the own properties in the order
    [Object.entries] lists them, which for keys that are file-system paths
    is the order of their creation. *)
Definition LanguageServerHandlerMap : Type := list (string * Ref).

(** [handlers[k]] *)
Fixpoint handlers_get (k : string) (m : LanguageServerHandlerMap) : option Ref :=
  match m with
  | [] => None
  | (k', h) :: m' => if String.eqb k k' then Some h else handlers_get k m'
  end.

(** [handlers[k] = h]: an existing property keeps its place, a new one is
    created last. *)
Fixpoint handlers_set (k : string) (h : Ref) (m : LanguageServerHandlerMap)
  : LanguageServerHandlerMap :=
  match m with
  | [] => [(k, h)]
  | (k', h') :: m' =>
      if String.eqb k k' then (k, h) :: m' else (k', h') :: handlers_set k h m'
  end.

(** [delete handlers[k]] *)
Fixpoint handlers_delete (k : string) (m : LanguageServerHandlerMap)
  : LanguageServerHandlerMap :=
  match m with
  | [] => []
  | (k', h') :: m' =>
      if String.eqb k k' then handlers_delete k m' else (k', h') :: handlers_delete k m'
  end.

(** [Object.entries(handlers)] *)
Definition Object_entries (m : LanguageServerHandlerMap) : list (string * Ref) := m.

(** [Object.values(handlers)] *)
Definition Object_values (m : LanguageServerHandlerMap) : list Ref := map snd m.

(** The field [languageServerHandlers?: ILanguageServerHandler |
    LanguageServerHandlerMap] with its three shapes. *)
Inductive Handlers : Type :=
| Undefined
| Handler (h : Ref)
| HandlerMap (m : LanguageServerHandlerMap).

(** [LanguageServerData]; the launcher object is represented by the
    environment. *)
Record LanguageServerData : Type := {
  definition : LanguageServerDefinition;
  builtinWorkspaceFolders : bool;
  maxWorkspace : Z;
  languages : list string;
  languageServerHandlers : Handlers;
}.

Definition with_handlers (hs : Handlers) (ls : LanguageServerData) : LanguageServerData :=
  {| definition := definition ls;
     builtinWorkspaceFolders := builtinWorkspaceFolders ls;
     maxWorkspace := maxWorkspace ls;
     languages := languages ls;
     languageServerHandlers := hs |}.

(** Calls that leave the controller, in the order they are made. *)
Inductive Effect : Type :=
| Launch (d : LanguageServerDefinition) (builtin : bool) (maxWs : Z)
         (installPath : string) (h : Ref)
| HandleRequest (h : Ref) (request : LspRequest)
| HandlerExit (h : Ref)
| HandlerUnload (h : Ref) (workspaceDir : string)
| LogError (e : Exn).

(** The answers of the collaborators during one call of a controller
    method. *)
Record Env : Type := {
  (** [Date.now()] *)
  now : Z;
  (** [fs.realpathSync]; [None] when it throws *)
  realpathSync : string -> option string;
  (** [detectLanguage]; [None] when it yields no language *)
  detectLanguage : string -> option string;
  (** [installManager.status] *)
  installStatus : LanguageServerDefinition -> LanguageServerStatus;
  (** [installManager.installationPath] *)
  installationPath : LanguageServerDefinition -> string;
  (** [ls.launcher.running] *)
  launcherRunning : LanguageServerDefinition -> bool;
  (** [Some e] when [ls.launcher.launch] rejects with [e] *)
  launchFailure : LanguageServerDefinition -> option Exn;
  (** [Some e] when [handler.unloadWorkspace] rejects with [e] *)
  unloadFailure : Ref -> option Exn;
  (** [Some e] when [handler.exit] rejects with [e] *)
  exitFailure : Ref -> option Exn;
  (** [Some e] when [handler.handleRequest(request)] rejects with [e] *)
  handleRequestFailure : Ref -> LspRequest -> option Exn;
}.

(** The mutable state reachable from a controller. *)
Record State : Type := {
  languageServers : list LanguageServerData;
  heap : list HandlerObj;
  trace : list Effect;
}.

(** The fields of a controller fixed by its constructor. *)
Record Controller : Type := {
  detach : bool;
  languageServerMap : gmap string nat;
}.

Definition set_languageServers (f : list LanguageServerData -> list LanguageServerData)
  (st : State) : State :=
  {| languageServers := f (languageServers st); heap := heap st; trace := trace st |}.

Definition set_heap (f : list HandlerObj -> list HandlerObj) (st : State) : State :=
  {| languageServers := languageServers st; heap := f (heap st); trace := trace st |}.

Definition emit (e : Effect) (st : State) : State :=
  {| languageServers := languageServers st; heap := heap st; trace := (trace st ++ [e])%list |}.

(** [h.lastAccess] *)
Definition lastAccess_of (hp : list HandlerObj) (h : Ref) : option Z :=
  match hp !! h with
  | Some o => lastAccess o
  | None => None
  end.

(** Read of the record behind the reference [languageServer]. *)
Definition deref (languageServer : nat) : M State LanguageServerData :=
  fun st => match languageServers st !! languageServer with
            | Some ls => (Ok ls, st)
            | None => (Throw (TypeError "Cannot read properties of undefined"), st)
            end.

(** [languageServer.languageServerHandlers = hs] *)
Definition assign_handlers (languageServer : nat) (hs : Handlers) : M State unit :=
  modify (set_languageServers (alter (with_handlers hs) languageServer)).

(** Modelled from the spec: the launcher ([language_server_launcher]) is a
    collaborator whose [launch(useBuiltinWorkspaceFolders, maxWorkspace,
    installPath)] yields a connection proxy; a launch that succeeds creates
    one new handler object, whose [lastAccess] is not yet set. *)
Definition launch (E : Env) (d : LanguageServerDefinition) (builtin : bool) (maxWs : Z)
  (installPath : string) : M State Ref :=
  fun st => match launchFailure E d with
            | Some e => (Throw e, st)
            | None =>
                let h := length (heap st) in
                (Ok h, emit (Launch d builtin maxWs installPath h)
                         (set_heap (fun hp => (hp ++ [{| lastAccess := None |}])%list) st))
            end.

(** The [forEach] of [findOrCreateHandler] that keeps the oldest entry. *)
Definition older (hp : list HandlerObj) (oldest p : string * Ref) : string * Ref :=
  if Js.lt (lastAccess_of hp (snd p)) (lastAccess_of hp (snd oldest)) then p else oldest.

Definition oldest_entry (hp : list HandlerObj) (first : string * Ref)
  (handlerArray : list (string * Ref)) : string * Ref :=
  fold_left (older hp) handlerArray first.

(** The handler map of a record that is not in builtin mode, after the
    initialisation [handlers = languageServer.languageServerHandlers = {}].
    A record in builtin mode, which holds a single handler, is never passed
    to [findOrCreateHandler]; the cast of that handler to a map is a type
    error here. *)
Definition handlers_of (languageServer : nat) : M State LanguageServerHandlerMap :=
  let* ls := deref languageServer in
  match languageServerHandlers ls with
  | Undefined => assign_handlers languageServer (HandlerMap []) ;; ret []
  | HandlerMap m => ret m
  | Handler _ => throw (TypeError "languageServerHandlers is not a handler map")
  end.

(** [private async findOrCreateHandler(languageServer, request)] *)
Definition findOrCreateHandler (E : Env) (languageServer : nat) (request : LspRequest)
  : M State Ref :=
  let* ls := deref languageServer in
  let* handlers := handlers_of languageServer in
  if negb (truthy (workspacePath request))
  then throw (ResponseError UnknownErrorCode "no workspace in request?")
  else
    let wp := default "" (workspacePath request) in
    match realpathSync E wp with
    | None => throw (Error "realpathSync")
    | Some realPath =>
        match handlers_get realPath handlers with
        | Some handler => ret handler
        | None =>
            let maxWorkspace := maxWorkspace ls in
            let handlerArray := Object_entries handlers in
            if (Z.of_nat (length handlerArray) <? maxWorkspace)%Z
            then
              let* handler := launch E (definition ls) (builtinWorkspaceFolders ls)
                                maxWorkspace (installationPath E (definition ls)) in
              assign_handlers languageServer
                (HandlerMap (handlers_set realPath handler handlers)) ;;
              ret handler
            else
              match handlerArray with
              | [] => throw (TypeError "undefined is not iterable")
              | first :: _ =>
                  let* st := get in
                  let '(oldestWorkspace, oldestHandler) :=
                    oldest_entry (heap st) first handlerArray in
                  assign_handlers languageServer
                    (HandlerMap (handlers_set wp oldestHandler
                                   (handlers_delete oldestWorkspace handlers))) ;;
                  ret oldestHandler
              end
        end
    end.

(** [findOrCreateHandler] has one suspension point, the
    [await languageServer.launcher.launch(...)] between the capacity check
    and [handlers[realPath] = handler]. [findOrCreateHandler] above is the
    call that no other call overlaps; the two definitions below are the
    parts of the call before and after that point, between which other
    calls can run. *)
Inductive Suspended : Type :=
| Returns (handler : Ref)
| AwaitsLaunch (ls : LanguageServerData) (realPath : string).

(** [findOrCreateHandler] up to its suspension point: the call has
    returned a handler it found or evicted, or it has passed the capacity
    check and awaits the launcher. *)
Definition findOrCreateHandler_start (E : Env) (languageServer : nat)
  (request : LspRequest) : M State Suspended :=
  let* ls := deref languageServer in
  let* handlers := handlers_of languageServer in
  if negb (truthy (workspacePath request))
  then throw (ResponseError UnknownErrorCode "no workspace in request?")
  else
    let wp := default "" (workspacePath request) in
    match realpathSync E wp with
    | None => throw (Error "realpathSync")
    | Some realPath =>
        match handlers_get realPath handlers with
        | Some handler => ret (Returns handler)
        | None =>
            let maxWorkspace := maxWorkspace ls in
            let handlerArray := Object_entries handlers in
            if (Z.of_nat (length handlerArray) <? maxWorkspace)%Z
            then ret (AwaitsLaunch ls realPath)
            else
              match handlerArray with
              | [] => throw (TypeError "undefined is not iterable")
              | first :: _ =>
                  let* st := get in
                  let '(oldestWorkspace, oldestHandler) :=
                    oldest_entry (heap st) first handlerArray in
                  assign_handlers languageServer
                    (HandlerMap (handlers_set wp oldestHandler
                                   (handlers_delete oldestWorkspace handlers))) ;;
                  ret (Returns oldestHandler)
              end
        end
    end.

(** [findOrCreateHandler] from its suspension point on, when the launch
    settles: [handlers[realPath] = handler; return handler]. The variable
    [handlers] of the suspended call and the field of the record refer to
    the same map object (once a pooled record has a map, no method replaces
    it), which other calls may have changed in the meantime; the handler
    object exists from the moment the launch settles. *)
Definition findOrCreateHandler_resume (E : Env) (languageServer : nat)
  (ls : LanguageServerData) (realPath : string) : M State Ref :=
  let* handler := launch E (definition ls) (builtinWorkspaceFolders ls)
                    (maxWorkspace ls) (installationPath E (definition ls)) in
  let* handlers := handlers_of languageServer in
  assign_handlers languageServer (HandlerMap (handlers_set realPath handler handlers)) ;;
  ret handler.

(** The member names of [Object.prototype]. [languageServerMap] is a plain
    object: a lookup of one of these names that is no key of its own is
    answered by the prototype, and an assignment to [__proto__] replaces
    the prototype instead of entering a key. *)
Definition Object_prototype_names : list string :=
  ["constructor"; "__defineGetter__"; "__defineSetter__"; "hasOwnProperty";
   "__lookupGetter__"; "__lookupSetter__"; "isPrototypeOf"; "propertyIsEnumerable";
   "toString"; "valueOf"; "__proto__"; "toLocaleString"].

Definition is_Object_prototype_name (lang : string) : bool :=
  existsb (String.eqb lang) Object_prototype_names.

(** [this.languageServerMap[lang]]: the record the map entry refers to.
    The lookup is that of the keys the constructor entered, which is the
    lookup of the plain object for every [lang] that is no member name of
    [Object.prototype], as long as no key is [__proto__]; the lookups
    answered by the prototype are not modelled. *)
Definition languageServerMap_get (C : Controller) (st : State) (lang : string)
  : option (nat * LanguageServerData) :=
  match languageServerMap C !! lang with
  | Some i => match languageServers st !! i with
              | Some ls => Some (i, ls)
              | None => None
              end
  | None => None
  end.

(** [private findLanguageServer(lang)]; the result is the reference to the
    record. *)
Definition findLanguageServer (C : Controller) (E : Env) (lang : string) : M State nat :=
  fun st =>
    match languageServerMap_get C st lang with
    | Some (i, ls) =>
        if negb (detach C) && negb (status_eqb (installStatus E (definition ls)) READY)
        then throw (ResponseError LanguageServerNotInstalled
                      ("language server " +:+ lang +:+ " not installed")) st
        else ret i st
    | None =>
        throw (ResponseError UnknownFileLanguage ("unsupported language " +:+ lang)) st
    end.

(** [handler.lastAccess = t] *)
Definition assign_lastAccess (handler : Ref) (t : Z) : M State unit :=
  modify (set_heap (alter (fun _ => {| lastAccess := Some t |}) handler)).

(** How [handler.handleRequest(request)] ends: with the response of the
    handler, for which the handler stands here, or with its rejection. *)
Definition handled (E : Env) (handler : Ref) (request : LspRequest) : result Ref :=
  match handleRequestFailure E handler request with
  | Some e => Throw e
  | None => Ok handler
  end.

(** [return handler.handleRequest(request)]: the call of the controller
    ends as the call of that handler ends. *)
Definition forward (E : Env) (handler : Ref) (request : LspRequest) : M State Ref :=
  modify (emit (HandleRequest handler request)) ;;
  fun st => (handled E handler request, st).

(** [public async dispatchRequest(lang, request)] *)
Definition dispatchRequest (C : Controller) (E : Env) (lang : option string)
  (request : LspRequest) : M State Ref :=
  if truthy lang
  then
    let* i := findLanguageServer C E (default "" lang) in
    let* ls := deref i in
    if builtinWorkspaceFolders ls
    then
      (if negb (launcherRunning E (definition ls))
       then
         let* h := launch E (definition ls) (builtinWorkspaceFolders ls) (maxWorkspace ls)
                     (installationPath E (definition ls)) in
         assign_handlers i (Handler h)
       else ret tt) ;;
      let* ls' := deref i in
      match languageServerHandlers ls' with
      | Handler handler => forward E handler request
      | Undefined => throw (TypeError "Cannot read properties of undefined")
      | HandlerMap _ => throw (TypeError "handler.handleRequest is not a function")
      end
    else
      let* handler := findOrCreateHandler E i request in
      assign_lastAccess handler (now E) ;;
      forward E handler request
  else
    throw (ResponseError UnknownFileLanguage
             ("can't detect language from file:" +:+ template (resolvedFilePath request))).

(** [public async handleRequest(request)] *)
Definition handleRequest (C : Controller) (E : Env) (request : LspRequest) : M State Ref :=
  let file := resolvedFilePath request in
  if truthy file
  then
    let lang := detectLanguage E (replace "file://" "" (default "" file)) in
    dispatchRequest C E lang request
  else
    throw (ResponseError UnknownErrorCode "can't detect language without a file").

(** [await handler.exit()] *)
Definition handler_exit (E : Env) (handler : Ref) : M State unit :=
  modify (emit (HandlerExit handler)) ;;
  match exitFailure E handler with
  | Some e => throw e
  | None => ret tt
  end.

(** [await handler.unloadWorkspace(workspaceDir)] *)
Definition handler_unloadWorkspace (E : Env) (handler : Ref) (workspaceDir : string)
  : M State unit :=
  modify (emit (HandlerUnload handler workspaceDir)) ;;
  match unloadFailure E handler with
  | Some e => throw e
  | None => ret tt
  end.

(** The references of [this.languageServers], in order. *)
Definition each_languageServer (body : nat -> M State unit) : M State unit :=
  let* st := get in
  for_of (seq 0 (length (languageServers st))) body.

(** [public async exit()] *)
Definition exit (E : Env) : M State unit :=
  each_languageServer (fun i =>
    let* ls := deref i in
    match languageServerHandlers ls with
    | Undefined => ret tt
    | Handler h =>
        if builtinWorkspaceFolders ls
        then handler_exit E h
        else throw (TypeError "languageServerHandlers is not a handler map")
    | HandlerMap handlers =>
        if builtinWorkspaceFolders ls
        then throw (TypeError "languageServerHandlers.exit is not a function")
        else for_of (Object_values handlers) (handler_exit E)
    end).

(** [public async launchServers()] *)
Definition launchServers (E : Env) : M State unit :=
  each_languageServer (fun i =>
    let* ls := deref i in
    let installed := status_eqb (installStatus E (definition ls)) READY in
    if installed && builtinWorkspaceFolders ls
    then
      try_catch
        (let* h := launch E (definition ls) true (maxWorkspace ls)
                     (installationPath E (definition ls)) in
         assign_handlers i (Handler h))
        (fun e => modify (emit (LogError e)))
    else ret tt).

(** [public async unloadWorkspace(workspaceDir)] *)
Definition unloadWorkspace (E : Env) (workspaceDir : string) : M State unit :=
  each_languageServer (fun i =>
    let* languageServer := deref i in
    match languageServerHandlers languageServer with
    | Undefined => ret tt
    | Handler handler =>
        if builtinWorkspaceFolders languageServer
        then handler_unloadWorkspace E handler workspaceDir
        else throw (TypeError "languageServerHandlers is not a handler map")
    | HandlerMap handlers =>
        if builtinWorkspaceFolders languageServer
        then throw (TypeError "handler.unloadWorkspace is not a function")
        else
          match realpathSync E workspaceDir with
          | None => throw (Error "realpathSync")
          | Some realPath =>
              match handlers_get realPath handlers with
              | Some handler =>
                  handler_unloadWorkspace E handler realPath ;;
                  assign_handlers i (HandlerMap (handlers_delete realPath handlers))
              | None => ret tt
              end
          end
    end).

(** [public status(lang)] *)
Definition status (C : Controller) (E : Env) (st : State) (lang : string)
  : result LanguageServerStatus :=
  match languageServerMap_get C st lang with
  | None => Throw (TypeError "Cannot read properties of undefined (reading 'definition')")
  | Some (_, ls) =>
      let status := installStatus E (definition ls) in
      if status_eqb status READY && launcherRunning E (definition ls)
      then Ok RUNNING
      else Ok status
  end.

(** [public supportLanguage(lang)] *)
Definition supportLanguage (C : Controller) (st : State) (lang : string) : bool :=
  match languageServerMap_get C st lang with
  | Some _ => true
  | None => false
  end.

(** The constructor: one record per definition of [LanguageServers], and
    the map from every language and every definition name to its record. *)
Definition new_languageServers (LanguageServers : list LanguageServerDefinition)
  (options_maxWorkspace : Z) : list LanguageServerData :=
  map (fun def => {| definition := def;
                     builtinWorkspaceFolders := def_builtinWorkspaceFolders def;
                     languages := def_languages def;
                     maxWorkspace := options_maxWorkspace;
                     languageServerHandlers := Undefined |})
      LanguageServers.

Definition new_languageServerMap (lss : list LanguageServerData) : gmap string nat :=
  fold_left
    (fun map p =>
       let map' := fold_left (fun m lang => <[lang := fst p]> m) (languages (snd p)) map in
       <[name (definition (snd p)) := fst p]> map')
    (imap pair lss) ∅.

Definition new (LSP_DETACH : bool) (LanguageServers : list LanguageServerDefinition)
  (options_maxWorkspace : Z) : Controller * State :=
  let lss := new_languageServers LanguageServers options_maxWorkspace in
  ({| detach := LSP_DETACH; languageServerMap := new_languageServerMap lss |},
   {| languageServers := lss; heap := []; trace := [] |}).

(** The calls a client can make on a controller, each with the answers of
    the collaborators during that call. *)
Inductive Call : Type :=
| CallHandleRequest (E : Env) (request : LspRequest)
| CallDispatchRequest (E : Env) (lang : option string) (request : LspRequest)
| CallFindOrCreateHandler (E : Env) (languageServer : nat) (request : LspRequest)
| CallUnloadWorkspace (E : Env) (workspaceDir : string)
| CallLaunchServers (E : Env)
| CallExit (E : Env).

(** The state after a call, whether it returned or threw. *)
Definition after (C : Controller) (c : Call) (st : State) : State :=
  match c with
  | CallHandleRequest E request => snd (handleRequest C E request st)
  | CallDispatchRequest E lang request => snd (dispatchRequest C E lang request st)
  | CallFindOrCreateHandler E i request => snd (findOrCreateHandler E i request st)
  | CallUnloadWorkspace E dir => snd (unloadWorkspace E dir st)
  | CallLaunchServers E => snd (launchServers E st)
  | CallExit E => snd (exit E st)
  end.

(** The state after a sequence of calls, one after the other. *)
Definition after_all (C : Controller) (cs : list Call) (st : State) : State :=
  fold_left (fun s c => after C c s) cs st.

(** Number of handlers a record holds in its handler map. *)
Definition live_handlers (ls : LanguageServerData) : nat :=
  match languageServerHandlers ls with
  | HandlerMap m => length (Object_entries m)
  | _ => 0
  end.

(** [p] is the entry of [arr] with the smallest [lastAccess], and the first
    such entry in the order of [arr]. *)
Definition first_oldest (hp : list HandlerObj) (arr : list (string * Ref))
  (p : string * Ref) : Prop :=
  ∃ pre post t,
    arr = (pre ++ p :: post)%list ∧
    lastAccess_of hp (snd p) = Some t ∧
    Forall (λ q, ∃ u, lastAccess_of hp (snd q) = Some u ∧ (t < u)%Z) pre ∧
    Forall (λ q, ∃ u, lastAccess_of hp (snd q) = Some u ∧ (t ≤ u)%Z) post.

(** Every handler of [arr] has served a request: its [lastAccess] is set,
    as the assertions [h.lastAccess!] of [findOrCreateHandler] expect. *)
Definition all_accessed (hp : list HandlerObj) (arr : list (string * Ref)) : Prop :=
  Forall (λ q, is_Some (lastAccess_of hp (snd q))) arr.

(** The capacity bound of one record, and of all records of a state. *)
Definition bounded (ls : LanguageServerData) : Prop :=
  (Z.of_nat (live_handlers ls) ≤ maxWorkspace ls)%Z.

Definition bounded_state (st : State) : Prop := Forall bounded (languageServers st).

(** A computation keeps [P], whether it returns or throws. *)
Definition preserves {A} (P : State → Prop) (c : M State A) : Prop :=
  ∀ st, P st → P (snd (c st)).

(** What a call of [findOrCreateHandler] does to a record that holds the
    handler map [m]: a failure, a hit, a launch below capacity, or an
    eviction at capacity. *)
Inductive outcome (E : Env) (i : nat) (request : LspRequest) (st : State)
  (ls : LanguageServerData) (m : LanguageServerHandlerMap) : result Ref * State → Prop :=
| outcome_throw e :
    outcome E i request st ls m (Throw e, st)
| outcome_found wp realPath handler :
    workspacePath request = Some wp →
    realpathSync E wp = Some realPath →
    handlers_get realPath m = Some handler →
    outcome E i request st ls m (Ok handler, st)
| outcome_launched wp realPath :
    workspacePath request = Some wp →
    realpathSync E wp = Some realPath →
    handlers_get realPath m = None →
    (Z.of_nat (length m) < maxWorkspace ls)%Z →
    outcome E i request st ls m
      (Ok (length (heap st)),
       {| languageServers :=
            alter (with_handlers (HandlerMap (handlers_set realPath (length (heap st)) m)))
              i (languageServers st);
          heap := (heap st ++ [{| lastAccess := None |}])%list;
          trace := (trace st ++ [Launch (definition ls) (builtinWorkspaceFolders ls)
                                   (maxWorkspace ls) (installationPath E (definition ls))
                                   (length (heap st))])%list |})
| outcome_evicted wp realPath oldestWorkspace oldestHandler :
    workspacePath request = Some wp →
    realpathSync E wp = Some realPath →
    handlers_get realPath m = None →
    (maxWorkspace ls ≤ Z.of_nat (length m))%Z →
    (oldestWorkspace, oldestHandler) ∈ m →
    outcome E i request st ls m
      (Ok oldestHandler,
       set_languageServers
         (alter (with_handlers
                   (HandlerMap (handlers_set wp oldestHandler
                                  (handlers_delete oldestWorkspace m)))) i) st).

(** The environment [E] with another answer of [installManager.status]. *)
Definition with_installStatus (f : LanguageServerDefinition → LanguageServerStatus)
  (E : Env) : Env :=
  {| now := now E;
     realpathSync := realpathSync E;
     detectLanguage := detectLanguage E;
     installStatus := f;
     installationPath := installationPath E;
     launcherRunning := launcherRunning E;
     launchFailure := launchFailure E;
     unloadFailure := unloadFailure E;
     exitFailure := exitFailure E;
     handleRequestFailure := handleRequestFailure E |}.

(** The handler map of the record [i], empty when there is none. *)
Definition pool (i : nat) (st : State) : LanguageServerHandlerMap :=
  match languageServers st !! i with
  | Some ls => match languageServerHandlers ls with
               | HandlerMap m => m
               | _ => []
               end
  | None => []
  end.

(** In every handler map, every handler has its [lastAccess] set. *)
Definition pools_accessed (st : State) : Prop :=
  ∀ i ls m, languageServers st !! i = Some ls →
            languageServerHandlers ls = HandlerMap m →
            all_accessed (heap st) m.

(** The handler [h] is allocated, and every pooled handler but [h] has its
    [lastAccess] set: the state in which [findOrCreateHandler] hands [h]
    to [dispatchRequest]. *)
Definition accessed_but (h : Ref) (st : State) : Prop :=
  h < length (heap st) ∧
  ∀ i ls m, languageServers st !! i = Some ls →
            languageServerHandlers ls = HandlerMap m →
            Forall (λ q, snd q = h ∨ is_Some (lastAccess_of (heap st) (snd q))) m.

(** Every handler with [lastAccess] set in [hp] has it set in [hp']. *)
Definition heap_le (hp hp' : list HandlerObj) : Prop :=
  ∀ r, is_Some (lastAccess_of hp r) → is_Some (lastAccess_of hp' r).

(** The calls of the public interface of the controller. *)
Definition public (c : Call) : Prop :=
  match c with
  | CallFindOrCreateHandler _ _ _ => False
  | _ => True
  end.

(** *** Shapes, held handlers and plain traces *)

(** The shape of [languageServerHandlers] that the mode of a record stands
    for: a single handler in builtin mode, a handler map otherwise. The
    casts [as ILanguageServerHandler] and [as LanguageServerHandlerMap] of
    the controller rely on it. *)
Definition well_shaped (ls : LanguageServerData) : Prop :=
  match languageServerHandlers ls with
  | Undefined => True
  | Handler _ => builtinWorkspaceFolders ls = true
  | HandlerMap _ => builtinWorkspaceFolders ls = false
  end.

Definition well_shaped_state (st : State) : Prop :=
  Forall well_shaped (languageServers st).

(** The handlers a record holds, in the order [exit] visits them. *)
Definition handlers_held (ls : LanguageServerData) : list Ref :=
  match languageServerHandlers ls with
  | Undefined => []
  | Handler h => [h]
  | HandlerMap m => Object_values m
  end.

(** The handlers a controller holds, record by record. *)
Definition all_handlers (st : State) : list Ref :=
  concat (map handlers_held (languageServers st)).

(** The state after the calls [es] have left the controller. *)
Definition emits (es : list Effect) (st : State) : State :=
  {| languageServers := languageServers st;
     heap := heap st;
     trace := (trace st ++ es)%list |}.

(** The calls [await handler.exit()] made on the handlers [hs] in turn: the
    handlers reached, and the rejection that stopped the loop, if any. *)
Fixpoint exited (E : Env) (hs : list Ref) : result unit * list Ref :=
  match hs with
  | [] => (Ok tt, [])
  | h :: hs' =>
      match exitFailure E h with
      | Some e => (Throw e, [h])
      | None => (fst (exited E hs'), h :: snd (exited E hs'))
      end
  end.

(** What [unloadWorkspace] does to one record when every unload succeeds. *)
Definition unloaded (realPath : string) (ls : LanguageServerData) : LanguageServerData :=
  match languageServerHandlers ls with
  | HandlerMap m => with_handlers (HandlerMap (handlers_delete realPath m)) ls
  | _ => ls
  end.

(** The calls [unloadWorkspace] makes for one record: the shared handler
    gets the directory as given, a pooled handler the canonical path. *)
Definition unload_calls (workspaceDir realPath : string) (ls : LanguageServerData)
  : list Effect :=
  match languageServerHandlers ls with
  | Undefined => []
  | Handler h => [HandlerUnload h workspaceDir]
  | HandlerMap m =>
      match handlers_get realPath m with
      | Some h => [HandlerUnload h realPath]
      | None => []
      end
  end.

(** A string has no occurrence of [pat]. *)
Fixpoint no_occurrence (pat s : string) : bool :=
  negb (String.prefix pat s) &&
  match s with
  | EmptyString => true
  | String _ s' => no_occurrence pat s'
  end.


(** What [launchServers] does to one record [ls], which becomes [ls']: a
    record that is installed and in builtin mode gets a handler allocated
    at an address from [lo] up to [hi], by a launch recorded in [es], or is
    left as it was with the launch error logged in [es]; any other record
    is left as it was. *)
Definition started (E : Env) (lo hi : nat) (es : list Effect)
  (ls ls' : LanguageServerData) : Prop :=
  if status_eqb (installStatus E (definition ls)) READY && builtinWorkspaceFolders ls
  then match launchFailure E (definition ls) with
       | Some e => ls' = ls ∧ LogError e ∈ es
       | None =>
           ∃ h, ls' = with_handlers (Handler h) ls ∧ (lo ≤ h)%nat ∧ (h < hi)%nat ∧
                Launch (definition ls) true (maxWorkspace ls)
                  (installationPath E (definition ls)) h ∈ es
       end
  else ls' = ls.

(** The keys the constructor enters for a definition: its languages and
    its name. *)
Definition serves (lang : string) (def : LanguageServerDefinition) : bool :=
  existsb (String.eqb lang) (def_languages def) || String.eqb lang (name def).

(** The position, counted from [k], of the last definition that serves
    [lang]. *)
Fixpoint last_serving (lang : string) (defs : list LanguageServerDefinition) (k : nat)
  : option nat :=
  match defs with
  | [] => None
  | def :: defs' =>
      match last_serving lang defs' (S k) with
      | Some j => Some j
      | None => if serves lang def then Some k else None
      end
  end.

(** A record without capacity that holds no pooled handler. *)
Definition without_capacity (ls : LanguageServerData) : Prop :=
  (maxWorkspace ls ≤ 0)%Z ∧ live_handlers ls = 0%nat.

(** The records of a controller without their handlers. *)
Definition skeleton (st : State) : list LanguageServerData :=
  map (with_handlers Undefined) (languageServers st).

End Controller.

(** ** Concrete configurations *)

Module Scenario.

Import Controller.

(** A server with one backend per workspace and a server with builtin
    workspace folders. *)
Definition typescript : LanguageServerDefinition :=
  {| name := "TypeScript";
     def_builtinWorkspaceFolders := false;
     def_languages := ["typescript"; "javascript"] |}.

Definition java : LanguageServerDefinition :=
  {| name := "Java";
     def_builtinWorkspaceFolders := true;
     def_languages := ["java"] |}.

(** A file system in which [/link] is a symbolic link to [/real]. *)
Definition realpath (path : string) : option string :=
  if String.eqb path "/link" then Some "/real" else Some path.

Definition detect (file : string) : option string :=
  if String.eqb file "/a/main.ts" then Some "typescript" else None.

(** The collaborators at time [t], with every backend in install state
    [s] and no failure. *)
Definition env (t : Z) (s : LanguageServerStatus) : Env :=
  {| now := t;
     realpathSync := realpath;
     detectLanguage := detect;
     installStatus := fun _ => s;
     installationPath := fun d => "/opt/" +:+ name d;
     launcherRunning := fun _ => false;
     launchFailure := fun _ => None;
     unloadFailure := fun _ => None;
     exitFailure := fun _ => None;
     handleRequestFailure := fun _ _ => None |}.

Definition lsp_request (file workspace : option string) : LspRequest :=
  {| method := "textDocument/hover";
     params := "{}";
     isNotification := false;
     resolvedFilePath := file;
     workspacePath := workspace |}.

Definition controller (LSP_DETACH : bool) : Controller :=
  fst (new LSP_DETACH [typescript; java] 2).

Definition initial : State := snd (new false [typescript; java] 2).

(** The workspaces [/a] and [/b] opened at times 1 and 2: the pool of the
    TypeScript server, of capacity 2, is full. *)
Definition opened : list Call :=
  [CallDispatchRequest (env 1 READY) (Some "typescript") (lsp_request None (Some "/a"));
   CallDispatchRequest (env 2 READY) (Some "typescript") (lsp_request None (Some "/b"))].

Definition full : State := after_all (controller false) opened initial.

(** The record of the TypeScript server in [full]. *)
Definition full_typescript : LanguageServerData :=
  {| definition := typescript;
     builtinWorkspaceFolders := false;
     maxWorkspace := 2;
     languages := ["typescript"; "javascript"];
     languageServerHandlers := HandlerMap [("/a", 0); ("/b", 1)] |}.

(** Requests and responses on one proxy. *)
Definition hover : LspRequest := lsp_request (Some "file:///a/main.ts") (Some "/a").

Definition didOpen : LspRequest :=
  {| method := "textDocument/didOpen";
     params := "{}";
     isNotification := true;
     resolvedFilePath := Some "file:///a/main.ts";
     workspacePath := Some "/a" |}.

Definition answer (k : N) : Proxy.ResponseMessage :=
  {| Proxy.response_id := k; Proxy.response_result := "{}"; Proxy.response_error := None |}.

(** A proxy whose socket has connected. *)
Definition connected : Proxy.LanguageServerProxy :=
  Proxy.on_socket_connect (snd (Proxy.connect Proxy.new)).

End Scenario.

(** ** Further scenarios *)

Module Deployment.

Import Controller Scenario.

(** The controller of [full] after start-up: the Java server, which
    manages its own workspace folders, has been launched as well. *)
Definition started_up : State :=
  after_all (controller false) [CallLaunchServers (env 3 READY)] full.

(** The record of the Java server before and after start-up. *)
Definition idle_java : LanguageServerData :=
  {| definition := java;
     builtinWorkspaceFolders := true;
     maxWorkspace := 2;
     languages := ["java"];
     languageServerHandlers := Undefined |}.

Definition started_java : LanguageServerData :=
  {| definition := java;
     builtinWorkspaceFolders := true;
     maxWorkspace := 2;
     languages := ["java"];
     languageServerHandlers := Handler 2 |}.

(** The record of the TypeScript server before any request. *)
Definition idle_typescript (capacity : Z) : LanguageServerData :=
  {| definition := typescript;
     builtinWorkspaceFolders := false;
     maxWorkspace := capacity;
     languages := ["typescript"; "javascript"];
     languageServerHandlers := Undefined |}.

(** Collaborators whose handlers reject [unloadWorkspace], as a
    [LanguageServerProxy] does. *)
Definition rejecting (t : Z) : Env :=
  {| now := t;
     realpathSync := realpath;
     detectLanguage := detect;
     installStatus := fun _ => READY;
     installationPath := fun d => "/opt/" +:+ name d;
     launcherRunning := fun _ => false;
     launchFailure := fun _ => None;
     unloadFailure := fun _ => Some (Error "should not hit here");
     exitFailure := fun _ => None;
     handleRequestFailure := fun _ _ => None |}.

(** A proxy whose socket has connected and whose backend has answered the
    [initialize] request. *)
Definition handshake : list Proxy.Op :=
  [Proxy.OpConnect; Proxy.OpSocketConnect; Proxy.OpInitialize ["file:///a"] (inr "{}")].

End Deployment.

(** ** Properties of the controller *)

Module ControllerProofs.

Import Controller Scenario.

Local Open Scope nat_scope.
Local Open Scope list_scope.

(** *** The handler map *)

Lemma handlers_get_set_eq k h m : handlers_get k (handlers_set k h m) = Some h.
Proof.
  induction m as [|[k' h'] m IH]; simpl.
  - by rewrite String.eqb_refl.
  - destruct (String.eqb k k') eqn:Hk; simpl; rewrite ?String.eqb_refl, ?Hk; done.
Qed.

Lemma handlers_get_set_ne k k' h m :
  k ≠ k' → handlers_get k' (handlers_set k h m) = handlers_get k' m.
Proof.
  intros Hne. induction m as [|[k0 h0] m IH]; simpl.
  - destruct (String.eqb_spec k' k); congruence.
  - destruct (String.eqb_spec k k0) as [->|Hk0]; simpl.
    + destruct (String.eqb_spec k' k0); congruence.
    + by rewrite IH.
Qed.

Lemma handlers_get_delete_eq k m : handlers_get k (handlers_delete k m) = None.
Proof.
  induction m as [|[k' h'] m IH]; simpl; [done|].
  destruct (String.eqb k k') eqn:Hk; simpl; rewrite ?Hk; done.
Qed.

Lemma handlers_get_delete_ne k k' m :
  k ≠ k' → handlers_get k' (handlers_delete k m) = handlers_get k' m.
Proof.
  intros Hne. induction m as [|[k0 h0] m IH]; simpl; [done|].
  destruct (String.eqb_spec k k0) as [->|Hk0]; simpl.
  - destruct (String.eqb_spec k' k0); congruence.
  - by rewrite IH.
Qed.

Lemma handlers_get_elem k h m : (k, h) ∈ m → is_Some (handlers_get k m).
Proof.
  induction m as [|[k' h'] m IH]; simpl; intros Hin.
  - by apply elem_of_nil in Hin.
  - destruct (String.eqb_spec k k'); [eauto|].
    apply elem_of_cons in Hin as [?|?]; [congruence|auto].
Qed.

Lemma handlers_set_length k h m :
  length (handlers_set k h m) =
  match handlers_get k m with Some _ => length m | None => S (length m) end.
Proof.
  induction m as [|[k' h'] m IH]; simpl; [done|].
  destruct (String.eqb k k'); simpl; [done|]. rewrite IH. by destruct (handlers_get k m).
Qed.

Lemma handlers_delete_length k m : length (handlers_delete k m) ≤ length m.
Proof.
  induction m as [|[k' h'] m IH]; simpl; [done|].
  destruct (String.eqb k k'); simpl; lia.
Qed.

Lemma handlers_delete_length_lt k m :
  is_Some (handlers_get k m) → length (handlers_delete k m) < length m.
Proof.
  induction m as [|[k' h'] m IH]; simpl; intros Hs.
  - by destruct Hs.
  - destruct (String.eqb k k'); simpl.
    + pose proof (handlers_delete_length k m). lia.
    + specialize (IH Hs). lia.
Qed.

Lemma truthy_Some s : s ≠ ""%string → truthy (Some s) = true.
Proof. intros Hs. simpl. by destruct (String.eqb_spec s ""). Qed.

Section FindOrCreateHandler.
Variables (E : Env) (i : nat) (request : LspRequest) (st : State).
Variables (ls : LanguageServerData) (m : LanguageServerHandlerMap).
Variables (wp realPath : string).
Hypothesis Hls : languageServers st !! i = Some ls.
Hypothesis Hmap : languageServerHandlers ls = HandlerMap m.
Hypothesis Hwp : workspacePath request = Some wp.
Hypothesis Hwp_ne : wp ≠ ""%string.
Hypothesis Hreal : realpathSync E wp = Some realPath.

Lemma findOrCreateHandler_found handler :
  handlers_get realPath m = Some handler →
  findOrCreateHandler E i request st = (Ok handler, st).
Proof using Hls Hmap Hwp Hwp_ne Hreal.
  intros Hget. unfold findOrCreateHandler, handlers_of, deref, bind.
  rewrite Hls; simpl. rewrite Hls, Hmap; simpl.
  rewrite Hwp, truthy_Some by done; simpl. by rewrite Hreal, Hget.
Qed.

Lemma findOrCreateHandler_launch :
  handlers_get realPath m = None →
  (Z.of_nat (length m) < maxWorkspace ls)%Z →
  launchFailure E (definition ls) = None →
  findOrCreateHandler E i request st =
  (Ok (length (heap st)),
   {| languageServers :=
        alter (with_handlers (HandlerMap (handlers_set realPath (length (heap st)) m))) i
          (languageServers st);
      heap := heap st ++ [{| lastAccess := None |}];
      trace := trace st ++ [Launch (definition ls) (builtinWorkspaceFolders ls)
                              (maxWorkspace ls) (installationPath E (definition ls))
                              (length (heap st))] |}).
Proof using Hls Hmap Hwp Hwp_ne Hreal.
  intros Hget Hlt Hok. unfold findOrCreateHandler, handlers_of, deref, bind.
  rewrite Hls; simpl. rewrite Hls, Hmap; simpl.
  rewrite Hwp, truthy_Some by done; simpl. rewrite Hreal, Hget.
  unfold Object_entries. apply Z.ltb_lt in Hlt. rewrite Hlt.
  unfold launch. rewrite Hok. reflexivity.
Qed.

Lemma findOrCreateHandler_launch_fails e :
  handlers_get realPath m = None →
  (Z.of_nat (length m) < maxWorkspace ls)%Z →
  launchFailure E (definition ls) = Some e →
  findOrCreateHandler E i request st = (Throw e, st).
Proof using Hls Hmap Hwp Hwp_ne Hreal.
  intros Hget Hlt Hok. unfold findOrCreateHandler, handlers_of, deref, bind.
  rewrite Hls; simpl. rewrite Hls, Hmap; simpl.
  rewrite Hwp, truthy_Some by done; simpl. rewrite Hreal, Hget.
  unfold Object_entries. apply Z.ltb_lt in Hlt. rewrite Hlt.
  unfold launch. rewrite Hok. reflexivity.
Qed.

Lemma findOrCreateHandler_evict first rest oldestWorkspace oldestHandler :
  handlers_get realPath m = None →
  (maxWorkspace ls ≤ Z.of_nat (length m))%Z →
  m = first :: rest →
  oldest_entry (heap st) first (Object_entries m) = (oldestWorkspace, oldestHandler) →
  findOrCreateHandler E i request st =
  (Ok oldestHandler,
   set_languageServers
     (alter (with_handlers
               (HandlerMap (handlers_set wp oldestHandler
                              (handlers_delete oldestWorkspace m)))) i) st).
Proof using Hls Hmap Hwp Hwp_ne Hreal.
  intros Hget Hge Hm Hold. unfold findOrCreateHandler, handlers_of, deref, bind.
  rewrite Hls; simpl. rewrite Hls, Hmap; simpl.
  rewrite Hwp, truthy_Some by done; simpl. rewrite Hreal, Hget.
  apply Z.ltb_ge in Hge. unfold Object_entries in *. rewrite Hge.
  rewrite Hm in *. unfold get, assign_handlers, modify, ret. rewrite Hold. reflexivity.
Qed.

End FindOrCreateHandler.

Lemma older_self hp p : older hp p p = p.
Proof. unfold older. by destruct (Js.lt _ _). Qed.

Lemma first_oldest_step hp seen acc q :
  first_oldest hp seen acc →
  is_Some (lastAccess_of hp (snd q)) →
  first_oldest hp (seen ++ [q]) (older hp acc q).
Proof.
  intros (pre & post & t & -> & Ht & Hpre & Hpost) [u Hu].
  unfold older. rewrite Hu, Ht. simpl.
  destruct (Z.ltb_spec u t) as [Hlt|Hge].
  - exists (pre ++ acc :: post), [], u. split_and!.
    + done.
    + done.
    + apply Forall_app. split; [|apply Forall_cons; split].
      * eapply Forall_impl; [exact Hpre|]. intros x (v & Hv & ?). exists v. split; [done|lia].
      * exists t. split; [done|lia].
      * eapply Forall_impl; [exact Hpost|]. intros x (v & Hv & ?). exists v. split; [done|lia].
    + constructor.
  - exists pre, (post ++ [q]), t. split_and!.
    + by rewrite <- app_assoc.
    + done.
    + done.
    + apply Forall_app. split; [done|]. apply Forall_cons. split; [|constructor].
      exists u. split; [done|lia].
Qed.

Lemma first_oldest_fold hp rest : ∀ seen acc,
  first_oldest hp seen acc →
  all_accessed hp rest →
  first_oldest hp (seen ++ rest) (fold_left (older hp) rest acc).
Proof.
  induction rest as [|q rest IH]; intros seen acc Hacc Hall; simpl.
  - by rewrite app_nil_r.
  - apply Forall_cons in Hall as [Hq Hall].
    replace (seen ++ q :: rest) with ((seen ++ [q]) ++ rest) by by rewrite <- app_assoc.
    apply IH; [|done]. by apply first_oldest_step.
Qed.

Lemma oldest_entry_first_oldest hp first rest :
  all_accessed hp (first :: rest) →
  first_oldest hp (first :: rest) (oldest_entry hp first (first :: rest)).
Proof.
  intros Hall. unfold oldest_entry. simpl. rewrite older_self.
  apply Forall_cons in Hall as [[t Ht] Hall].
  apply (first_oldest_fold hp rest [first] first); [|done].
  exists [], [], t. split_and!; [done|done|constructor|constructor].
Qed.

Lemma first_oldest_elem hp arr p : first_oldest hp arr p → p ∈ arr.
Proof.
  intros (pre & post & t & -> & _). apply elem_of_app. right. apply elem_of_cons. by left.
Qed.

(** C1. When the handler map of a per-workspace record is at capacity
    (the number of its handlers equals [maxWorkspace], which is at least 1,
    and every handler has served a request, as it has in every state the
    public interface reaches) and the workspace path of the request is not
    mapped, neither as given nor in canonical form,
    [findOrCreateHandler] selects the entry whose [lastAccess] is smallest,
    the first such entry in the iteration order of the map, deletes the
    mapping of that entry, registers the same handler object under the
    workspace path of the request and returns it. Nothing is launched and
    nothing is exited: the heap and the trace are unchanged. Afterwards a
    lookup of the old path finds nothing. *)
Theorem findOrCreateHandler_evicts_oldest E i request st ls m wp realPath :
  languageServers st !! i = Some ls →
  languageServerHandlers ls = HandlerMap m →
  (1 ≤ maxWorkspace ls)%Z →
  Z.of_nat (live_handlers ls) = maxWorkspace ls →
  all_accessed (heap st) (Object_entries m) →
  workspacePath request = Some wp →
  wp ≠ ""%string →
  realpathSync E wp = Some realPath →
  handlers_get realPath m = None →
  handlers_get wp m = None →
  ∃ oldestWorkspace oldestHandler m',
    first_oldest (heap st) (Object_entries m) (oldestWorkspace, oldestHandler) ∧
    m' = handlers_set wp oldestHandler (handlers_delete oldestWorkspace m) ∧
    findOrCreateHandler E i request st =
      (Ok oldestHandler,
       {| languageServers := alter (with_handlers (HandlerMap m')) i (languageServers st);
          heap := heap st;
          trace := trace st |}) ∧
    handlers_get wp m' = Some oldestHandler ∧
    handlers_get oldestWorkspace m' = None.
Proof.
  intros Hls Hmap Hmax Hfull Hall Hwp Hne Hreal Hmiss Hraw.
  unfold live_handlers in Hfull. rewrite Hmap in Hfull. unfold Object_entries in *.
  destruct m as [|first rest]; [simpl in Hfull; lia|].
  destruct (oldest_entry (heap st) first (first :: rest)) as [ow oh] eqn:Hold.
  pose proof (oldest_entry_first_oldest _ _ _ Hall) as Hfo. rewrite Hold in Hfo.
  exists ow, oh, (handlers_set wp oh (handlers_delete ow (first :: rest))).
  split_and!; [done|done| | |].
  - erewrite findOrCreateHandler_evict; eauto. lia.
  - apply handlers_get_set_eq.
  - assert (wp ≠ ow) as Hwo.
    { intros ->. apply first_oldest_elem, handlers_get_elem in Hfo.
      rewrite Hraw in Hfo. by destruct Hfo. }
    rewrite handlers_get_set_ne by done. apply handlers_get_delete_eq.
Qed.

Lemma findOrCreateHandler_evicts_oldest_witness :
  (languageServers full !! 0 = Some full_typescript ∧
   languageServerHandlers full_typescript = HandlerMap [("/a", 0); ("/b", 1)] ∧
   (1 ≤ maxWorkspace full_typescript)%Z ∧
   Z.of_nat (live_handlers full_typescript) = maxWorkspace full_typescript ∧
   all_accessed (heap full) (Object_entries [("/a", 0); ("/b", 1)]) ∧
   workspacePath (lsp_request None (Some "/c")) = Some "/c" ∧
   "/c" ≠ "" ∧
   realpathSync (env 3 READY) "/c" = Some "/c" ∧
   handlers_get "/c" [("/a", 0); ("/b", 1)] = None) ∧
  ∃ oldestWorkspace oldestHandler m',
    first_oldest (heap full) (Object_entries [("/a", 0); ("/b", 1)])
      (oldestWorkspace, oldestHandler) ∧
    m' = handlers_set "/c" oldestHandler
           (handlers_delete oldestWorkspace [("/a", 0); ("/b", 1)]) ∧
    findOrCreateHandler (env 3 READY) 0 (lsp_request None (Some "/c")) full =
      (Ok oldestHandler,
       {| languageServers := alter (with_handlers (HandlerMap m')) 0 (languageServers full);
          heap := heap full;
          trace := trace full |}) ∧
    handlers_get "/c" m' = Some oldestHandler ∧
    handlers_get oldestWorkspace m' = None.
Proof.
  assert (languageServers full !! 0 = Some full_typescript) as H1 by reflexivity.
  assert (languageServerHandlers full_typescript = HandlerMap [("/a", 0); ("/b", 1)])
    as H2 by reflexivity.
  assert (1 ≤ maxWorkspace full_typescript)%Z as H3 by (simpl; lia).
  assert (Z.of_nat (live_handlers full_typescript) = maxWorkspace full_typescript)
    as H4 by reflexivity.
  assert (all_accessed (heap full) (Object_entries [("/a", 0); ("/b", 1)])) as H5.
  { apply Forall_cons; split; [by eexists|].
    apply Forall_cons; split; [by eexists|]. by apply Forall_nil. }
  assert (workspacePath (lsp_request None (Some "/c")) = Some "/c") as H6 by reflexivity.
  assert ("/c" ≠ "") as H7 by discriminate.
  assert (realpathSync (env 3 READY) "/c" = Some "/c") as H8 by reflexivity.
  assert (handlers_get "/c" [("/a", 0); ("/b", 1)] = None) as H9 by reflexivity.
  split; [exact (conj H1 (conj H2 (conj H3 (conj H4 (conj H5 (conj H6 (conj H7 (conj H8 H9))))))))|].
  exact (findOrCreateHandler_evicts_oldest (env 3 READY) 0 (lsp_request None (Some "/c")) full
           full_typescript [("/a", 0); ("/b", 1)] "/c" "/c" H1 H2 H3 H4 H5 H6 H7 H8 H9 H9).
Defined.

Lemma oldest_entry_elem hp first arr :
  oldest_entry hp first arr = first ∨ oldest_entry hp first arr ∈ arr.
Proof.
  unfold oldest_entry. revert first.
  induction arr as [|q arr IH]; intros first; simpl; [by left|].
  destruct (IH (older hp first q)) as [Heq|Hin].
  - rewrite Heq. unfold older. destruct (Js.lt _ _); [right; by left | by left].
  - right. by right.
Qed.

Lemma findOrCreateHandler_undefined E i request st ls :
  languageServers st !! i = Some ls →
  languageServerHandlers ls = Undefined →
  findOrCreateHandler E i request st =
  findOrCreateHandler E i request
    (set_languageServers (alter (with_handlers (HandlerMap [])) i) st).
Proof.
  intros Hls Hu. unfold findOrCreateHandler, handlers_of, deref, bind.
  rewrite Hls; simpl. rewrite Hls, Hu; simpl.
  unfold assign_handlers, modify; simpl.
  repeat (rewrite list_lookup_alter_eq, Hls; simpl). reflexivity.
Qed.

Lemma findOrCreateHandler_outcome E i request st ls m :
  languageServers st !! i = Some ls →
  languageServerHandlers ls = HandlerMap m →
  outcome E i request st ls m (findOrCreateHandler E i request st).
Proof.
  intros Hls Hmap.
  destruct (workspacePath request) as [wp|] eqn:Hwp.
  2: { unfold findOrCreateHandler, handlers_of, deref, bind.
       rewrite Hls; simpl. rewrite Hls, Hmap; simpl. rewrite Hwp. simpl. constructor. }
  destruct (String.eqb_spec wp "") as [->|Hne].
  { unfold findOrCreateHandler, handlers_of, deref, bind.
    rewrite Hls; simpl. rewrite Hls, Hmap; simpl. rewrite Hwp. simpl. constructor. }
  destruct (realpathSync E wp) as [realPath|] eqn:Hreal.
  2: { unfold findOrCreateHandler, handlers_of, deref, bind.
       rewrite Hls; simpl. rewrite Hls, Hmap; simpl.
       rewrite Hwp, truthy_Some by done; simpl. rewrite Hreal. constructor. }
  destruct (handlers_get realPath m) as [h|] eqn:Hget.
  { erewrite findOrCreateHandler_found by eauto. by eapply outcome_found. }
  destruct (Z.ltb_spec (Z.of_nat (length m)) (maxWorkspace ls)) as [Hlt|Hge].
  - destruct (launchFailure E (definition ls)) as [e|] eqn:Hfail.
    + erewrite findOrCreateHandler_launch_fails by eauto. constructor.
    + erewrite findOrCreateHandler_launch by eauto. by eapply outcome_launched.
  - destruct m as [|first rest] eqn:Hm.
    + unfold findOrCreateHandler, handlers_of, deref, bind.
      rewrite Hls; simpl. rewrite Hls, Hmap; simpl.
      rewrite Hwp, truthy_Some by done; simpl. rewrite Hreal. simpl.
      apply Z.ltb_ge in Hge. simpl in Hge. rewrite Hge. constructor.
    + destruct (oldest_entry (heap st) first (Object_entries (first :: rest)))
        as [ow oh] eqn:Hold.
      erewrite findOrCreateHandler_evict by eauto.
      eapply outcome_evicted; eauto.
      pose proof (oldest_entry_elem (heap st) first (first :: rest)) as [Heq|Hin].
      * unfold Object_entries in Hold. rewrite Hold in Heq. subst first. by left.
      * unfold Object_entries in Hold. by rewrite Hold in Hin.
Qed.

(** *** The key of an evicted handler *)

(** C3. At capacity [findOrCreateHandler] registers the evicted handler
    under the workspace path as the request gives it, not under its
    canonical form, although every lookup uses the canonical form: with
    [/link] a symbolic link to [/real] and the pool full, a request for
    [/link] leaves the handler under the key [/link], and the lookup of the
    canonical path [/real] of the workspace just registered finds
    nothing. *)
Theorem eviction_registers_raw_path :
  realpathSync (env 3 READY) "/link" = Some "/real" ∧
  pool 0 full = [("/a", 0); ("/b", 1)] ∧
  fst (findOrCreateHandler (env 3 READY) 0 (lsp_request None (Some "/link")) full) = Ok 0 ∧
  pool 0 (snd (findOrCreateHandler (env 3 READY) 0 (lsp_request None (Some "/link")) full)) =
    [("/b", 1); ("/link", 0)] ∧
  handlers_get "/real"
    (pool 0 (snd (findOrCreateHandler (env 3 READY) 0 (lsp_request None (Some "/link")) full))) =
    None.
Proof. by vm_compute. Qed.

(** Below capacity the key is the canonical path, and the lookup of the
    canonical path finds the handler just launched. *)
Lemma findOrCreateHandler_below_capacity_registers_realPath
  E i request st ls m wp realPath :
  languageServers st !! i = Some ls →
  languageServerHandlers ls = HandlerMap m →
  workspacePath request = Some wp →
  wp ≠ "" →
  realpathSync E wp = Some realPath →
  handlers_get realPath m = None →
  (Z.of_nat (length m) < maxWorkspace ls)%Z →
  launchFailure E (definition ls) = None →
  fst (findOrCreateHandler E i request st) = Ok (length (heap st)) ∧
  pool i (snd (findOrCreateHandler E i request st)) =
    handlers_set realPath (length (heap st)) m ∧
  handlers_get realPath (pool i (snd (findOrCreateHandler E i request st))) =
    Some (length (heap st)).
Proof.
  intros Hls Hmap Hwp Hne Hreal Hget Hlt Hok.
  erewrite findOrCreateHandler_launch by eauto. simpl.
  unfold pool. simpl. rewrite list_lookup_alter_eq, Hls. simpl.
  split_and!; [done|done|apply handlers_get_set_eq].
Qed.

(** In general: whenever the eviction branch runs for a path that is not
    canonical, the canonical path is not a key afterwards. *)
Lemma eviction_misses_canonical_path
  E i request st ls m wp realPath first rest oldestWorkspace oldestHandler :
  languageServers st !! i = Some ls →
  languageServerHandlers ls = HandlerMap m →
  workspacePath request = Some wp →
  wp ≠ "" →
  realpathSync E wp = Some realPath →
  handlers_get realPath m = None →
  (maxWorkspace ls ≤ Z.of_nat (length m))%Z →
  m = first :: rest →
  oldest_entry (heap st) first (Object_entries m) = (oldestWorkspace, oldestHandler) →
  realPath ≠ wp →
  pool i (snd (findOrCreateHandler E i request st)) =
    handlers_set wp oldestHandler (handlers_delete oldestWorkspace m) ∧
  handlers_get realPath (pool i (snd (findOrCreateHandler E i request st))) = None.
Proof.
  intros Hls Hmap Hwp Hne Hreal Hget Hge Hm Hold Hraw.
  erewrite findOrCreateHandler_evict by eauto.
  unfold pool. simpl. rewrite list_lookup_alter_eq, Hls. simpl. split; [done|].
  rewrite handlers_get_set_ne by done.
  destruct (String.eqb_spec oldestWorkspace realPath) as [->|Hne'].
  - apply handlers_get_delete_eq.
  - by rewrite handlers_get_delete_ne.
Qed.

(** *** The capacity bound *)

Lemma preserves_ret {A} P (a : A) : preserves P (ret a).
Proof. by intros st. Qed.

Lemma preserves_throw {A} P e : preserves P (@throw State A e).
Proof. by intros st. Qed.

Lemma preserves_bind {A B} P (c : M State A) (k : A → M State B) :
  preserves P c → (∀ a, preserves P (k a)) → preserves P (bind c k).
Proof.
  intros Hc Hk st HP. unfold bind. specialize (Hc st HP).
  destruct (c st) as [[a|e] st']; simpl in *; [by apply Hk|done].
Qed.

Lemma preserves_try_catch {A} P (c : M State A) (h : Exn → M State A) :
  preserves P c → (∀ e, preserves P (h e)) → preserves P (try_catch c h).
Proof.
  intros Hc Hh st HP. unfold try_catch. specialize (Hc st HP).
  destruct (c st) as [[a|e] st']; simpl in *; [done|by apply Hh].
Qed.

Lemma preserves_for_of {A} P (xs : list A) (body : A → M State unit) :
  (∀ x, preserves P (body x)) → preserves P (for_of xs body).
Proof.
  intros Hbody. induction xs as [|x xs IH]; simpl.
  - apply preserves_ret.
  - apply preserves_bind; [apply Hbody|by intros _].
Qed.

Lemma preserves_each P (body : nat → M State unit) :
  (∀ i, preserves P (body i)) → preserves P (each_languageServer body).
Proof.
  intros Hbody. unfold each_languageServer. apply preserves_bind; [by intros st|].
  intros st. by apply preserves_for_of.
Qed.

Lemma bounded_same_servers st st' :
  languageServers st' = languageServers st → bounded_state st → bounded_state st'.
Proof. unfold bounded_state. by intros ->. Qed.

Lemma bounded_assign st i hs :
  (∀ ls, languageServers st !! i = Some ls → bounded ls → bounded (with_handlers hs ls)) →
  bounded_state st →
  bounded_state (set_languageServers (alter (with_handlers hs) i) st).
Proof. intros Hf Hb. unfold bounded_state. simpl. by apply Forall_alter. Qed.

Lemma bounded_not_map ls hs :
  (∀ m, hs ≠ HandlerMap m) → bounded ls → bounded (with_handlers hs ls).
Proof.
  unfold bounded, live_handlers. simpl. intros Hhs Hb.
  destruct hs; [lia|lia|by destruct (Hhs m)].
Qed.

Lemma bounded_empty ls : bounded ls → bounded (with_handlers (HandlerMap []) ls).
Proof. unfold bounded, live_handlers. simpl. lia. Qed.

Lemma launch_preserves E d b mx p : preserves bounded_state (launch E d b mx p).
Proof.
  intros st Hb. unfold launch. destruct (launchFailure E d); simpl; [done|].
  by eapply bounded_same_servers.
Qed.

Lemma findOrCreateHandler_preserves E i request :
  preserves bounded_state (findOrCreateHandler E i request).
Proof.
  intros st Hb.
  destruct (languageServers st !! i) as [ls|] eqn:Hls.
  2: { unfold findOrCreateHandler, deref, bind. by rewrite Hls. }
  assert (∀ st ls m, bounded_state st → languageServers st !! i = Some ls →
            languageServerHandlers ls = HandlerMap m →
            bounded_state (snd (findOrCreateHandler E i request st))) as Hmapcase.
  { clear. intros st ls m Hb Hls Hmap.
    pose proof (Forall_lookup_1 _ _ _ _ Hb Hls) as Hbl.
    unfold bounded, live_handlers in Hbl. rewrite Hmap in Hbl. unfold Object_entries in Hbl.
    destruct (findOrCreateHandler_outcome E i request st ls m Hls Hmap)
      as [e|wp realPath h Hwp Hreal Hget
         |wp realPath Hwp Hreal Hget Hlt|wp realPath ow oh Hwp Hreal Hget Hge Hin]; simpl.
    - done.
    - done.
    - unfold bounded_state; simpl. apply Forall_alter; [done|].
      intros x Hx _. rewrite Hls in Hx. injection Hx as <-.
      unfold bounded, live_handlers, Object_entries; simpl.
      rewrite handlers_set_length, Hget. lia.
    - apply bounded_assign; [|done].
      intros x Hx _. rewrite Hls in Hx. injection Hx as <-.
      unfold bounded, live_handlers, Object_entries; simpl.
      rewrite handlers_set_length.
      pose proof (handlers_delete_length_lt ow m (handlers_get_elem _ _ _ Hin)).
      destruct (handlers_get wp _); lia. }
  destruct (languageServerHandlers ls) as [|h|m] eqn:Hh.
  - rewrite (findOrCreateHandler_undefined E i request st ls Hls Hh).
    eapply (Hmapcase _ (with_handlers (HandlerMap []) ls) []).
    + apply bounded_assign; [|done]. intros x _. apply bounded_empty.
    + simpl. by rewrite list_lookup_alter_eq, Hls.
    + done.
  - unfold findOrCreateHandler, handlers_of, deref, bind.
    rewrite Hls; simpl. by rewrite Hls, Hh.
  - by eapply Hmapcase.
Qed.

Lemma modify_preserves P (f : State → State) :
  (∀ st, P st → P (f st)) → preserves P (modify f).
Proof. intros Hf st HP. by apply Hf. Qed.

Lemma deref_preserves P i : preserves P (deref i).
Proof. intros st HP. unfold deref. by destruct (_ !! _). Qed.

Lemma findLanguageServer_preserves P C E lang : preserves P (findLanguageServer C E lang).
Proof.
  intros st HP. unfold findLanguageServer.
  destruct (languageServerMap_get C st lang) as [[i ls]|]; [|done].
  by destruct (_ && _).
Qed.

Lemma forward_preserves E handler request :
  preserves bounded_state (forward E handler request).
Proof.
  unfold forward. apply preserves_bind; [|by intros _ st].
  apply modify_preserves. intros st. by apply bounded_same_servers.
Qed.

Lemma assign_not_map_preserves i hs :
  (∀ m, hs ≠ HandlerMap m) → preserves bounded_state (assign_handlers i hs).
Proof.
  intros Hhs. apply modify_preserves. intros st. apply bounded_assign.
  intros ls _. by apply bounded_not_map.
Qed.

Lemma dispatchRequest_preserves C E lang request :
  preserves bounded_state (dispatchRequest C E lang request).
Proof.
  unfold dispatchRequest. destruct (truthy lang); [|apply preserves_throw].
  apply preserves_bind; [apply findLanguageServer_preserves|]. intros i.
  apply preserves_bind; [apply deref_preserves|]. intros ls.
  destruct (builtinWorkspaceFolders ls).
  - apply preserves_bind.
    + destruct (negb _); [|apply preserves_ret].
      apply preserves_bind; [apply launch_preserves|]. intros h.
      by apply assign_not_map_preserves.
    + intros _. apply preserves_bind; [apply deref_preserves|]. intros ls'.
      destruct (languageServerHandlers ls');
        [apply preserves_throw|apply forward_preserves|apply preserves_throw].
  - apply preserves_bind; [apply findOrCreateHandler_preserves|]. intros handler.
    apply preserves_bind; [|intros _; apply forward_preserves].
    apply modify_preserves. intros st. by apply bounded_same_servers.
Qed.

Lemma handleRequest_preserves C E request :
  preserves bounded_state (handleRequest C E request).
Proof.
  unfold handleRequest. destruct (truthy _); [|apply preserves_throw].
  apply dispatchRequest_preserves.
Qed.

Lemma handler_exit_preserves E h : preserves bounded_state (handler_exit E h).
Proof.
  unfold handler_exit. apply preserves_bind.
  - apply modify_preserves. intros st. by apply bounded_same_servers.
  - intros _. destruct (exitFailure E h); [apply preserves_throw|apply preserves_ret].
Qed.

Lemma handler_unloadWorkspace_preserves E h dir :
  preserves bounded_state (handler_unloadWorkspace E h dir).
Proof.
  unfold handler_unloadWorkspace. apply preserves_bind.
  - apply modify_preserves. intros st. by apply bounded_same_servers.
  - intros _. destruct (unloadFailure E h); [apply preserves_throw|apply preserves_ret].
Qed.

Lemma exit_preserves E : preserves bounded_state (exit E).
Proof.
  unfold exit. apply preserves_each. intros i.
  apply preserves_bind; [apply deref_preserves|]. intros ls.
  destruct (languageServerHandlers ls) as [|h|m]; [apply preserves_ret| |];
    destruct (builtinWorkspaceFolders ls);
    try apply preserves_throw; [apply handler_exit_preserves|].
  apply preserves_for_of. intros h. apply handler_exit_preserves.
Qed.

Lemma launchServers_preserves E : preserves bounded_state (launchServers E).
Proof.
  unfold launchServers. apply preserves_each. intros i.
  apply preserves_bind; [apply deref_preserves|]. intros ls.
  destruct (_ && _); [|apply preserves_ret].
  apply preserves_try_catch.
  - apply preserves_bind; [apply launch_preserves|]. intros h.
    by apply assign_not_map_preserves.
  - intros e. apply modify_preserves. intros st. by apply bounded_same_servers.
Qed.

Lemma unloadWorkspace_preserves E workspaceDir :
  preserves bounded_state (unloadWorkspace E workspaceDir).
Proof.
  unfold unloadWorkspace. apply preserves_each. intros i st Hb.
  unfold deref, bind.
  destruct (languageServers st !! i) as [ls|] eqn:Hls; [|done].
  destruct (languageServerHandlers ls) as [|h|m] eqn:Hh; [done| |];
    destruct (builtinWorkspaceFolders ls); try done.
  - by apply handler_unloadWorkspace_preserves.
  - destruct (realpathSync E workspaceDir) as [realPath|]; [|done].
    destruct (handlers_get realPath m) as [handler|]; [|done].
    unfold handler_unloadWorkspace, bind, modify. simpl.
    destruct (unloadFailure E handler); simpl; [by eapply bounded_same_servers|].
    apply bounded_assign; [|by eapply bounded_same_servers].
    simpl. intros x Hx. rewrite Hls in Hx. injection Hx as <-.
    unfold bounded, live_handlers, Object_entries. rewrite Hh. simpl.
    pose proof (handlers_delete_length realPath m). lia.
Qed.

Lemma after_preserves C c st : bounded_state st → bounded_state (after C c st).
Proof.
  destruct c; simpl.
  - apply handleRequest_preserves.
  - apply dispatchRequest_preserves.
  - apply findOrCreateHandler_preserves.
  - apply unloadWorkspace_preserves.
  - apply launchServers_preserves.
  - apply exit_preserves.
Qed.

Lemma after_all_preserves C cs : ∀ st, bounded_state st → bounded_state (after_all C cs st).
Proof.
  unfold after_all. induction cs as [|c cs IH]; intros st Hb; simpl; [done|].
  apply IH. by apply after_preserves.
Qed.

Lemma new_bounded d defs mx : (0 ≤ mx)%Z → bounded_state (snd (new d defs mx)).
Proof.
  intros Hmx. unfold bounded_state, new, new_languageServers. simpl.
  apply Forall_map, Forall_forall. intros def _. unfold bounded, live_handlers. simpl. lia.
Qed.

Lemma findOrCreateHandler_launch_guard E i request st ls :
  languageServers st !! i = Some ls →
  let st' := snd (findOrCreateHandler E i request st) in
  (trace st' = trace st ∧
   ∀ ls', languageServers st' !! i = Some ls' → live_handlers ls' ≤ live_handlers ls)
  ∨ (∃ h, trace st' = trace st ++ [Launch (definition ls) (builtinWorkspaceFolders ls)
                                     (maxWorkspace ls) (installationPath E (definition ls)) h] ∧
          (Z.of_nat (live_handlers ls) < maxWorkspace ls)%Z ∧
          ∀ ls', languageServers st' !! i = Some ls' →
                 live_handlers ls' = S (live_handlers ls)).
Proof.
  intros Hls.
  assert (∀ st ls m, languageServers st !! i = Some ls →
            languageServerHandlers ls = HandlerMap m →
            let st' := snd (findOrCreateHandler E i request st) in
            (trace st' = trace st ∧
             ∀ ls', languageServers st' !! i = Some ls' → live_handlers ls' ≤ length m)
            ∨ (∃ h, trace st' = trace st ++ [Launch (definition ls) (builtinWorkspaceFolders ls)
                                     (maxWorkspace ls) (installationPath E (definition ls)) h] ∧
                 (Z.of_nat (length m) < maxWorkspace ls)%Z ∧
                 ∀ ls', languageServers st' !! i = Some ls' →
                        live_handlers ls' = S (length m))) as Hmapcase.
  { clear. intros st ls m Hls Hmap.
    destruct (findOrCreateHandler_outcome E i request st ls m Hls Hmap)
      as [e|wp realPath h Hwp Hreal Hget
         |wp realPath Hwp Hreal Hget Hlt|wp realPath ow oh Hwp Hreal Hget Hge Hin]; simpl.
    - left. split; [done|]. intros ls' Hls'. rewrite Hls in Hls'. injection Hls' as <-.
      unfold live_handlers. by rewrite Hmap.
    - left. split; [done|]. intros ls' Hls'. rewrite Hls in Hls'. injection Hls' as <-.
      unfold live_handlers. by rewrite Hmap.
    - right. eexists. split; [done|]. split; [done|].
      intros ls'. rewrite list_lookup_alter_eq, Hls. simpl. intros [= <-].
      unfold live_handlers, Object_entries. simpl. by rewrite handlers_set_length, Hget.
    - left. split; [done|].
      intros ls'. rewrite list_lookup_alter_eq, Hls. simpl. intros [= <-].
      unfold live_handlers, Object_entries. simpl. rewrite handlers_set_length.
      pose proof (handlers_delete_length_lt ow m (handlers_get_elem _ _ _ Hin)).
      destruct (handlers_get wp _); lia. }
  destruct (languageServerHandlers ls) as [|h|m] eqn:Hh.
  - rewrite (findOrCreateHandler_undefined E i request st ls Hls Hh).
    assert (live_handlers ls = 0) as -> by (unfold live_handlers; by rewrite Hh).
    apply (Hmapcase (set_languageServers (alter (with_handlers (HandlerMap [])) i) st)
             (with_handlers (HandlerMap []) ls) []); [|done].
    simpl. by rewrite list_lookup_alter_eq, Hls.
  - left. unfold findOrCreateHandler, handlers_of, deref, bind.
    rewrite Hls; simpl. rewrite Hls, Hh. simpl. split; [done|].
    intros ls'. rewrite Hls. by intros [= <-].
  - assert (live_handlers ls = length m) as -> by (unfold live_handlers; by rewrite Hh).
    by apply Hmapcase.
Qed.

(** For calls made one after the other, each run to completion before the
    next starts: after any sequence of calls of [handleRequest],
    [dispatchRequest], [findOrCreateHandler], [unloadWorkspace],
    [launchServers] and [exit] on a controller built with a capacity
    [maxWorkspace >= 0], no record holds more handlers in its handler map
    than its [maxWorkspace]. A call of [findOrCreateHandler] launches a
    handler only when the count is strictly below [maxWorkspace], and the
    count then grows by one; a call that launches nothing does not let the
    count grow. *)
Lemma calls_in_turn_never_exceed_maxWorkspace
  LSP_DETACH LanguageServers options_maxWorkspace (calls : list Call) :
  (0 ≤ options_maxWorkspace)%Z →
  let C := fst (new LSP_DETACH LanguageServers options_maxWorkspace) in
  let st0 := snd (new LSP_DETACH LanguageServers options_maxWorkspace) in
  (∀ ls, ls ∈ languageServers (after_all C calls st0) →
         (Z.of_nat (live_handlers ls) ≤ maxWorkspace ls)%Z) ∧
  (∀ E i request ls,
     let st := after_all C calls st0 in
     let st' := snd (findOrCreateHandler E i request st) in
     languageServers st !! i = Some ls →
     (trace st' = trace st ∧
      ∀ ls', languageServers st' !! i = Some ls' → live_handlers ls' ≤ live_handlers ls)
     ∨ (∃ h, trace st' = trace st ++ [Launch (definition ls) (builtinWorkspaceFolders ls)
                                        (maxWorkspace ls) (installationPath E (definition ls)) h] ∧
             (Z.of_nat (live_handlers ls) < maxWorkspace ls)%Z ∧
             ∀ ls', languageServers st' !! i = Some ls' →
                    live_handlers ls' = S (live_handlers ls))).
Proof.
  intros Hmax C st0. split.
  - intros ls Hin.
    assert (bounded_state (after_all C calls st0)) as Hb.
    { apply after_all_preserves. by apply new_bounded. }
    unfold bounded_state in Hb. rewrite Forall_forall in Hb. by apply Hb.
  - intros E i request ls st st' Hls. by apply findOrCreateHandler_launch_guard.
Qed.

(** *** Calls that overlap *)

Lemma handlers_of_lookup i ls st :
  languageServers st !! i = Some ls →
  handlers_of i st =
  match languageServerHandlers ls with
  | Undefined => (Ok [], set_languageServers (alter (with_handlers (HandlerMap [])) i) st)
  | HandlerMap m => (Ok m, st)
  | Handler _ => (Throw (TypeError "languageServerHandlers is not a handler map"), st)
  end.
Proof.
  intros Hls. unfold handlers_of, bind, deref. rewrite Hls.
  by destruct (languageServerHandlers ls).
Qed.

(** A call of [findOrCreateHandler] that no other call overlaps is its
    part before the suspension point followed at once by its part after
    it. *)
Lemma findOrCreateHandler_start_resume E i request st :
  findOrCreateHandler E i request st =
  (let* suspended := findOrCreateHandler_start E i request in
   match suspended with
   | Returns handler => ret handler
   | AwaitsLaunch ls realPath => findOrCreateHandler_resume E i ls realPath
   end) st.
Proof.
  assert (∀ A B (c : M State A) (k : A → M State B) s a s',
            c s = (Ok a, s') → (let* x := c in k x) s = k a s') as bind_Ok.
  { intros A B c k s a s' Hc. unfold bind. by rewrite Hc. }
  assert (∀ A B (c : M State A) (k : A → M State B) s e s',
            c s = (Throw e, s') → (let* x := c in k x) s = (Throw e, s')) as bind_Throw.
  { intros A B c k s e s' Hc. unfold bind. by rewrite Hc. }
  assert (∀ A B D (c : M State A) (k1 : A → M State B) (k2 : B → M State D) s,
            (let* y := (let* x := c in k1 x) in k2 y) s =
            (let* x := c in let* y := k1 x in k2 y) s) as bind_assoc.
  { intros A B D c k1 k2 s. unfold bind. by destruct (c s) as [[a|e] s']. }
  unfold findOrCreateHandler, findOrCreateHandler_start.
  rewrite bind_assoc.
  destruct (languageServers st !! i) as [ls|] eqn:Hls.
  2: { rewrite !(bind_Throw _ _ (deref i) _ st (TypeError "Cannot read properties of undefined") st);
       [done| |]; unfold deref; by rewrite Hls. }
  assert (deref i st = (Ok ls, st)) as Hderef by (unfold deref; by rewrite Hls).
  rewrite !(bind_Ok _ _ (deref i) _ st ls st Hderef).
  rewrite bind_assoc.
  assert (∀ st1 m,
            languageServers st1 !! i = Some (with_handlers (HandlerMap m) ls) →
            ∀ realPath,
              (let* handler := launch E (definition ls) (builtinWorkspaceFolders ls)
                                 (maxWorkspace ls) (installationPath E (definition ls)) in
               assign_handlers i (HandlerMap (handlers_set realPath handler m)) ;;
               ret handler) st1 =
              findOrCreateHandler_resume E i ls realPath st1) as Hresume.
  { intros st1 m Hls1 realPath. unfold findOrCreateHandler_resume.
    destruct (launch E (definition ls) (builtinWorkspaceFolders ls) (maxWorkspace ls)
                (installationPath E (definition ls)) st1) as [[h|e] st2] eqn:Hl.
    - rewrite !(bind_Ok _ _ _ _ _ _ _ Hl).
      assert (languageServers st2 !! i = Some (with_handlers (HandlerMap m) ls)) as Hls2.
      { unfold launch in Hl. destruct (launchFailure E (definition ls)); [done|].
        injection Hl as _ <-. exact Hls1. }
      rewrite (bind_Ok _ _ (handlers_of i) _ st2 m st2); [done|].
      erewrite handlers_of_lookup; [|exact Hls2]. done.
    - by rewrite !(bind_Throw _ _ _ _ _ _ _ Hl). }
  pose proof (handlers_of_lookup i ls st Hls) as Hof.
  destruct (languageServerHandlers ls) as [|h|m] eqn:Hh.
  - rewrite !(bind_Ok _ _ (handlers_of i) _ st _ _ Hof).
    destruct (negb (truthy (workspacePath request))); [done|].
    cbn zeta. destruct (realpathSync E _) as [realPath|]; [|done].
    cbn [handlers_get Object_entries length].
    destruct (_ <? _)%Z; [|done].
    erewrite Hresume; [done|].
    simpl. by rewrite list_lookup_alter_eq, Hls.
  - by rewrite !(bind_Throw _ _ (handlers_of i) _ st _ _ Hof).
  - rewrite !(bind_Ok _ _ (handlers_of i) _ st _ _ Hof).
    destruct (negb (truthy (workspacePath request))); [done|].
    cbn zeta. destruct (realpathSync E _) as [realPath|]; [|done].
    destruct (handlers_get realPath m); [done|].
    destruct (_ <? _)%Z.
    + erewrite Hresume; [done|]. rewrite Hls. f_equal.
      destruct ls. simpl in *. by rewrite Hh.
    + destruct (Object_entries m) as [|first rest]; [done|].
      unfold bind, get. by destruct (oldest_entry _ _ _).
Qed.

(** C2. The bound on the handlers of a record does not hold for calls
    that overlap. On a controller of capacity 1, [dispatchRequest] for a
    file of workspace [/a] resolves the pooled record, passes the capacity
    check of [findOrCreateHandler] and awaits its launch; a second
    [dispatchRequest], for workspace [/b], that starts before that launch
    has settled finds the handler map still empty and passes the check
    too; when the two launches settle, each call registers its handler,
    stamps it and forwards its request, and the handler map holds two
    handlers where [maxWorkspace] is 1. The same two calls made one after
    the other keep the bound: the second evicts the handler of the first. *)
Theorem overlapping_calls_exceed_maxWorkspace :
  let C := fst (new false [typescript; java] 1) in
  let E := env 1 READY in
  let st0 := snd (new false [typescript; java] 1) in
  let idle := Deployment.idle_typescript 1 in
  let request_a := lsp_request None (Some "/a") in
  let request_b := lsp_request None (Some "/b") in
  let a := findOrCreateHandler_start E 0 request_a st0 in
  let b := findOrCreateHandler_start E 0 request_b (snd a) in
  let a' := findOrCreateHandler_resume E 0 idle "/a" (snd b) in
  let a'' := (assign_lastAccess 0 (now E) ;; forward E 0 request_a) (snd a') in
  let b' := findOrCreateHandler_resume E 0 (with_handlers (HandlerMap []) idle) "/b"
              (snd a'') in
  let b'' := (assign_lastAccess 1 (now E) ;; forward E 1 request_b) (snd b') in
  let in_turn :=
    dispatchRequest C E (Some "typescript") request_b
      (snd (dispatchRequest C E (Some "typescript") request_a st0)) in
  findLanguageServer C E "typescript" st0 = (Ok 0, st0) ∧
  languageServers st0 !! 0 = Some idle ∧
  fst a = Ok (AwaitsLaunch idle "/a") ∧
  findLanguageServer C E "typescript" (snd a) = (Ok 0, snd a) ∧
  fst b = Ok (AwaitsLaunch (with_handlers (HandlerMap []) idle) "/b") ∧
  fst a' = Ok 0 ∧ fst a'' = Ok 0 ∧
  fst b' = Ok 1 ∧ fst b'' = Ok 1 ∧
  pool 0 (snd b'') = [("/a", 0); ("/b", 1)] ∧
  (∃ ls, languageServers (snd b'') !! 0 = Some ls ∧
         builtinWorkspaceFolders ls = false ∧
         maxWorkspace ls = 1%Z ∧ live_handlers ls = 2) ∧
  ¬ bounded_state (snd b'') ∧
  fst in_turn = Ok 0 ∧
  pool 0 (snd in_turn) = [("/b", 0)] ∧
  bounded_state (snd in_turn).
Proof.
  cbv zeta. split_and!; try (by vm_compute).
  - eexists. split; [by vm_compute|]. by vm_compute.
  - intros Hb. apply Forall_cons_1 in Hb as [Hb _]. vm_compute in Hb. by destruct Hb.
  - repeat constructor; by vm_compute.
Qed.

(** *** Every pooled handler has served a request *)

Lemma all_accessed_le hp hp' arr : heap_le hp hp' → all_accessed hp arr → all_accessed hp' arr.
Proof.
  intros Hle Ha. unfold all_accessed in *. eapply Forall_impl; [exact Ha|].
  intros q. apply Hle.
Qed.

Lemma heap_le_app hp x : heap_le hp (hp ++ [x]).
Proof.
  intros r. unfold lastAccess_of.
  destruct (hp !! r) as [o|] eqn:Hr; [|by intros [? ?]].
  by rewrite (lookup_app_l_Some _ _ _ _ Hr).
Qed.

Lemma heap_le_assign hp h t : heap_le hp (alter (λ _, {| lastAccess := Some t |}) h hp).
Proof.
  intros r Hr. unfold lastAccess_of, Ref in *. rewrite list_lookup_alter.
  case_decide as Hd; [|done]. subst r.
  destruct (hp !! h) as [o|]; simpl; [by eexists|by destruct Hr].
Qed.

Lemma lastAccess_of_assign hp h t :
  h < length hp →
  lastAccess_of (alter (λ _, {| lastAccess := Some t |}) h hp) h = Some t.
Proof.
  intros Hlt. unfold lastAccess_of. rewrite list_lookup_alter_eq.
  by destruct (lookup_lt_is_Some_2 hp h Hlt) as [o ->].
Qed.

Lemma lastAccess_of_length hp h : is_Some (lastAccess_of hp h) → h < length hp.
Proof.
  unfold lastAccess_of. destruct (hp !! h) eqn:Hh; [|by intros [? ?]].
  intros _. by eapply lookup_lt_Some.
Qed.

Lemma elem_of_handlers_delete q k m : q ∈ handlers_delete k m → q ∈ m.
Proof.
  induction m as [|[k' h'] m IH]; simpl; [done|].
  destruct (String.eqb k k').
  - intros Hin. right. by apply IH.
  - intros Hin. apply elem_of_cons in Hin as [->|Hin]; [by left|right; by apply IH].
Qed.

Lemma elem_of_handlers_set q k h m : q ∈ handlers_set k h m → q = (k, h) ∨ q ∈ m.
Proof.
  induction m as [|[k' h'] m IH]; simpl.
  - intros Hin. apply list_elem_of_singleton in Hin. by left.
  - destruct (String.eqb k k').
    + intros Hin. apply elem_of_cons in Hin as [->|Hin]; [by left|right; by right].
    + intros Hin. apply elem_of_cons in Hin as [->|Hin]; [right; by left|].
      destruct (IH Hin) as [->|?]; [by left|right; by right].
Qed.

Lemma handlers_get_Some_elem k h m : handlers_get k m = Some h → ∃ k', (k', h) ∈ m.
Proof.
  induction m as [|[k' h'] m IH]; simpl; [done|].
  destruct (String.eqb k k').
  - intros [= ->]. exists k'. by left.
  - intros Hget. destruct (IH Hget) as [k0 ?]. exists k0. by right.
Qed.

Lemma accessed_but_weaken h st :
  pools_accessed st → h < length (heap st) → accessed_but h st.
Proof.
  intros Hp Hlt. split; [done|]. intros i ls m Hi Hm.
  eapply Forall_impl; [by eapply Hp|]. intros q Hq. by right.
Qed.

Lemma pools_accessed_assign st i hs :
  (∀ m, hs = HandlerMap m → all_accessed (heap st) m) →
  pools_accessed st →
  pools_accessed (set_languageServers (alter (with_handlers hs) i) st).
Proof.
  intros Hhs Hp j ls m. simpl. rewrite list_lookup_alter. case_decide as Hd.
  - subst j. destruct (languageServers st !! i); simpl; [|done].
    intros [= <-]. simpl. apply Hhs.
  - apply Hp.
Qed.

Lemma pools_accessed_same st st' :
  languageServers st' = languageServers st → heap_le (heap st) (heap st') →
  pools_accessed st → pools_accessed st'.
Proof.
  intros Hs Hle Hp i ls m. rewrite Hs. intros Hi Hm.
  eapply all_accessed_le; [done|]. by eapply Hp.
Qed.

Lemma heap_le_refl hp : heap_le hp hp.
Proof. by intros r. Qed.

(** What [findOrCreateHandler] leaves to [dispatchRequest]. *)
Lemma findOrCreateHandler_accessed E i request st :
  pools_accessed st →
  match findOrCreateHandler E i request st with
  | (Ok h, st') => accessed_but h st'
  | (Throw _, st') => pools_accessed st'
  end.
Proof.
  intros Hp.
  assert (∀ st ls m, pools_accessed st → languageServers st !! i = Some ls →
            languageServerHandlers ls = HandlerMap m →
            match findOrCreateHandler E i request st with
            | (Ok h, st') => accessed_but h st'
            | (Throw _, st') => pools_accessed st'
            end) as Hmapcase.
  { clear. intros st ls m Hp Hls Hmap.
    pose proof (Hp i ls m Hls Hmap) as Hm. unfold all_accessed in Hm.
    rewrite Forall_forall in Hm.
    destruct (findOrCreateHandler_outcome E i request st ls m Hls Hmap)
      as [e|wp realPath h Hwp Hreal Hget
         |wp realPath Hwp Hreal Hget Hlt|wp realPath ow oh Hwp Hreal Hget Hge Hin].
    - done.
    - apply accessed_but_weaken; [done|].
      destruct (handlers_get_Some_elem _ _ _ Hget) as [k Hk].
      by apply (lastAccess_of_length _ _ (Hm _ Hk)).
    - split; simpl; [rewrite length_app; simpl; lia|].
      intros j ls' m'. rewrite list_lookup_alter. case_decide as Hd.
      + rewrite Hls. simpl. intros [= <-]. simpl. intros [= <-].
        apply Forall_forall. intros q Hq.
        apply elem_of_handlers_set in Hq as [->|Hq]; [by left|right].
        by apply heap_le_app, Hm.
      + intros Hj Hm'. eapply Forall_impl; [by eapply (Hp j)|].
        intros q Hq. right. by apply heap_le_app.
    - apply accessed_but_weaken.
      + apply pools_accessed_assign; [|done]. intros m' [= <-].
        apply Forall_forall. intros q Hq.
        apply elem_of_handlers_set in Hq as [->|Hq]; [by apply (Hm _ Hin)|].
        by apply Hm, (elem_of_handlers_delete _ ow).
      + by apply (lastAccess_of_length _ _ (Hm _ Hin)). }
  destruct (languageServers st !! i) as [ls|] eqn:Hls.
  2: { unfold findOrCreateHandler, deref, bind. by rewrite Hls. }
  destruct (languageServerHandlers ls) as [|h|m] eqn:Hh.
  - rewrite (findOrCreateHandler_undefined E i request st ls Hls Hh).
    apply (Hmapcase _ (with_handlers (HandlerMap []) ls) []).
    + apply pools_accessed_assign; [|done]. intros m [= <-]. apply Forall_nil_2.
    + simpl. by rewrite list_lookup_alter_eq, Hls.
    + done.
  - unfold findOrCreateHandler, handlers_of, deref, bind.
    rewrite Hls; simpl. by rewrite Hls, Hh.
  - by eapply Hmapcase.
Qed.

Lemma launch_accessed E d b mx p : preserves pools_accessed (launch E d b mx p).
Proof.
  intros st Hp. unfold launch. destruct (launchFailure E d); simpl; [done|].
  eapply pools_accessed_same; [| |exact Hp]; [done|]. simpl. apply heap_le_app.
Qed.

Lemma emit_accessed e : preserves pools_accessed (modify (emit e)).
Proof.
  apply modify_preserves. intros st.
  apply pools_accessed_same; [done|apply heap_le_refl].
Qed.

Lemma assign_not_map_accessed i hs :
  (∀ m, hs ≠ HandlerMap m) → preserves pools_accessed (assign_handlers i hs).
Proof.
  intros Hhs. apply modify_preserves. intros st. apply pools_accessed_assign.
  intros m ->. by destruct (Hhs m).
Qed.

Lemma forward_accessed E handler request :
  preserves pools_accessed (forward E handler request).
Proof.
  unfold forward. apply preserves_bind; [apply emit_accessed|by intros _ st].
Qed.

Lemma dispatchRequest_accessed C E lang request :
  preserves pools_accessed (dispatchRequest C E lang request).
Proof.
  unfold dispatchRequest. destruct (truthy lang); [|apply preserves_throw].
  apply preserves_bind; [apply findLanguageServer_preserves|]. intros i.
  apply preserves_bind; [apply deref_preserves|]. intros ls.
  destruct (builtinWorkspaceFolders ls).
  - apply preserves_bind.
    + destruct (negb _); [|apply preserves_ret].
      apply preserves_bind; [apply launch_accessed|]. intros h.
      by apply assign_not_map_accessed.
    + intros _. apply preserves_bind; [apply deref_preserves|]. intros ls'.
      destruct (languageServerHandlers ls');
        [apply preserves_throw|apply forward_accessed|apply preserves_throw].
  - intros st Hp. pose proof (findOrCreateHandler_accessed E i request st Hp) as Hf.
    unfold bind at 1. destruct (findOrCreateHandler E i request st) as [[h|e] st1]; [|done].
    destruct Hf as [Hlt Hbut]. unfold bind, assign_lastAccess, modify. cbn [fst snd].
    apply forward_accessed. intros j ls' m Hj Hm. specialize (Hbut j ls' m Hj Hm).
    eapply Forall_impl; [exact Hbut|]. intros q [Hq|Hq]; simpl.
    + rewrite Hq, lastAccess_of_assign; eauto.
    + by apply heap_le_assign.
Qed.

Lemma handleRequest_accessed C E request :
  preserves pools_accessed (handleRequest C E request).
Proof.
  unfold handleRequest. destruct (truthy _); [|apply preserves_throw].
  apply dispatchRequest_accessed.
Qed.

Lemma handler_exit_accessed E h : preserves pools_accessed (handler_exit E h).
Proof.
  unfold handler_exit. apply preserves_bind; [apply emit_accessed|].
  intros _. destruct (exitFailure E h); [apply preserves_throw|apply preserves_ret].
Qed.

Lemma handler_unloadWorkspace_accessed E h dir :
  preserves pools_accessed (handler_unloadWorkspace E h dir).
Proof.
  unfold handler_unloadWorkspace. apply preserves_bind; [apply emit_accessed|].
  intros _. destruct (unloadFailure E h); [apply preserves_throw|apply preserves_ret].
Qed.

Lemma exit_accessed E : preserves pools_accessed (exit E).
Proof.
  unfold exit. apply preserves_each. intros i.
  apply preserves_bind; [apply deref_preserves|]. intros ls.
  destruct (languageServerHandlers ls) as [|h|m]; [apply preserves_ret| |];
    destruct (builtinWorkspaceFolders ls);
    try apply preserves_throw; [apply handler_exit_accessed|].
  apply preserves_for_of. intros h. apply handler_exit_accessed.
Qed.

Lemma launchServers_accessed E : preserves pools_accessed (launchServers E).
Proof.
  unfold launchServers. apply preserves_each. intros i.
  apply preserves_bind; [apply deref_preserves|]. intros ls.
  destruct (_ && _); [|apply preserves_ret].
  apply preserves_try_catch.
  - apply preserves_bind; [apply launch_accessed|]. intros h.
    by apply assign_not_map_accessed.
  - intros e. apply emit_accessed.
Qed.

Lemma unloadWorkspace_accessed E workspaceDir :
  preserves pools_accessed (unloadWorkspace E workspaceDir).
Proof.
  unfold unloadWorkspace. apply preserves_each. intros i st Hp.
  unfold deref, bind.
  destruct (languageServers st !! i) as [ls|] eqn:Hls; [|done].
  destruct (languageServerHandlers ls) as [|h|m] eqn:Hh; [done| |];
    destruct (builtinWorkspaceFolders ls); try done.
  - by apply handler_unloadWorkspace_accessed.
  - destruct (realpathSync E workspaceDir) as [realPath|]; [|done].
    destruct (handlers_get realPath m) as [handler|]; [|done].
    pose proof (Hp i ls m Hls Hh) as Hm.
    unfold handler_unloadWorkspace, bind, modify. simpl.
    destruct (unloadFailure E handler); simpl.
    + eapply pools_accessed_same; [| |exact Hp]; [done|apply heap_le_refl].
    + apply (pools_accessed_assign (emit _ st)).
      * intros m' [= <-]. simpl. unfold all_accessed in *. rewrite Forall_forall in *.
        intros q Hq. by apply Hm, (elem_of_handlers_delete _ realPath).
      * eapply pools_accessed_same; [| |exact Hp]; [done|apply heap_le_refl].
Qed.

Lemma after_accessed C c st : public c → pools_accessed st → pools_accessed (after C c st).
Proof.
  destruct c; simpl; intros Hpub; [| |done| | |].
  - apply handleRequest_accessed.
  - apply dispatchRequest_accessed.
  - apply unloadWorkspace_accessed.
  - apply launchServers_accessed.
  - apply exit_accessed.
Qed.

Lemma new_accessed d defs mx : pools_accessed (snd (new d defs mx)).
Proof.
  intros i ls m. unfold new, new_languageServers. simpl.
  rewrite list_lookup_fmap. destruct (defs !! i); simpl; [|done]. by intros [= <-].
Qed.

(** The assumption of the eviction theorem holds in every state the
    public interface can reach. *)
Lemma reachable_pools_accessed d defs mx calls :
  Forall public calls →
  pools_accessed (after_all (fst (new d defs mx)) calls (snd (new d defs mx))).
Proof.
  intros Hpub. generalize (new_accessed d defs mx).
  generalize (snd (new d defs mx)) as st. unfold after_all.
  induction Hpub as [|c calls Hc _ IH]; intros st Hp; simpl; [done|].
  apply IH. by apply after_accessed.
Qed.

(** *** The branches of [dispatchRequest] *)

Lemma languageServerMap_get_lookup C st lang i ls :
  languageServerMap_get C st lang = Some (i, ls) → languageServers st !! i = Some ls.
Proof.
  unfold languageServerMap_get. destruct (languageServerMap C !! lang) as [j|]; [|done].
  destruct (languageServers st !! j) eqn:Hj; [|done]. by intros [= <- <-].
Qed.

Lemma findLanguageServer_cases C E lang st :
  (∃ i ls, languageServerMap_get C st lang = Some (i, ls) ∧
           negb (detach C) && negb (status_eqb (installStatus E (definition ls)) READY)
             = false ∧
           findLanguageServer C E lang st = (Ok i, st)) ∨
  (∃ e, findLanguageServer C E lang st = (Throw e, st)).
Proof.
  unfold findLanguageServer.
  destruct (languageServerMap_get C st lang) as [[i ls]|] eqn:Hget; [|right; by eexists].
  destruct (negb (detach C) && _) eqn:Hc; [right; by eexists|].
  left. by exists i, ls.
Qed.

Lemma with_handlers_id ls : with_handlers (languageServerHandlers ls) ls = ls.
Proof. by destruct ls. Qed.

Lemma dispatchRequest_falsy C E lang request st :
  truthy lang = false →
  dispatchRequest C E lang request st =
  (Throw (ResponseError UnknownFileLanguage
            ("can't detect language from file:" +:+ template (resolvedFilePath request))),
   st).
Proof. intros Ht. unfold dispatchRequest. by rewrite Ht. Qed.

Lemma dispatchRequest_unresolved C E lang request st e :
  truthy lang = true →
  findLanguageServer C E (default "" lang) st = (Throw e, st) →
  dispatchRequest C E lang request st = (Throw e, st).
Proof. intros Ht Hf. unfold dispatchRequest. rewrite Ht. unfold bind at 1. by rewrite Hf. Qed.

Lemma dispatchRequest_pooled C E lang request st i ls :
  truthy lang = true →
  findLanguageServer C E (default "" lang) st = (Ok i, st) →
  languageServers st !! i = Some ls →
  builtinWorkspaceFolders ls = false →
  dispatchRequest C E lang request st =
  bind (findOrCreateHandler E i request)
    (λ handler, assign_lastAccess handler (now E) ;; forward E handler request) st.
Proof.
  intros Ht Hf Hls Hb. unfold dispatchRequest. rewrite Ht.
  unfold bind at 1. rewrite Hf. unfold bind at 1, deref at 1. by rewrite Hls, Hb.
Qed.

Lemma dispatchRequest_builtin_launch_fails C E lang request st i ls e :
  truthy lang = true →
  findLanguageServer C E (default "" lang) st = (Ok i, st) →
  languageServers st !! i = Some ls →
  builtinWorkspaceFolders ls = true →
  launcherRunning E (definition ls) = false →
  launchFailure E (definition ls) = Some e →
  dispatchRequest C E lang request st = (Throw e, st).
Proof.
  intros Ht Hf Hls Hb Hrun Hfail. unfold dispatchRequest. rewrite Ht.
  unfold bind at 1. rewrite Hf. unfold bind at 1, deref at 1. rewrite Hls, Hb, Hrun. simpl.
  unfold bind, launch. by rewrite Hfail.
Qed.

Lemma dispatchRequest_builtin_launch C E lang request st i ls :
  truthy lang = true →
  findLanguageServer C E (default "" lang) st = (Ok i, st) →
  languageServers st !! i = Some ls →
  builtinWorkspaceFolders ls = true →
  launcherRunning E (definition ls) = false →
  launchFailure E (definition ls) = None →
  dispatchRequest C E lang request st =
  (handled E (length (heap st)) request,
   {| languageServers :=
        alter (with_handlers (Handler (length (heap st)))) i (languageServers st);
      heap := heap st ++ [{| lastAccess := None |}];
      trace := trace st ++
               [Launch (definition ls) true (maxWorkspace ls)
                  (installationPath E (definition ls)) (length (heap st));
                HandleRequest (length (heap st)) request] |}).
Proof.
  intros Ht Hf Hls Hb Hrun Hfail. unfold dispatchRequest. rewrite Ht.
  unfold bind at 1. rewrite Hf. unfold bind at 1, deref at 1. rewrite Hls, Hb, Hrun. simpl.
  unfold bind, launch, assign_handlers, modify, deref, forward, ret. rewrite Hfail. simpl.
  rewrite list_lookup_alter_eq, Hls. simpl. unfold emit, bind, modify. simpl.
  by rewrite <- app_assoc.
Qed.

Lemma dispatchRequest_builtin_running C E lang request st i ls :
  truthy lang = true →
  findLanguageServer C E (default "" lang) st = (Ok i, st) →
  languageServers st !! i = Some ls →
  builtinWorkspaceFolders ls = true →
  launcherRunning E (definition ls) = true →
  dispatchRequest C E lang request st =
  match languageServerHandlers ls with
  | Handler handler => (handled E handler request, emit (HandleRequest handler request) st)
  | Undefined => (Throw (TypeError "Cannot read properties of undefined"), st)
  | HandlerMap _ => (Throw (TypeError "handler.handleRequest is not a function"), st)
  end.
Proof.
  intros Ht Hf Hls Hb Hrun. unfold dispatchRequest. rewrite Ht.
  unfold bind at 1. rewrite Hf. unfold bind at 1, deref at 1. rewrite Hls, Hb, Hrun. simpl.
  unfold bind, deref, ret. rewrite Hls. by destruct (languageServerHandlers ls).
Qed.

(** The outcome of [findOrCreateHandler] on any record that does not hold
    a single handler, with the map it starts from. *)
Lemma findOrCreateHandler_result E i request st ls :
  languageServers st !! i = Some ls →
  (∀ h, languageServerHandlers ls ≠ Handler h) →
  ∃ st0 ls0,
    heap st0 = heap st ∧ trace st0 = trace st ∧
    (∀ j, pool j st0 = pool j st) ∧
    length (languageServers st0) = length (languageServers st) ∧
    (∀ j, j ≠ i → languageServers st0 !! j = languageServers st !! j) ∧
    languageServers st0 !! i = Some ls0 ∧
    ls0 = with_handlers (HandlerMap (pool i st)) ls ∧
    outcome E i request st0 ls0 (pool i st) (findOrCreateHandler E i request st).
Proof.
  intros Hls Hnot. destruct (languageServerHandlers ls) as [|h|m] eqn:Hh.
  - exists (set_languageServers (alter (with_handlers (HandlerMap [])) i) st),
      (with_handlers (HandlerMap []) ls).
    assert (pool i st = []) as Hp by (unfold pool; by rewrite Hls, Hh).
    split_and!; try done.
    + intros j. unfold pool. simpl. rewrite list_lookup_alter.
      case_decide as Hd; [|done]. subst j. by rewrite Hls, Hh.
    + simpl. by rewrite length_alter.
    + intros j Hj. simpl. by rewrite list_lookup_alter_ne.
    + simpl. by rewrite list_lookup_alter_eq, Hls.
    + by rewrite Hp.
    + rewrite Hp, (findOrCreateHandler_undefined E i request st ls Hls Hh).
      apply findOrCreateHandler_outcome; [|done].
      simpl. by rewrite list_lookup_alter_eq, Hls.
  - by destruct (Hnot h).
  - exists st, ls.
    assert (pool i st = m) as Hp by (unfold pool; by rewrite Hls, Hh).
    split_and!; try done.
    + by rewrite Hp, <- Hh, with_handlers_id.
    + rewrite Hp. by apply findOrCreateHandler_outcome.
Qed.

Lemma findOrCreateHandler_single E i request st ls h :
  languageServers st !! i = Some ls →
  languageServerHandlers ls = Handler h →
  findOrCreateHandler E i request st =
  (Throw (TypeError "languageServerHandlers is not a handler map"), st).
Proof.
  intros Hls Hh. unfold findOrCreateHandler, handlers_of, deref, bind.
  rewrite Hls; simpl. by rewrite Hls, Hh.
Qed.

(** *** Language resolution *)

Lemma bind_findLanguageServer {A} C E lang st i ls (k : nat → M State A) :
  languageServerMap_get C st lang = Some (i, ls) →
  negb (detach C) && negb (status_eqb (installStatus E (definition ls)) READY) = false →
  bind (findLanguageServer C E lang) k st = k i st.
Proof. intros Hget Hok. unfold bind, findLanguageServer. by rewrite Hget, Hok. Qed.

Lemma dispatchRequest_found_ready C E lang request st i ls :
  truthy (Some lang) = true →
  languageServerMap_get C st lang = Some (i, ls) →
  negb (detach C) && negb (status_eqb (installStatus E (definition ls)) READY) = false →
  dispatchRequest C E (Some lang) request st =
  dispatchRequest C (with_installStatus (λ _, READY) E) (Some lang) request st.
Proof.
  intros Ht Hget Hok. unfold dispatchRequest. rewrite Ht. simpl default.
  erewrite !bind_findLanguageServer; eauto. simpl. apply andb_false_r.
Qed.

(** A request for a workspace that is not mapped yet, below capacity:
    a handler is launched, registered under the canonical path, stamped
    and called. *)
Lemma dispatchRequest_launches C E lang request st i ls wp realPath :
  truthy (Some lang) = true →
  languageServerMap_get C st lang = Some (i, ls) →
  negb (detach C) && negb (status_eqb (installStatus E (definition ls)) READY) = false →
  builtinWorkspaceFolders ls = false →
  (∀ h, languageServerHandlers ls ≠ Handler h) →
  workspacePath request = Some wp →
  wp ≠ "" →
  realpathSync E wp = Some realPath →
  handlers_get realPath (pool i st) = None →
  (Z.of_nat (length (pool i st)) < maxWorkspace ls)%Z →
  launchFailure E (definition ls) = None →
  fst (dispatchRequest C E (Some lang) request st) = handled E (length (heap st)) request ∧
  pool i (snd (dispatchRequest C E (Some lang) request st)) =
    handlers_set realPath (length (heap st)) (pool i st) ∧
  heap (snd (dispatchRequest C E (Some lang) request st)) =
    heap st ++ [{| lastAccess := Some (now E) |}] ∧
  trace (snd (dispatchRequest C E (Some lang) request st)) =
    trace st ++ [Launch (definition ls) false (maxWorkspace ls)
                   (installationPath E (definition ls)) (length (heap st));
                 HandleRequest (length (heap st)) request].
Proof.
  intros Ht Hget Hok Hb Hnot Hwp Hne Hreal Hmiss Hlt Hlaunch.
  pose proof (languageServerMap_get_lookup _ _ _ _ _ Hget) as Hls.
  assert (findLanguageServer C E lang st = (Ok i, st)) as Hf.
  { unfold findLanguageServer. by rewrite Hget, Hok. }
  rewrite (dispatchRequest_pooled C E (Some lang) request st i ls Ht Hf Hls Hb).
  assert (∀ st1 ls1 m,
            languageServers st1 !! i = Some ls1 →
            languageServerHandlers ls1 = HandlerMap m →
            handlers_get realPath m = None →
            (Z.of_nat (length m) < maxWorkspace ls1)%Z →
            launchFailure E (definition ls1) = None →
            bind (findOrCreateHandler E i request)
              (λ handler, assign_lastAccess handler (now E) ;; forward E handler request)
              st1 =
            (handled E (length (heap st1)) request,
             {| languageServers :=
                  alter (with_handlers
                           (HandlerMap (handlers_set realPath (length (heap st1)) m))) i
                    (languageServers st1);
                heap := heap st1 ++ [{| lastAccess := Some (now E) |}];
                trace := trace st1 ++
                         [Launch (definition ls1) (builtinWorkspaceFolders ls1)
                            (maxWorkspace ls1) (installationPath E (definition ls1))
                            (length (heap st1));
                          HandleRequest (length (heap st1)) request] |})) as Hrun.
  { intros st1 ls1 m Hls1 Hmap Hmiss1 Hlt1 Hlaunch1. unfold bind at 1.
    rewrite (findOrCreateHandler_launch E i request st1 ls1 m wp realPath
               Hls1 Hmap Hwp Hne Hreal Hmiss1 Hlt1 Hlaunch1).
    unfold bind, assign_lastAccess, forward, modify, set_heap, emit. simpl.
    rewrite <- (Nat.add_0_r (length (heap st1))) at 2. rewrite alter_app_r. simpl.
    unfold bind. simpl. by rewrite <- app_assoc. }
  destruct (languageServerHandlers ls) as [|h|m] eqn:Hh.
  - assert (pool i st = []) as Hp by (unfold pool; by rewrite Hls, Hh).
    rewrite Hp in *.
    assert (bind (findOrCreateHandler E i request)
              (λ handler, assign_lastAccess handler (now E) ;; forward E handler request) st =
            bind (findOrCreateHandler E i request)
              (λ handler, assign_lastAccess handler (now E) ;; forward E handler request)
              (set_languageServers (alter (with_handlers (HandlerMap [])) i) st)) as ->.
    { unfold bind at 1 3. by rewrite (findOrCreateHandler_undefined E i request st ls Hls Hh). }
    rewrite (Hrun _ (with_handlers (HandlerMap []) ls) []); try done.
    + simpl. rewrite Hb. split_and!; try done.
      unfold pool. simpl. by rewrite !list_lookup_alter_eq, Hls.
    + simpl. by rewrite list_lookup_alter_eq, Hls.
  - by destruct (Hnot h).
  - assert (pool i st = m) as Hp by (unfold pool; by rewrite Hls, Hh).
    rewrite Hp in *. rewrite (Hrun st ls m); try done.
    simpl. rewrite Hb. split_and!; try done.
    unfold pool. simpl. by rewrite list_lookup_alter_eq, Hls.
Qed.

(** A request for a workspace whose canonical path is mapped is served by
    the mapped handler: its [lastAccess] is set to the current time, the
    handler maps stay as they are, and the call ends as the call of the
    handler ends. *)
Lemma dispatchRequest_hit C E lang request st i ls m wp realPath handler :
  truthy (Some lang) = true →
  languageServerMap_get C st lang = Some (i, ls) →
  negb (detach C) && negb (status_eqb (installStatus E (definition ls)) READY) = false →
  builtinWorkspaceFolders ls = false →
  languageServerHandlers ls = HandlerMap m →
  workspacePath request = Some wp →
  wp ≠ "" →
  realpathSync E wp = Some realPath →
  handlers_get realPath m = Some handler →
  dispatchRequest C E (Some lang) request st =
  (handled E handler request,
   {| languageServers := languageServers st;
      heap := alter (λ _, {| lastAccess := Some (now E) |}) handler (heap st);
      trace := trace st ++ [HandleRequest handler request] |}).
Proof.
  intros Ht Hget Hok Hb Hmap Hwp Hne Hreal Hhit.
  assert (languageServers st !! i = Some ls) as Hls.
  { unfold languageServerMap_get in Hget.
    destruct (languageServerMap C !! lang) as [j|]; [|done].
    destruct (languageServers st !! j) eqn:Hj; [|done]. by injection Hget as <- <-. }
  unfold dispatchRequest. rewrite Ht. simpl default.
  erewrite bind_findLanguageServer by eauto.
  unfold bind at 1. unfold deref at 1. rewrite Hls, Hb.
  unfold bind at 1. erewrite findOrCreateHandler_found by eauto.
  reflexivity.
Qed.

(** C5. For a language that resolves to a configured record whose backend
    the install manager does not report as ready, [dispatchRequest] fails
    with [LanguageServerNotInstalled] when the detached flag is off. When
    the flag is on, [findLanguageServer] returns the record and
    [dispatchRequest] goes on exactly as it does for a backend that is
    ready: for a server with builtin workspace folders whose launcher does
    not run, the handler is launched and called; for a server with one
    backend per workspace, a new workspace below capacity gets a handler
    launched, registered under its canonical path, stamped and called,
    and a workspace that is mapped is served by its handler. For a
    language with no configured record [dispatchRequest] fails with
    [UnknownFileLanguage]. *)
Theorem findLanguageServer_checks_installation C E lang request st :
  truthy (Some lang) = true →
  (∀ i ls, languageServerMap_get C st lang = Some (i, ls) →
           installStatus E (definition ls) ≠ READY →
           (detach C = false →
            dispatchRequest C E (Some lang) request st =
            (Throw (ResponseError LanguageServerNotInstalled
                      ("language server " +:+ lang +:+ " not installed")), st)) ∧
           (detach C = true →
            findLanguageServer C E lang st = (Ok i, st) ∧
            dispatchRequest C E (Some lang) request st =
            dispatchRequest C (with_installStatus (λ _, READY) E) (Some lang) request st ∧
            (builtinWorkspaceFolders ls = true →
             launcherRunning E (definition ls) = false →
             launchFailure E (definition ls) = None →
             dispatchRequest C E (Some lang) request st =
             (handled E (length (heap st)) request,
              {| languageServers :=
                   alter (with_handlers (Handler (length (heap st)))) i (languageServers st);
                 heap := heap st ++ [{| lastAccess := None |}];
                 trace := trace st ++
                          [Launch (definition ls) true (maxWorkspace ls)
                             (installationPath E (definition ls)) (length (heap st));
                           HandleRequest (length (heap st)) request] |})) ∧
            (∀ wp realPath,
               builtinWorkspaceFolders ls = false →
               (∀ h, languageServerHandlers ls ≠ Handler h) →
               workspacePath request = Some wp →
               wp ≠ "" →
               realpathSync E wp = Some realPath →
               handlers_get realPath (pool i st) = None →
               (Z.of_nat (length (pool i st)) < maxWorkspace ls)%Z →
               launchFailure E (definition ls) = None →
               fst (dispatchRequest C E (Some lang) request st) =
                 handled E (length (heap st)) request ∧
               pool i (snd (dispatchRequest C E (Some lang) request st)) =
                 handlers_set realPath (length (heap st)) (pool i st) ∧
               heap (snd (dispatchRequest C E (Some lang) request st)) =
                 heap st ++ [{| lastAccess := Some (now E) |}] ∧
               trace (snd (dispatchRequest C E (Some lang) request st)) =
                 trace st ++ [Launch (definition ls) false (maxWorkspace ls)
                                (installationPath E (definition ls)) (length (heap st));
                              HandleRequest (length (heap st)) request]) ∧
            (∀ m wp realPath handler,
               builtinWorkspaceFolders ls = false →
               languageServerHandlers ls = HandlerMap m →
               workspacePath request = Some wp →
               wp ≠ "" →
               realpathSync E wp = Some realPath →
               handlers_get realPath m = Some handler →
               dispatchRequest C E (Some lang) request st =
               (handled E handler request,
                {| languageServers := languageServers st;
                   heap := alter (λ _, {| lastAccess := Some (now E) |}) handler (heap st);
                   trace := trace st ++ [HandleRequest handler request] |})))) ∧
  (languageServerMap_get C st lang = None →
   dispatchRequest C E (Some lang) request st =
   (Throw (ResponseError UnknownFileLanguage ("unsupported language " +:+ lang)), st)).
Proof.
  intros Ht. split.
  - intros i ls Hget Hnot.
    assert (status_eqb (installStatus E (definition ls)) READY = false) as Hs.
    { by destruct (installStatus E (definition ls)). }
    split; intros Hd.
    + unfold dispatchRequest. rewrite Ht. simpl default. unfold bind, findLanguageServer.
      by rewrite Hget, Hd, Hs.
    + assert (negb (detach C)
              && negb (status_eqb (installStatus E (definition ls)) READY) = false)
        as Hok by by rewrite Hd.
      assert (findLanguageServer C E lang st = (Ok i, st)) as Hf.
      { unfold findLanguageServer. by rewrite Hget, Hd. }
      pose proof (languageServerMap_get_lookup _ _ _ _ _ Hget) as Hls.
      split_and!.
      * done.
      * by eapply dispatchRequest_found_ready.
      * intros Hb Hrun Hlaunch.
        by apply (dispatchRequest_builtin_launch C E (Some lang) request st i ls).
      * intros wp realPath Hb Hshape Hwp Hne Hreal Hmiss Hlt Hlaunch.
        by apply (dispatchRequest_launches C E lang request st i ls wp realPath).
      * intros m wp realPath handler Hb Hmap Hwp Hne Hreal Hhit.
        by apply (dispatchRequest_hit C E lang request st i ls m wp realPath handler).
  - intros Hget. unfold dispatchRequest. rewrite Ht. simpl default.
    unfold bind, findLanguageServer. by rewrite Hget.
Qed.

Lemma findLanguageServer_checks_installation_witness :
  (truthy (Some "typescript") = true ∧
   languageServerMap_get (controller false) initial "typescript" =
     Some (0, with_handlers Undefined full_typescript) ∧
   installStatus (env 1 NOT_INSTALLED) (definition (with_handlers Undefined full_typescript))
     ≠ READY ∧
   detach (controller false) = false ∧
   detach (controller true) = true) ∧
  dispatchRequest (controller false) (env 1 NOT_INSTALLED) (Some "typescript")
    (lsp_request None (Some "/a")) initial =
  (Throw (ResponseError LanguageServerNotInstalled
            ("language server " +:+ "typescript" +:+ " not installed")), initial) ∧
  fst (dispatchRequest (controller true) (env 1 NOT_INSTALLED) (Some "typescript")
         (lsp_request None (Some "/a")) initial) = Ok 0 ∧
  pool 0 (snd (dispatchRequest (controller true) (env 1 NOT_INSTALLED) (Some "typescript")
                 (lsp_request None (Some "/a")) initial)) = [("/a", 0)] ∧
  heap (snd (dispatchRequest (controller true) (env 1 NOT_INSTALLED) (Some "typescript")
               (lsp_request None (Some "/a")) initial)) = [{| lastAccess := Some 1%Z |}] ∧
  trace (snd (dispatchRequest (controller true) (env 1 NOT_INSTALLED) (Some "typescript")
                (lsp_request None (Some "/a")) initial)) =
  [Launch typescript false 2 "/opt/TypeScript" 0;
   HandleRequest 0 (lsp_request None (Some "/a"))].
Proof.
  assert (truthy (Some "typescript") = true) as H1 by reflexivity.
  assert (languageServerMap_get (controller false) initial "typescript" =
          Some (0, with_handlers Undefined full_typescript)) as H2 by reflexivity.
  assert (installStatus (env 1 NOT_INSTALLED)
            (definition (with_handlers Undefined full_typescript)) ≠ READY) as H3
    by discriminate.
  assert (detach (controller false) = false) as H4 by reflexivity.
  assert (detach (controller true) = true) as H5 by reflexivity.
  assert ("/a" ≠ "") as H6 by discriminate.
  assert (∀ h, languageServerHandlers (with_handlers Undefined full_typescript) ≠ Handler h)
    as H7 by discriminate.
  split; [exact (conj H1 (conj H2 (conj H3 (conj H4 H5))))|]. split.
  - exact (proj1 (proj1 (findLanguageServer_checks_installation (controller false)
                           (env 1 NOT_INSTALLED) "typescript" (lsp_request None (Some "/a"))
                           initial H1) 0 _ H2 H3) H4).
  - exact (proj1 (proj2 (proj2 (proj2
             (proj2 (proj1 (findLanguageServer_checks_installation (controller true)
                              (env 1 NOT_INSTALLED) "typescript"
                              (lsp_request None (Some "/a")) initial H1) 0 _ H2 H3) H5))))
             "/a" "/a" eq_refl H7 eq_refl H6 eq_refl eq_refl eq_refl eq_refl).
Defined.


(** C6, as amended. [handleRequest] fails with [UnknownErrorCode] when the
    request carries no [resolvedFilePath], and with [UnknownFileLanguage]
    when language detection on the file yields no language. *)
Theorem handleRequest_language_errors C E request st :
  (truthy (resolvedFilePath request) = false →
   handleRequest C E request st =
   (Throw (ResponseError UnknownErrorCode "can't detect language without a file"), st)) ∧
  (∀ file, resolvedFilePath request = Some file → file ≠ ""%string →
     truthy (detectLanguage E (replace "file://" "" file)) = false →
     handleRequest C E request st =
     (Throw (ResponseError UnknownFileLanguage ("can't detect language from file:" +:+ file)),
      st)).
Proof.
  split.
  - intros Hf. unfold handleRequest. by rewrite Hf.
  - intros file Hfile Hne Hlang. unfold handleRequest. rewrite Hfile, truthy_Some by done.
    simpl default. unfold dispatchRequest. by rewrite Hlang, Hfile.
Qed.

Lemma handleRequest_language_errors_witness :
  (truthy (resolvedFilePath (lsp_request None (Some "/a"))) = false ∧
   resolvedFilePath (lsp_request (Some "file:///a/README") (Some "/a")) = Some "file:///a/README" ∧
   "file:///a/README" ≠ "" ∧
   truthy (detectLanguage (env 1 READY) (replace "file://" "" "file:///a/README")) = false) ∧
  handleRequest (controller false) (env 1 READY) (lsp_request None (Some "/a")) initial =
    (Throw (ResponseError UnknownErrorCode "can't detect language without a file"),
     initial) ∧
  handleRequest (controller false) (env 1 READY)
    (lsp_request (Some "file:///a/README") (Some "/a")) initial =
    (Throw (ResponseError UnknownFileLanguage
              ("can't detect language from file:" +:+ "file:///a/README")), initial).
Proof.
  assert (truthy (resolvedFilePath (lsp_request None (Some "/a"))) = false) as H1 by reflexivity.
  assert (resolvedFilePath (lsp_request (Some "file:///a/README") (Some "/a")) =
          Some "file:///a/README") as H2 by reflexivity.
  assert ("file:///a/README" ≠ "") as H3 by discriminate.
  assert (truthy (detectLanguage (env 1 READY) (replace "file://" "" "file:///a/README")) =
          false) as H4 by reflexivity.
  split; [exact (conj H1 (conj H2 (conj H3 H4)))|]. split.
  - exact (proj1 (handleRequest_language_errors (controller false) (env 1 READY)
                    (lsp_request None (Some "/a")) initial) H1).
  - exact (proj2 (handleRequest_language_errors (controller false) (env 1 READY)
                    (lsp_request (Some "file:///a/README") (Some "/a")) initial)
             "file:///a/README" H2 H3 H4).
Defined.

(** C6, as stated, fails: a request without a file is rejected with the
    generic [UnknownErrorCode], which is not [UnknownFileLanguage]. *)
Lemma handleRequest_without_file_is_UnknownErrorCode :
  fst (handleRequest (controller false) (env 1 READY) (lsp_request None (Some "/a")) initial) =
    Throw (ResponseError UnknownErrorCode "can't detect language without a file") ∧
  UnknownErrorCode ≠ UnknownFileLanguage.
Proof. split; [reflexivity|discriminate]. Qed.


(** C10. [status(lang)] returns a status exactly when
    [supportLanguage(lang)] is true. For a language with no record in the
    language server map it reads the [definition] of an absent record and
    throws a [TypeError]; it does not report [UnknownFileLanguage], which
    is what [dispatchRequest] does for the same language. *)
Theorem status_needs_supportLanguage C E st lang request :
  ((∃ s, status C E st lang = Ok s) ↔ supportLanguage C st lang = true) ∧
  (supportLanguage C st lang = false →
   status C E st lang =
   Throw (TypeError "Cannot read properties of undefined (reading 'definition')") ∧
   (truthy (Some lang) = true →
    dispatchRequest C E (Some lang) request st =
    (Throw (ResponseError UnknownFileLanguage ("unsupported language " +:+ lang)), st))).
Proof.
  unfold status, supportLanguage.
  destruct (languageServerMap_get C st lang) as [[i ls]|] eqn:Hget.
  - split; [|done]. split; [done|]. intros _. destruct (_ && _); eauto.
  - split.
    + split; [by intros [s Hs]|done].
    + intros _. split; [done|]. intros Ht.
      unfold dispatchRequest. rewrite Ht. simpl default.
      unfold bind, findLanguageServer. by rewrite Hget.
Qed.

Lemma status_needs_supportLanguage_witness :
  (supportLanguage (controller false) initial "ruby" = false ∧
   truthy (Some "ruby") = true) ∧
  status (controller false) (env 1 READY) initial "ruby" =
    Throw (TypeError "Cannot read properties of undefined (reading 'definition')") ∧
  dispatchRequest (controller false) (env 1 READY) (Some "ruby") (lsp_request None (Some "/a"))
    initial =
    (Throw (ResponseError UnknownFileLanguage ("unsupported language " +:+ "ruby")), initial).
Proof.
  assert (supportLanguage (controller false) initial "ruby" = false) as H1 by reflexivity.
  assert (truthy (Some "ruby") = true) as H2 by reflexivity.
  split; [exact (conj H1 H2)|].
  pose proof (proj2 (status_needs_supportLanguage (controller false) (env 1 READY) initial
                       "ruby" (lsp_request None (Some "/a"))) H1) as [Hs Hd].
  exact (conj Hs (Hd H2)).
Defined.

(** *** The same workspace twice *)

(** C8. Two consecutive [dispatchRequest] calls with the same workspace
    path do not always reach the same handler: with the pool full and
    [/link] a symbolic link, the first call evicts handler 0 and registers
    it under [/link]; the second call looks up [/real], misses, evicts
    handler 1 and registers it under [/link] in place of handler 0. The
    second call returns another handler and the handler map shrinks from
    two entries to one, though no handler is launched. *)
Theorem dispatchRequest_same_path_twice_at_capacity :
  let C := controller false in
  let r := lsp_request None (Some "/link") in
  let first := dispatchRequest C (env 3 READY) (Some "typescript") r full in
  let second := dispatchRequest C (env 4 READY) (Some "typescript") r (snd first) in
  pool 0 full = [("/a", 0); ("/b", 1)] ∧
  fst first = Ok 0 ∧
  pool 0 (snd first) = [("/b", 1); ("/link", 0)] ∧
  fst second = Ok 1 ∧
  pool 0 (snd second) = [("/link", 1)] ∧
  length (heap (snd second)) = length (heap full).
Proof. by vm_compute. Qed.

(** With a canonical workspace path and a launch that succeeds, the second
    of two consecutive calls finds the handler of the first. *)
Lemma dispatchRequest_same_path_twice_below_capacity :
  let C := controller false in
  let r := lsp_request None (Some "/a") in
  let first := dispatchRequest C (env 1 READY) (Some "typescript") r initial in
  let second := dispatchRequest C (env 2 READY) (Some "typescript") r (snd first) in
  fst first = Ok 0 ∧
  fst second = Ok 0 ∧
  pool 0 (snd second) = pool 0 (snd first) ∧
  heap (snd second) = [{| lastAccess := Some 2%Z |}].
Proof. by vm_compute. Qed.

End ControllerProofs.

(** ** Properties of the connection proxy *)

Module ProxyProofs.

Import Proxy Scenario.

Local Open Scope nat_scope.
Local Open Scope list_scope.

(** *** The reply table *)

Lemma wf_new : wf new.
Proof. split; intros *; simpl; by rewrite ?lookup_empty. Qed.

Lemma handleRequest_wf request st : wf st → wf (snd (handleRequest request st)).
Proof.
  intros [Hk Hinj]. unfold handleRequest, receiveRequest.
  destruct (isNotification request); simpl.
  - split; simpl.
    + intros k p Hkp. destruct (Hk k p Hkp) as [Hlt Hp]. split; [lia|].
      by apply lookup_app_l_Some.
    + done.
  - assert (∀ k p, replies st !! k = Some p → p ≠ length (promises st)) as Hfresh.
    { intros k p Hkp ->. destruct (Hk _ _ Hkp) as [_ Hp].
      apply lookup_lt_Some in Hp. lia. }
    assert (replies st !! sequenceNumber st = None) as Hnone.
    { destruct (replies st !! sequenceNumber st) as [p|] eqn:Hs; [|done].
      destruct (Hk _ _ Hs). lia. }
    split; simpl.
    + intros k p. rewrite lookup_insert. case_decide as Hd.
      * intros [= <-]. subst k. split; [lia|]. apply list_lookup_middle. done.
      * intros Hkp. destruct (Hk k p Hkp) as [Hlt Hp]. split; [lia|].
        by apply lookup_app_l_Some.
    + intros k1 k2 p. rewrite !lookup_insert.
      repeat case_decide; subst; intros H1 H2; simplify_eq; try done.
      * by destruct (Hfresh _ _ H2).
      * by destruct (Hfresh _ _ H1).
      * by eapply Hinj.
Qed.

Lemma write_wf response st : wf st → wf (write response st).
Proof.
  intros [Hk Hinj]. unfold write.
  destruct (replies st !! response_id response) as [p|] eqn:Hr; [|done].
  split; simpl.
  - intros k q. rewrite lookup_delete. case_decide as Hd; [done|].
    intros Hkq. destruct (Hk k q Hkq) as [Hlt Hq]. split; [done|].
    rewrite list_lookup_insert_ne; [done|].
    intros ->. apply Hd. by eapply Hinj.
  - intros k1 k2 q. rewrite !lookup_delete. repeat case_decide; try done. apply Hinj.
Qed.

Lemma step_wf s st : wf st → wf (step st s).
Proof. destruct s; simpl; [apply handleRequest_wf|apply write_wf]. Qed.

Lemma steps_wf ss : ∀ st, wf st → wf (steps ss st).
Proof.
  unfold steps. induction ss as [|s ss IH]; intros st Hwf; simpl; [done|].
  apply IH. by apply step_wf.
Qed.

Lemma step_sequenceNumber s st : (sequenceNumber st ≤ sequenceNumber (step st s))%N.
Proof.
  destruct s; simpl.
  - unfold handleRequest, receiveRequest. destruct (isNotification request); simpl; lia.
  - unfold write. destruct (_ !! _); simpl; lia.
Qed.

(** A number that was passed over without an entry never gets one. *)
Lemma never_added ss : ∀ st k,
  (k < sequenceNumber st)%N → replies st !! k = None →
  replies (steps ss st) !! k = None.
Proof.
  unfold steps. induction ss as [|s ss IH]; intros st k Hlt Hnone; simpl; [done|].
  apply IH.
  - pose proof (step_sequenceNumber s st). lia.
  - destruct s; simpl.
    + unfold handleRequest, receiveRequest. destruct (isNotification request); simpl; [done|].
      rewrite lookup_insert_ne; [done|lia].
    + unfold write. destruct (replies st !! response_id response); simpl; [|done].
      rewrite lookup_delete. by case_decide.
Qed.

(** An entry stays, and its promise stays pending, as long as no response
    carries its number. *)
Lemma pending_kept ss : ∀ st k p,
  wf st → replies st !! k = Some p →
  k ∉ map response_id (responses ss) →
  replies (steps ss st) !! k = Some p ∧ promises (steps ss st) !! p = Some Pending.
Proof.
  unfold steps. induction ss as [|s ss IH]; intros st k p Hwf Hkp Hnot; simpl.
  - split; [done|]. by apply Hwf in Hkp as [_ ?].
  - apply IH; [by apply step_wf| |].
    + destruct s; simpl.
      * unfold handleRequest, receiveRequest. destruct (isNotification request); simpl; [done|].
        rewrite lookup_insert_ne; [done|]. apply Hwf in Hkp as [? _]. lia.
      * unfold write. destruct (replies st !! response_id response) eqn:Hr; simpl; [|done].
        rewrite lookup_delete_ne; [done|]. intros Heq. apply Hnot.
        simpl. rewrite Heq. by left.
    + destruct s; simpl in *; [done|]. intros Hin. apply Hnot. by right.
Qed.

(** A promise that is not in the table is not touched any more. *)
Lemma settled_kept ss : ∀ st p,
  wf st → p < length (promises st) → (∀ k, replies st !! k ≠ Some p) →
  promises (steps ss st) !! p = promises st !! p.
Proof.
  unfold steps. induction ss as [|s ss IH]; intros st p Hwf Hlt Hout; simpl; [done|].
  rewrite IH.
  - destruct s; simpl.
    + unfold handleRequest, receiveRequest.
      destruct (isNotification request); simpl; by rewrite lookup_app_l.
    + unfold write. destruct (replies st !! response_id response) as [q|] eqn:Hr; simpl; [|done].
      rewrite list_lookup_insert_ne; [done|]. intros ->. by eapply Hout.
  - by apply step_wf.
  - destruct s; simpl.
    + unfold handleRequest, receiveRequest.
      destruct (isNotification request); simpl; rewrite length_app; simpl; lia.
    + unfold write. destruct (replies st !! response_id response); simpl; [|done].
      by rewrite length_insert.
  - intros k. destruct s; simpl.
    + unfold handleRequest, receiveRequest. destruct (isNotification request); simpl; [done|].
      rewrite lookup_insert. case_decide; [|done]. intros [= Hp]. lia.
    + unfold write. destruct (replies st !! response_id response); simpl; [|done].
      rewrite lookup_delete. by case_decide.
Qed.

(** The response that carries the number of a registered request settles
    the promise of that request, wherever it stands among the steps. *)
Lemma matched ss : ∀ st k p response,
  wf st → replies st !! k = Some p →
  NoDup (map response_id (responses ss)) →
  Response response ∈ ss → response_id response = k →
  promises (steps ss st) !! p = Some (settle response).
Proof.
  intros st k p response Hwf Hkp Hnd Hin Hid.
  apply list_elem_of_split in Hin as (ss1 & ss2 & ->).
  unfold responses in Hnd. rewrite omap_app in Hnd. simpl in Hnd.
  rewrite map_app in Hnd. simpl in Hnd.
  apply NoDup_app in Hnd as (_ & Hdisj & Hnd2).
  apply NoDup_cons in Hnd2 as [Hnot2 _].
  assert (k ∉ map response_id (responses ss1)) as Hnot1.
  { intros Hk. apply (Hdisj _ Hk). rewrite Hid. by left. }
  unfold steps. rewrite fold_left_app. simpl. fold (steps ss1 st).
  destruct (pending_kept ss1 st k p Hwf Hkp Hnot1) as [Hk1 Hp1].
  pose proof (steps_wf ss1 st Hwf) as Hwf1.
  set (st1 := steps ss1 st) in *.
  assert (wf (write response st1)) as Hwf2 by by apply write_wf.
  fold (steps ss2 (write response st1)).
  rewrite settled_kept; [| done | |].
  - unfold write. rewrite Hid, Hk1. simpl.
    apply list_lookup_insert_eq. by apply lookup_lt_Some in Hp1.
  - unfold write. rewrite Hid, Hk1. simpl. rewrite length_insert.
    by apply lookup_lt_Some in Hp1.
  - intros k'. unfold write. rewrite Hid, Hk1. simpl.
    rewrite lookup_delete. case_decide; [done|].
    intros Hk'. destruct Hwf1 as [_ Hinj]. by specialize (Hinj _ _ _ Hk1 Hk').
Qed.

Lemma handleRequests_steps requests : ∀ st,
  snd (handleRequests requests st) = steps (map Request requests) st.
Proof.
  induction requests as [|r rs IH]; intros st; [done|].
  cbn [handleRequests map].
  destruct (handleRequest r st) as [p st1] eqn:H1. specialize (IH st1).
  destruct (handleRequests rs st1) as [ps st2]. cbn [snd] in *.
  unfold steps in *. cbn [fold_left step]. by rewrite H1.
Qed.

Lemma responses_requests requests : responses (map Request requests) = [].
Proof. induction requests; simpl; done. Qed.

Lemma handleRequest_emitted request st :
  emitted (trace (snd (handleRequest request st))) =
  emitted (trace st) ++
  [{| jsonrpc := "2.0"; id := sequenceNumber st;
      message_method := method request; message_params := params request |}].
Proof.
  unfold handleRequest, receiveRequest, emitted.
  destruct (isNotification request); simpl; by rewrite omap_app.
Qed.

Lemma handleRequest_sequenceNumber request st :
  sequenceNumber (snd (handleRequest request st)) = (sequenceNumber st + 1)%N.
Proof. unfold handleRequest, receiveRequest. by destruct (isNotification request). Qed.

Lemma handleRequests_cons r rs st :
  handleRequests (r :: rs) st =
  (fst (handleRequest r st) :: fst (handleRequests rs (snd (handleRequest r st))),
   snd (handleRequests rs (snd (handleRequest r st)))).
Proof.
  cbn [handleRequests]. destruct (handleRequest r st) as [p st1]. cbn [fst snd].
  by destruct (handleRequests rs st1).
Qed.

Lemma handleRequests_ids requests : ∀ st,
  map id (emitted (trace (snd (handleRequests requests st)))) =
  map id (emitted (trace st)) ++
  map (λ j, (sequenceNumber st + N.of_nat j)%N) (seq 0 (length requests)).
Proof.
  induction requests as [|r rs IH]; intros st.
  - simpl. by rewrite app_nil_r.
  - rewrite handleRequests_cons. cbn [snd length seq map].
    rewrite IH, handleRequest_emitted, handleRequest_sequenceNumber, map_app, <- app_assoc.
    simpl. f_equal. f_equal.
    + f_equal. lia.
    + rewrite <- seq_shift, map_map. apply map_ext. intros j. lia.
Qed.

Lemma handleRequests_registered requests : ∀ st k request p,
  wf st →
  requests !! k = Some request → isNotification request = false →
  fst (handleRequests requests st) !! k = Some p →
  replies (snd (handleRequests requests st)) !! (sequenceNumber st + N.of_nat k)%N = Some p.
Proof.
  induction requests as [|r rs IH]; intros st k request p Hwf Hk Hn Hp; [done|].
  rewrite handleRequests_cons in *. cbn [fst snd] in *.
  pose proof (handleRequest_wf r st Hwf) as Hwf1.
  destruct k as [|k]; simpl in Hk, Hp.
  - injection Hk as ->. injection Hp as <-.
    rewrite handleRequests_steps.
    apply pending_kept; [done| |rewrite responses_requests; apply not_elem_of_nil].
    unfold handleRequest, receiveRequest. rewrite Hn. simpl.
    rewrite N.add_0_r. apply lookup_insert_eq.
  - specialize (IH _ k request p Hwf1 Hk Hn Hp).
    rewrite handleRequest_sequenceNumber in IH.
    by replace (sequenceNumber st + N.of_nat (S k))%N
      with (sequenceNumber st + 1 + N.of_nat k)%N by lia.
Qed.

(** C4. Every [handleRequest] / [receiveRequest] call takes the current
    value of the counter of the proxy as the id of its message and
    increments the counter, so that the calls on a new proxy are numbered
    0, 1, 2, ... in call order. A call that expects a response first
    registers the continuation of its promise in the reply table under
    exactly that id and then emits the message, and no later call
    overwrites the entry. Hence, whatever the order in which the responses
    arrive, among themselves and among later requests, the response that
    carries the id of a request settles the promise that this request
    returned. *)
Theorem sequence_numbers_key_the_reply_table :
  (∀ request st,
     let message := {| jsonrpc := "2.0"; id := sequenceNumber st;
                       message_method := method request;
                       message_params := params request |} in
     let p := fst (handleRequest request st) in
     let st' := snd (handleRequest request st) in
     sequenceNumber st' = (sequenceNumber st + 1)%N ∧
     emitted (trace st') = emitted (trace st) ++ [message] ∧
     (isNotification request = false →
      trace st' = trace st ++ [RepliesSet (sequenceNumber st) p; HttpEmit message] ∧
      replies st' = <[sequenceNumber st := p]> (replies st))) ∧
  (∀ requests,
     map id (emitted (trace (snd (handleRequests requests new)))) =
     map N.of_nat (seq 0 (length requests))) ∧
  (∀ requests k request p,
     requests !! k = Some request →
     isNotification request = false →
     fst (handleRequests requests new) !! k = Some p →
     replies (snd (handleRequests requests new)) !! N.of_nat k = Some p) ∧
  (∀ requests ss k request p response,
     requests !! k = Some request →
     isNotification request = false →
     fst (handleRequests requests new) !! k = Some p →
     NoDup (map response_id (responses ss)) →
     Response response ∈ ss →
     response_id response = N.of_nat k →
     promises (steps ss (snd (handleRequests requests new))) !! p = Some (settle response)).
Proof.
  split_and!.
  - intros request st message p st'. subst message p st'. split_and!.
    + apply handleRequest_sequenceNumber.
    + apply handleRequest_emitted.
    + intros Hn. unfold handleRequest, receiveRequest. by rewrite Hn.
  - intros requests. rewrite handleRequests_ids. simpl. apply map_ext. intros j. lia.
  - intros requests k request p Hk Hn Hp.
    by apply (handleRequests_registered requests new k request p wf_new).
  - intros requests ss k request p response Hk Hn Hp Hnd Hin Hid.
    apply (matched ss _ (N.of_nat k) p response); [| |done|done|done].
    + rewrite handleRequests_steps. apply steps_wf, wf_new.
    + by apply (handleRequests_registered requests new k request p wf_new).
Qed.

Lemma sequence_numbers_key_the_reply_table_witness :
  ([hover; didOpen; hover] !! 2 = Some hover ∧
   isNotification hover = false ∧
   fst (handleRequests [hover; didOpen; hover] new) !! 2 = Some 2 ∧
   NoDup (map response_id (responses [Response (answer 2); Response (answer 0)])) ∧
   Response (answer 2) ∈ [Response (answer 2); Response (answer 0)] ∧
   response_id (answer 2) = N.of_nat 2) ∧
  promises (steps [Response (answer 2); Response (answer 0)]
              (snd (handleRequests [hover; didOpen; hover] new))) !! 2 =
  Some (settle (answer 2)).
Proof.
  assert ([hover; didOpen; hover] !! 2 = Some hover) as H1 by reflexivity.
  assert (isNotification hover = false) as H2 by reflexivity.
  assert (fst (handleRequests [hover; didOpen; hover] new) !! 2 = Some 2) as H3
    by reflexivity.
  assert (NoDup (map response_id (responses [Response (answer 2); Response (answer 0)])))
    as H4.
  { simpl. apply NoDup_cons. split; [|apply NoDup_singleton].
    intros Hin. apply list_elem_of_singleton in Hin. discriminate. }
  assert (Response (answer 2) ∈ [Response (answer 2); Response (answer 0)]) as H5
    by apply list_elem_of_here.
  assert (response_id (answer 2) = N.of_nat 2) as H6 by reflexivity.
  split; [exact (conj H1 (conj H2 (conj H3 (conj H4 (conj H5 H6)))))|].
  exact (proj2 (proj2 (proj2 sequence_numbers_key_the_reply_table))
           [hover; didOpen; hover] [Response (answer 2); Response (answer 0)] 2 hover 2
           (answer 2) H1 H2 H3 H4 H5 H6).
Defined.

(** C7. On a proxy reached from a new one by any requests and responses, a
    [receiveRequest] call with [isNotification = true] returns a promise
    that is already resolved, before any response of the backend, and
    leaves the reply table as it is; no entry for the id of that message
    is added later either. With [isNotification = false] an entry for the
    id is added and the promise is pending; both stay so as long as no
    response carries that id, and the response that does settles the
    promise, resolved with the response or rejected with its error. *)
Theorem notification_resolves_at_once before request :
  let st := steps before new in
  let k := sequenceNumber st in
  let p := fst (handleRequest request st) in
  let st' := snd (handleRequest request st) in
  (isNotification request = true →
   promises st' !! p = Some (Resolved None) ∧
   replies st' = replies st ∧
   ∀ later, replies (steps later st') !! k = None) ∧
  (isNotification request = false →
   replies st' !! k = Some p ∧
   promises st' !! p = Some Pending ∧
   (∀ later, k ∉ map response_id (responses later) →
             replies (steps later st') !! k = Some p ∧
             promises (steps later st') !! p = Some Pending) ∧
   (∀ response, response_id response = k →
                promises (write response st') !! p = Some (settle response))).
Proof.
  intros st k p st'.
  assert (wf st) as Hwf by apply steps_wf, wf_new.
  assert (wf st') as Hwf' by by apply handleRequest_wf.
  assert (replies st !! k = None) as Hfree.
  { destruct (replies st !! k) as [q|] eqn:Hq; [|done].
    destruct Hwf as [Hk _]. destruct (Hk _ _ Hq). lia. }
  subst p st'. unfold handleRequest, receiveRequest in *. subst k.
  split; intros Hn; rewrite Hn in *; cbn [fst snd id] in *.
  - split_and!.
    + by apply list_lookup_middle.
    + done.
    + intros later. apply never_added; simpl; [lia|done].
  - assert (∀ q : PromiseRef,
              <[sequenceNumber st:=q]> (replies st) !! sequenceNumber st = Some q) as Hk
      by (intros q; apply lookup_insert_eq).
    split_and!.
    + apply Hk.
    + by apply list_lookup_middle.
    + intros later Hnot. apply pending_kept; [done|apply Hk|done].
    + intros response Hid. unfold write. cbn [replies]. rewrite Hid, Hk. cbn [promises].
      apply list_lookup_insert_eq. rewrite length_app. simpl. lia.
Qed.

Lemma notification_resolves_at_once_witness :
  (isNotification didOpen = true ∧ isNotification hover = false ∧
   1%N ∉ map response_id (responses [Request didOpen; Response (answer 0)])) ∧
  (promises (snd (handleRequest didOpen (steps [Request hover] new))) !! 1 =
     Some (Resolved None) ∧
   replies (snd (handleRequest didOpen (steps [Request hover] new))) =
     replies (steps [Request hover] new) ∧
   ∀ later,
     replies (steps later (snd (handleRequest didOpen (steps [Request hover] new)))) !! 1%N =
     None) ∧
  (replies (steps [Request didOpen; Response (answer 0)]
              (snd (handleRequest hover (steps [Request hover] new)))) !! 1%N = Some 1 ∧
   promises (steps [Request didOpen; Response (answer 0)]
               (snd (handleRequest hover (steps [Request hover] new)))) !! 1 =
     Some Pending).
Proof.
  assert (isNotification didOpen = true) as H1 by reflexivity.
  assert (isNotification hover = false) as H2 by reflexivity.
  assert (1%N ∉ map response_id (responses [Request didOpen; Response (answer 0)])) as H3.
  { simpl. intros Hin. apply list_elem_of_singleton in Hin. discriminate. }
  split; [exact (conj H1 (conj H2 H3))|]. split.
  - exact (proj1 (notification_resolves_at_once [Request hover] didOpen) H1).
  - exact (proj1 (proj2 (proj2 (proj2 (notification_resolves_at_once [Request hover] hover)
                                  H2)))
             [Request didOpen; Response (answer 0)] H3).
Defined.

(** *** Shutdown *)

(** C9, as amended. [exit()] sends a [shutdown] request followed by an
    [exit] notification to the backend only if the proxy holds a client
    connection; a proxy without one sends neither and does not fail. Once
    the [shutdown] request has been answered, or at once when there is no
    connection, it marks the proxy closed and emits the [exit] signal. A
    later [connect()] is not refused: without a client connection it
    clears the closed mark and dials again, with one it returns that
    connection. *)
Theorem exit_marks_closed_and_connect_reopens st :
  (clientConnection st = None →
   ∀ shutdownFailure,
     exit shutdownFailure st = (Ok tt, log [Emit "exit"] (set_closed true st))) ∧
  (∀ c, clientConnection st = Some c →
        exit None st =
        (Ok tt,
         log [Emit "exit"]
           (set_closed true
              (log [SendRequest c "shutdown"; SendNotification c "exit"; ConnDispose] st)))) ∧
  (∀ shutdownFailure st',
     exit shutdownFailure st = (Ok tt, st') →
     isClosed st' = true ∧
     (∃ sent, trace st' = trace st ++ sent ++ [Emit "exit"]) ∧
     (clientConnection st = None →
      isClosed (snd (connect st')) = false ∧
      ∃ tr, trace (snd (connect st')) = tr ++ [SocketConnect]) ∧
     (∀ c, clientConnection st = Some c → connect st' = (Connected c, st'))).
Proof.
  split_and!.
  - intros Hc sf. unfold exit, bind, get, modify, ret. by rewrite Hc.
  - intros c Hc. unfold exit, bind, get, modify, ret. rewrite Hc. simpl.
    unfold log, set_closed. simpl. by rewrite <- !app_assoc.
  - intros sf st' Hexit. unfold exit, bind, get, modify, ret in Hexit.
    destruct (clientConnection st) as [c|] eqn:Hc; simpl in Hexit.
    + destruct sf as [e|]; simpl in Hexit; [discriminate|].
      injection Hexit as <-. split_and!.
      * done.
      * exists [SendRequest c "shutdown"; SendNotification c "exit"; ConnDispose].
        simpl. by rewrite <- !app_assoc.
      * done.
      * intros c' [= <-]. unfold connect. simpl. by rewrite Hc.
    + injection Hexit as <-. split_and!.
      * done.
      * by exists [].
      * intros _. unfold connect. simpl. rewrite Hc.
        destruct (connectingPromise st) as [pr|]; simpl.
        -- split; [done|]. by exists (trace st ++ [Emit "exit"]).
        -- split; [done|]. exists (trace st ++ [Emit "exit"; NewSocket]).
           by rewrite <- !app_assoc.
      * done.
Qed.

Lemma exit_marks_closed_and_connect_reopens_witness :
  (clientConnection new = None ∧ clientConnection connected = Some 0) ∧
  exit None new = (Ok tt, log [Emit "exit"] (set_closed true new)) ∧
  exit None connected =
    (Ok tt,
     log [Emit "exit"]
       (set_closed true
          (log [SendRequest 0 "shutdown"; SendNotification 0 "exit"; ConnDispose]
             connected))).
Proof.
  assert (clientConnection new = None) as H1 by reflexivity.
  assert (clientConnection connected = Some 0) as H2 by reflexivity.
  split; [exact (conj H1 H2)|]. split.
  - exact (proj1 (exit_marks_closed_and_connect_reopens new) H1 None).
  - exact (proj1 (proj2 (exit_marks_closed_and_connect_reopens connected)) 0 H2).
Defined.

(** C9, as stated, fails twice. After [exit()] on a proxy that never
    connected, [connect()] clears the closed mark and dials, and when the
    socket connects the proxy holds a client connection again. And when
    the [shutdown] request is rejected, [exit()] fails before the proxy is
    marked closed and before the [exit] signal is emitted. *)
Lemma connect_after_exit_reconnects :
  (fst (exit None new) = Ok tt ∧
   isClosed (snd (exit None new)) = true ∧
   isClosed (snd (connect (snd (exit None new)))) = false ∧
   clientConnection (on_socket_connect (snd (connect (snd (exit None new))))) = Some 0) ∧
  (exit (Some (Error "connection closed")) connected =
     (Throw (Error "connection closed"), log [SendRequest 0 "shutdown"] connected) ∧
   isClosed (log [SendRequest 0 "shutdown"] connected) = false ∧
   Emit "exit" ∉ trace (log [SendRequest 0 "shutdown"] connected)).
Proof.
  split; [by vm_compute|]. split_and!; [reflexivity|reflexivity|].
  simpl. intros Hin. repeat (apply elem_of_cons in Hin as [Hin|Hin]; [discriminate|]).
  by apply elem_of_nil in Hin.
Qed.

End ProxyProofs.

(** ** The life cycle of the controller and its handlers *)

Module LifecycleProofs.

Import Controller Scenario Deployment ControllerProofs.

Local Open Scope nat_scope.
Local Open Scope list_scope.

(** *** Time stamps *)

Lemma lastAccess_of_app hp x h : h < length hp → lastAccess_of (hp ++ [x]) h = lastAccess_of hp h.
Proof. intros Hlt. unfold lastAccess_of. by rewrite lookup_app_l. Qed.

Lemma lastAccess_of_alter_ne hp f h h' :
  h ≠ h' → lastAccess_of (alter f h hp) h' = lastAccess_of hp h'.
Proof. intros Hne. unfold lastAccess_of. by rewrite list_lookup_alter_ne. Qed.

Lemma lastAccess_of_beyond hp h : length hp ≤ h → lastAccess_of hp h = None.
Proof. intros Hle. unfold lastAccess_of. by rewrite lookup_ge_None_2. Qed.

Lemma pool_same st st' :
  languageServers st' = languageServers st → ∀ j, pool j st' = pool j st.
Proof. intros Hs j. unfold pool. by rewrite Hs. Qed.

Lemma handled_Ok E h request handler : handled E h request = Ok handler → h = handler.
Proof. unfold handled. destruct (handleRequestFailure E h request); by intros [= <-]. Qed.

(** X1. A call of [dispatchRequest] either reaches no handler or forwards
    the request to exactly one. In the first case it fails, and it has
    launched no handler, called no handler and changed no handler object
    and no entry of a handler map. In the second case the call of the
    handler is its last action, after at most one launch, which allocates
    that handler; the call of the controller then ends as the call of the
    handler ends, with its answer or with its rejection, and the handler
    that was launched is kept in either case. *)
Theorem dispatchRequest_forwards_once C E lang request st :
  match dispatchRequest C E lang request st with
  | (r, st') =>
      (∃ e, r = Throw e ∧
            trace st' = trace st ∧ heap st' = heap st ∧ ∀ j, pool j st' = pool j st) ∨
      (∃ handler launched,
          r = handled E handler request ∧
          trace st' = trace st ++ launched ++ [HandleRequest handler request] ∧
          length (heap st') = length (heap st) + length launched ∧
          (launched = [] ∨
           ∃ d b mx p, launched = [Launch d b mx p handler] ∧ handler = length (heap st)))
  end.
Proof.
  destruct (truthy lang) eqn:Ht;
    [|rewrite dispatchRequest_falsy by done; left; by eexists].
  destruct (findLanguageServer_cases C E (default "" lang) st)
    as [(i & ls & Hget & Hc & Hf)|[e Hf]];
    [|rewrite (dispatchRequest_unresolved _ _ _ _ _ _ Ht Hf); left; by eexists].
  pose proof (languageServerMap_get_lookup _ _ _ _ _ Hget) as Hls.
  destruct (builtinWorkspaceFolders ls) eqn:Hb.
  - destruct (launcherRunning E (definition ls)) eqn:Hrun.
    + rewrite (dispatchRequest_builtin_running _ _ _ _ _ _ _ Ht Hf Hls Hb Hrun).
      destruct (languageServerHandlers ls) as [|h|m];
        [left; by eexists| |left; by eexists].
      right. exists h, []. simpl. split_and!; [done|done|lia|by left].
    + destruct (launchFailure E (definition ls)) as [e|] eqn:Hfail.
      * rewrite (dispatchRequest_builtin_launch_fails _ _ _ _ _ _ _ _ Ht Hf Hls Hb Hrun Hfail).
        left. by eexists.
      * rewrite (dispatchRequest_builtin_launch _ _ _ _ _ _ _ Ht Hf Hls Hb Hrun Hfail).
        right. eexists _, [_]. simpl.
        split_and!; [done|done|by rewrite length_app|right; by eexists _, _, _, _].
  - rewrite (dispatchRequest_pooled _ _ _ _ _ _ _ Ht Hf Hls Hb). unfold bind at 1.
    destruct (languageServerHandlers ls) as [|h|m] eqn:Hh.
    2: { rewrite (findOrCreateHandler_single _ _ _ _ _ _ Hls Hh). left. by eexists. }
    all: destruct (findOrCreateHandler_result E i request st ls Hls)
        as (st0 & ls0 & Hheap & Htrace & Hpool & _ & _ & Hls0 & _ & Hout);
      [by rewrite Hh|];
      destruct (findOrCreateHandler E i request st) as [r st1];
      inversion Hout as [e|wp realPath h' Hwp Hreal Hhit
                         |wp realPath Hwp Hreal Hmiss Hlt
                         |wp realPath ow oh Hwp Hreal Hmiss Hge Hin]; subst r st1.
    1,5: left; by eexists.
    all: right; unfold bind, assign_lastAccess, modify, forward, ret; simpl.
    all: rewrite ?Htrace, ?Hheap, ?length_alter.
    1,4: eexists _, []; simpl; split_and!; [done|done|lia|by left].
    1,3: eexists _, [_]; simpl; rewrite <- app_assoc, length_app; simpl;
         split_and!; [done|done|done|right; by eexists _, _, _, _].
    all: eexists _, []; simpl; split_and!; [done|done|lia|by left].
Qed.

(** X2. A call of [dispatchRequest] that returns changes the [lastAccess]
    of no handler but the one it returns. For a server with one backend
    per workspace that handler gets [Date.now()]; for a server with
    builtin workspace folders its [lastAccess] is left as it was. *)
Theorem dispatchRequest_stamps_lastAccess C E lang request st i ls handler :
  pools_accessed st →
  truthy (Some lang) = true →
  languageServerMap_get C st lang = Some (i, ls) →
  fst (dispatchRequest C E (Some lang) request st) = Ok handler →
  let heap' := heap (snd (dispatchRequest C E (Some lang) request st)) in
  (∀ h, h ≠ handler → lastAccess_of heap' h = lastAccess_of (heap st) h) ∧
  (builtinWorkspaceFolders ls = false → lastAccess_of heap' handler = Some (now E)) ∧
  (builtinWorkspaceFolders ls = true →
   lastAccess_of heap' handler = lastAccess_of (heap st) handler).
Proof.
  intros Hacc Ht Hget. pose proof (languageServerMap_get_lookup _ _ _ _ _ Hget) as Hls.
  destruct (findLanguageServer_cases C E lang st)
    as [(i' & ls' & Hget' & Hc & Hf)|[e Hf]].
  2: { rewrite (dispatchRequest_unresolved _ _ (Some lang) _ _ _ Ht Hf). done. }
  rewrite Hget in Hget'. injection Hget' as <- <-.
  destruct (builtinWorkspaceFolders ls) eqn:Hb.
  - destruct (launcherRunning E (definition ls)) eqn:Hrun.
    + rewrite (dispatchRequest_builtin_running _ _ (Some lang) _ _ _ _ Ht Hf Hls Hb Hrun).
      destruct (languageServerHandlers ls); [done| |done]. simpl. by intros <-%handled_Ok.
    + destruct (launchFailure E (definition ls)) as [e|] eqn:Hfail.
      * by rewrite (dispatchRequest_builtin_launch_fails _ _ (Some lang) _ _ _ _ _
                      Ht Hf Hls Hb Hrun Hfail).
      * rewrite (dispatchRequest_builtin_launch _ _ (Some lang) _ _ _ _
                   Ht Hf Hls Hb Hrun Hfail). simpl. intros <-%handled_Ok. split_and!.
        -- intros h Hh. unfold lastAccess_of.
           destruct (decide (h < length (heap st))) as [Hlt|Hge].
           ++ by rewrite lookup_app_l.
           ++ rewrite !lookup_ge_None_2; [done|lia|rewrite length_app; simpl; lia].
        -- done.
        -- intros _. unfold lastAccess_of.
           rewrite list_lookup_middle by done. by rewrite lookup_ge_None_2.
  - rewrite (dispatchRequest_pooled _ _ (Some lang) _ _ _ _ Ht Hf Hls Hb). unfold bind.
    destruct (languageServerHandlers ls) as [|h|m] eqn:Hh.
    2: { by rewrite (findOrCreateHandler_single _ _ _ _ _ _ Hls Hh). }
    all: pose proof (findOrCreateHandler_accessed E i request st Hacc) as Hbut;
      destruct (findOrCreateHandler_result E i request st ls Hls)
        as (st0 & ls0 & Hheap & Htrace & Hpool & _ & _ & Hls0 & _ & Hout);
      [by rewrite Hh|];
      destruct (findOrCreateHandler E i request st) as [r st1];
      inversion Hout as [e|wp realPath h' Hwp Hreal Hhit
                         |wp realPath Hwp Hreal Hmiss Hlt
                         |wp realPath ow oh Hwp Hreal Hmiss Hge Hin]; subst r st1.
    all: try done.
    all: destruct Hbut as [Hlt' _].
    all: match goal with |- context [assign_lastAccess _ _ ?s] => set (st1' := s) in * end.
    all: unfold bind, assign_lastAccess, modify, forward, ret; simpl; intros <-%handled_Ok.
    all: match goal with
         | |- (∀ h, h ≠ ?x → _) ∧ _ =>
             assert (x < length (heap st1')) as Hlt''
               by (subst st1'; simpl in *; rewrite ?length_app in *; simpl in *; lia)
         end.
    all: split_and!; [|intros _; by apply lastAccess_of_assign|done].
    all: intros h0 Hne; rewrite lastAccess_of_alter_ne by done; subst st1'; simpl;
      pose proof (f_equal length Hheap) as Hlen; rewrite ?Hheap; try done.
    all: destruct (decide (h0 < length (heap st))) as [Hlt0|Hge0];
      [by rewrite lastAccess_of_app
      |rewrite !lastAccess_of_beyond; [done|lia|rewrite length_app; simpl; lia]].
Qed.

Lemma dispatchRequest_stamps_lastAccess_witness :
  pools_accessed full ∧
  languageServerMap_get (controller false) full "typescript" = Some (0, full_typescript) ∧
  lastAccess_of (heap full) 0 = Some 1%Z ∧
  lastAccess_of
    (heap (snd (dispatchRequest (controller false) (env 3 READY) (Some "typescript")
                  (lsp_request None (Some "/a")) full))) 0 = Some 3%Z.
Proof.
  assert (pools_accessed full) as H1.
  { apply (reachable_pools_accessed false [typescript; java] 2 opened).
    repeat constructor. }
  assert (languageServerMap_get (controller false) full "typescript"
          = Some (0, full_typescript)) as H2 by (by vm_compute).
  assert (fst (dispatchRequest (controller false) (env 3 READY) (Some "typescript")
                 (lsp_request None (Some "/a")) full) = Ok 0) as H3 by (by vm_compute).
  split; [exact H1|]. split; [exact H2|]. split; [by vm_compute|].
  exact (proj1 (proj2 (dispatchRequest_stamps_lastAccess (controller false) (env 3 READY)
                         "typescript" (lsp_request None (Some "/a")) full 0
                         full_typescript 0 H1 eq_refl H2 H3)) eq_refl).
Defined.

(** *** The shape of [languageServerHandlers] *)

Lemma shape_same st st' :
  languageServers st' = languageServers st → well_shaped_state st → well_shaped_state st'.
Proof. unfold well_shaped_state. by intros ->. Qed.

Lemma shape_assign st i hs :
  (∀ ls, languageServers st !! i = Some ls → well_shaped (with_handlers hs ls)) →
  well_shaped_state st →
  well_shaped_state (set_languageServers (alter (with_handlers hs) i) st).
Proof. intros Hf Hs. unfold well_shaped_state. simpl. apply Forall_alter; auto. Qed.

Lemma dispatchRequest_shape C E lang request :
  preserves well_shaped_state (dispatchRequest C E lang request).
Proof.
  intros st Hs.
  destruct (truthy lang) eqn:Ht; [|by rewrite dispatchRequest_falsy].
  destruct (findLanguageServer_cases C E (default "" lang) st)
    as [(i & ls & Hget & Hc & Hf)|[e Hf]];
    [|by rewrite (dispatchRequest_unresolved _ _ _ _ _ _ Ht Hf)].
  pose proof (languageServerMap_get_lookup _ _ _ _ _ Hget) as Hls.
  destruct (builtinWorkspaceFolders ls) eqn:Hb.
  - destruct (launcherRunning E (definition ls)) eqn:Hrun.
    + rewrite (dispatchRequest_builtin_running _ _ _ _ _ _ _ Ht Hf Hls Hb Hrun).
      by destruct (languageServerHandlers ls).
    + destruct (launchFailure E (definition ls)) as [e|] eqn:Hfail.
      * by rewrite (dispatchRequest_builtin_launch_fails _ _ _ _ _ _ _ _ Ht Hf Hls Hb Hrun Hfail).
      * rewrite (dispatchRequest_builtin_launch _ _ _ _ _ _ _ Ht Hf Hls Hb Hrun Hfail).
        unfold well_shaped_state. simpl. apply Forall_alter; [done|].
        intros x Hx _. rewrite Hls in Hx. injection Hx as <-. done.
  - rewrite (dispatchRequest_pooled _ _ _ _ _ _ _ Ht Hf Hls Hb). unfold bind at 1.
    pose proof (Forall_lookup_1 _ _ _ _ Hs Hls) as Hshape.
    destruct (languageServerHandlers ls) as [|h|m] eqn:Hh.
    2: { by rewrite (findOrCreateHandler_single _ _ _ _ _ _ Hls Hh). }
    all: destruct (findOrCreateHandler_result E i request st ls Hls)
        as (st0 & ls0 & Hheap & Htrace & Hpool & Hlen & Hother & Hls0 & Heq0 & Hout);
      [by rewrite Hh|].
    all: assert (well_shaped_state st0) as Hs0;
      [unfold well_shaped_state; apply Forall_lookup_2; intros j x Hx;
       destruct (decide (j = i)) as [Hji|Hne];
       [subst j; rewrite Hls0 in Hx; injection Hx as <-; by subst ls0
       |rewrite (Hother j Hne) in Hx; by eapply (Forall_lookup_1 _ _ _ _ Hs)]|].
    all: assert (builtinWorkspaceFolders ls0 = false) as Hb0 by by subst ls0.
    all: destruct (findOrCreateHandler E i request st) as [r st1];
      inversion Hout as [e|wp realPath h' Hwp Hreal Hhit
                         |wp realPath Hwp Hreal Hmiss Hlt
                         |wp realPath ow oh Hwp Hreal Hmiss Hge Hin]; subst r st1.
    all: try done.
    all: unfold bind, assign_lastAccess, modify, forward, ret; simpl.
    all: try (eapply shape_same; [|exact Hs0]; done).
    all: unfold well_shaped_state; simpl; apply Forall_alter; [done|];
      intros x Hx _; rewrite Hls0 in Hx; injection Hx as <-; done.
Qed.

Lemma handleRequest_shape C E request :
  preserves well_shaped_state (handleRequest C E request).
Proof.
  unfold handleRequest. destruct (truthy _); [|apply preserves_throw].
  apply dispatchRequest_shape.
Qed.

Lemma emits_shape e : preserves well_shaped_state (modify (emit e)).
Proof. apply modify_preserves. intros st. by apply shape_same. Qed.

Lemma handler_exit_shape E h : preserves well_shaped_state (handler_exit E h).
Proof.
  unfold handler_exit. apply preserves_bind; [apply emits_shape|].
  intros _. destruct (exitFailure E h); [apply preserves_throw|apply preserves_ret].
Qed.

Lemma exit_shape E : preserves well_shaped_state (exit E).
Proof.
  unfold exit. apply preserves_each. intros i.
  apply preserves_bind; [apply deref_preserves|]. intros ls.
  destruct (languageServerHandlers ls) as [|h|m]; [apply preserves_ret| |];
    destruct (builtinWorkspaceFolders ls);
    try apply preserves_throw; [apply handler_exit_shape|].
  apply preserves_for_of. intros h. apply handler_exit_shape.
Qed.

Lemma launchServers_shape E : preserves well_shaped_state (launchServers E).
Proof.
  unfold launchServers. apply preserves_each. intros i st Hs.
  unfold deref, bind. destruct (languageServers st !! i) as [ls|] eqn:Hls; [|done].
  destruct (status_eqb _ READY); simpl; [|done].
  destruct (builtinWorkspaceFolders ls) eqn:Hb; [|done].
  unfold try_catch, bind, launch.
  destruct (launchFailure E (definition ls)); simpl.
  - by eapply shape_same.
  - apply shape_assign; [|by eapply shape_same].
    simpl. intros x Hx. rewrite Hls in Hx. by injection Hx as <-.
Qed.

Lemma unloadWorkspace_shape E workspaceDir :
  preserves well_shaped_state (unloadWorkspace E workspaceDir).
Proof.
  unfold unloadWorkspace. apply preserves_each. intros i st Hs.
  unfold deref, bind.
  destruct (languageServers st !! i) as [ls|] eqn:Hls; [|done].
  destruct (languageServerHandlers ls) as [|h|m] eqn:Hh; [done| |];
    destruct (builtinWorkspaceFolders ls) eqn:Hb; try done.
  - unfold handler_unloadWorkspace, bind, modify. simpl.
    destruct (unloadFailure E h); simpl; by eapply shape_same.
  - destruct (realpathSync E workspaceDir) as [realPath|]; [|done].
    destruct (handlers_get realPath m) as [handler|]; [|done].
    unfold handler_unloadWorkspace, bind, modify. simpl.
    destruct (unloadFailure E handler); simpl; [by eapply shape_same|].
    apply shape_assign; [|by eapply shape_same].
    simpl. intros x Hx. rewrite Hls in Hx. by injection Hx as <-.
Qed.

Lemma after_shape C c st : public c → well_shaped_state st → well_shaped_state (after C c st).
Proof.
  destruct c; simpl; intros Hpub; [| |done| | |].
  - apply handleRequest_shape.
  - apply dispatchRequest_shape.
  - apply unloadWorkspace_shape.
  - apply launchServers_shape.
  - apply exit_shape.
Qed.

Lemma new_shape d defs mx : well_shaped_state (snd (new d defs mx)).
Proof.
  unfold well_shaped_state, new, new_languageServers. simpl.
  apply Forall_map, Forall_forall. by intros def _.
Qed.

Lemma reachable_shape d defs mx calls :
  Forall public calls →
  well_shaped_state (after_all (fst (new d defs mx)) calls (snd (new d defs mx))).
Proof.
  intros Hpub. generalize (new_shape d defs mx).
  generalize (snd (new d defs mx)) as st. unfold after_all.
  induction Hpub as [|c calls Hc _ IH]; intros st Hs; simpl; [done|].
  apply IH. by apply after_shape.
Qed.

(** X3. In every state that the public methods of a controller reach from
    its constructor, a record in builtin mode holds no handler map and a
    record that is not in builtin mode holds no single handler: the casts
    of [languageServerHandlers] in [dispatchRequest], [exit] and
    [unloadWorkspace] are applied to values of the shape they name. *)
Theorem reachable_well_shaped d defs mx calls :
  Forall public calls →
  well_shaped_state (after_all (fst (new d defs mx)) calls (snd (new d defs mx))).
Proof. apply reachable_shape. Qed.

Lemma reachable_well_shaped_witness : Forall public opened ∧ well_shaped_state full.
Proof.
  assert (Forall public opened) as H by (repeat constructor).
  exact (conj H (reachable_well_shaped false [typescript; java] 2 opened H)).
Defined.

(** *** [exit] *)

Lemma emits_nil st : emits [] st = st.
Proof. destruct st. unfold emits. simpl. by rewrite app_nil_r. Qed.

Lemma emits_emits es1 es2 st : emits es2 (emits es1 st) = emits (es1 ++ es2) st.
Proof. unfold emits. simpl. by rewrite app_assoc. Qed.

Lemma emit_emits e es st : emits es (emit e st) = emits (e :: es) st.
Proof. unfold emits, emit. simpl. by rewrite <- app_assoc. Qed.

Lemma exited_app E hs1 hs2 :
  exited E (hs1 ++ hs2) =
  match fst (exited E hs1) with
  | Ok _ => (fst (exited E hs2), snd (exited E hs1) ++ snd (exited E hs2))
  | Throw e => (Throw e, snd (exited E hs1))
  end.
Proof.
  induction hs1 as [|h hs1 IH]; simpl.
  - by destruct (exited E hs2).
  - destruct (exitFailure E h); simpl; [done|].
    rewrite IH. by destruct (fst (exited E hs1)).
Qed.

Lemma for_of_handler_exit E hs st :
  for_of hs (handler_exit E) st =
  (fst (exited E hs), emits (map HandlerExit (snd (exited E hs))) st).
Proof.
  revert st. induction hs as [|h hs IH]; intros st; simpl.
  - unfold ret. destruct st as [l hp tr]. unfold emits. simpl. by rewrite app_nil_r.
  - unfold handler_exit, bind, modify. simpl.
    destruct (exitFailure E h) as [e|]; simpl.
    + done.
    + unfold ret. rewrite IH. by rewrite emit_emits.
Qed.

Lemma exited_single E h :
  exited E [h] = (match exitFailure E h with Some e => Throw e | None => Ok tt end, [h]).
Proof. simpl. by destruct (exitFailure E h). Qed.

Lemma exit_record E i ls st :
  languageServers st !! i = Some ls →
  well_shaped ls →
  (let* ls := deref i in
   match languageServerHandlers ls with
   | Undefined => ret tt
   | Handler h =>
       if builtinWorkspaceFolders ls
       then handler_exit E h
       else throw (TypeError "languageServerHandlers is not a handler map")
   | HandlerMap handlers =>
       if builtinWorkspaceFolders ls
       then throw (TypeError "languageServerHandlers.exit is not a function")
       else for_of (Object_values handlers) (handler_exit E)
   end) st =
  (fst (exited E (handlers_held ls)),
   emits (map HandlerExit (snd (exited E (handlers_held ls)))) st).
Proof.
  intros Hls Hshape. unfold bind, deref. rewrite Hls.
  unfold well_shaped in Hshape. unfold handlers_held.
  destruct (languageServerHandlers ls) as [|h|m].
  - simpl. unfold ret. by rewrite emits_nil.
  - rewrite Hshape, <- for_of_handler_exit. simpl.
    unfold bind. by destruct (handler_exit E h st) as [[[]|e] st'].
  - by rewrite Hshape, for_of_handler_exit.
Qed.

Lemma drop_lookup_head {A} k (l : list A) x xs :
  drop k l = x :: xs → l !! k = Some x ∧ drop (S k) l = xs.
Proof.
  intros Hdrop. split.
  - by rewrite <- (Nat.add_0_r k), <- lookup_drop, Hdrop.
  - replace (S k) with (k + 1) by lia. by rewrite <- drop_drop, Hdrop.
Qed.

Lemma exit_loop E lss :
  ∀ k st,
    drop k (languageServers st) = lss →
    Forall well_shaped lss →
    for_of (seq k (length lss))
      (λ i, let* ls := deref i in
            match languageServerHandlers ls with
            | Undefined => ret tt
            | Handler h =>
                if builtinWorkspaceFolders ls
                then handler_exit E h
                else throw (TypeError "languageServerHandlers is not a handler map")
            | HandlerMap handlers =>
                if builtinWorkspaceFolders ls
                then throw (TypeError "languageServerHandlers.exit is not a function")
                else for_of (Object_values handlers) (handler_exit E)
            end) st =
    (fst (exited E (concat (map handlers_held lss))),
     emits (map HandlerExit (snd (exited E (concat (map handlers_held lss))))) st).
Proof.
  induction lss as [|ls lss IH]; intros k st Hdrop Hshape.
  - simpl. unfold ret. by rewrite emits_nil.
  - destruct (drop_lookup_head _ _ _ _ Hdrop) as [Hls Hnext].
    apply Forall_cons_1 in Hshape as [Hls_shape Hrest].
    cbn [length seq for_of map concat]. rewrite exited_app.
    unfold bind at 1. rewrite (exit_record E k ls st Hls Hls_shape).
    destruct (fst (exited E (handlers_held ls))); [|done].
    rewrite (IH (S k)); [|exact Hnext|done].
    cbn [fst snd]. by rewrite emits_emits, map_app.
Qed.

(** X4. [exit] calls [exit()] on the handlers the controller holds, record
    by record and within a handler map in the order of its entries, until
    the first call that is rejected: it then fails with that rejection and
    the handlers after it are not reached. It makes no other call and
    changes neither the records nor the handler objects, so every handler
    stays registered. *)
Theorem exit_exits_every_handler_in_order E st :
  well_shaped_state st →
  exit E st =
  (fst (exited E (all_handlers st)),
   emits (map HandlerExit (snd (exited E (all_handlers st)))) st).
Proof.
  intros Hs. unfold exit, each_languageServer, all_handlers.
  unfold bind at 1, get.
  by apply exit_loop.
Qed.

Lemma exit_exits_every_handler_in_order_witness :
  well_shaped_state started_up ∧
  all_handlers started_up = [0; 1; 2] ∧
  exit (env 4 READY) started_up =
  (Ok tt, emits [HandlerExit 0; HandlerExit 1; HandlerExit 2] started_up).
Proof.
  assert (well_shaped_state started_up) as H by (vm_compute; repeat constructor).
  split; [exact H|]. split; [by vm_compute|].
  exact (exit_exits_every_handler_in_order (env 4 READY) started_up H).
Defined.

(** *** [unloadWorkspace] *)

Lemma handlers_delete_absent k m : handlers_get k m = None → handlers_delete k m = m.
Proof.
  induction m as [|[k' h'] m IH]; simpl; [done|].
  destruct (String.eqb k k'); [done|]. intros Hget. by rewrite IH.
Qed.

Lemma alter_middle {A} (f : A → A) (pre : list A) x post :
  alter f (length pre) (pre ++ x :: post) = pre ++ f x :: post.
Proof.
  rewrite <- (Nat.add_0_r (length pre)). by rewrite alter_app_r.
Qed.

Lemma lookup_middle {A} (pre : list A) x post : (pre ++ x :: post) !! length pre = Some x.
Proof. by rewrite list_lookup_middle. Qed.

Lemma unload_record E workspaceDir realPath pre ls post st :
  languageServers st = pre ++ ls :: post →
  well_shaped ls →
  realpathSync E workspaceDir = Some realPath →
  (∀ h, unloadFailure E h = None) →
  (let* languageServer := deref (length pre) in
   match languageServerHandlers languageServer with
   | Undefined => ret tt
   | Handler handler =>
       if builtinWorkspaceFolders languageServer
       then handler_unloadWorkspace E handler workspaceDir
       else throw (TypeError "languageServerHandlers is not a handler map")
   | HandlerMap handlers =>
       if builtinWorkspaceFolders languageServer
       then throw (TypeError "handler.unloadWorkspace is not a function")
       else
         match realpathSync E workspaceDir with
         | None => throw (Error "realpathSync")
         | Some realPath =>
             match handlers_get realPath handlers with
             | Some handler =>
                 handler_unloadWorkspace E handler realPath ;;
                 assign_handlers (length pre)
                   (HandlerMap (handlers_delete realPath handlers))
             | None => ret tt
             end
         end
   end) st =
  (Ok tt,
   {| languageServers := pre ++ unloaded realPath ls :: post;
      heap := heap st;
      trace := trace st ++ unload_calls workspaceDir realPath ls |}).
Proof.
  intros Hlss Hshape Hreal Hok. unfold bind at 1, deref.
  rewrite Hlss, lookup_middle.
  unfold well_shaped in Hshape. unfold unloaded, unload_calls.
  destruct st as [lss hp tr]. simpl in Hlss. subst lss.
  destruct (languageServerHandlers ls) as [|h|m] eqn:Hh.
  - unfold ret. simpl. by rewrite app_nil_r.
  - rewrite Hshape. unfold handler_unloadWorkspace, bind, modify. simpl.
    by rewrite Hok.
  - rewrite Hshape, Hreal.
    destruct (handlers_get realPath m) as [h|] eqn:Hget.
    + unfold handler_unloadWorkspace, assign_handlers, bind, modify. simpl.
      rewrite Hok. unfold ret, set_languageServers. simpl. by rewrite alter_middle.
    + unfold ret. simpl. rewrite app_nil_r, (handlers_delete_absent _ _ Hget), <- Hh.
      by rewrite with_handlers_id.
Qed.

Lemma unload_loop E workspaceDir realPath lss :
  realpathSync E workspaceDir = Some realPath →
  (∀ h, unloadFailure E h = None) →
  Forall well_shaped lss →
  ∀ pre st,
    languageServers st = pre ++ lss →
    for_of (seq (length pre) (length lss))
      (λ i,
        let* languageServer := deref i in
        match languageServerHandlers languageServer with
        | Undefined => ret tt
        | Handler handler =>
            if builtinWorkspaceFolders languageServer
            then handler_unloadWorkspace E handler workspaceDir
            else throw (TypeError "languageServerHandlers is not a handler map")
        | HandlerMap handlers =>
            if builtinWorkspaceFolders languageServer
            then throw (TypeError "handler.unloadWorkspace is not a function")
            else
              match realpathSync E workspaceDir with
              | None => throw (Error "realpathSync")
              | Some realPath =>
                  match handlers_get realPath handlers with
                  | Some handler =>
                      handler_unloadWorkspace E handler realPath ;;
                      assign_handlers i (HandlerMap (handlers_delete realPath handlers))
                  | None => ret tt
                  end
              end
        end) st =
    (Ok tt,
     {| languageServers := pre ++ map (unloaded realPath) lss;
        heap := heap st;
        trace := trace st ++ concat (map (unload_calls workspaceDir realPath) lss) |}).
Proof.
  intros Hreal Hok Hshape. induction Hshape as [|ls lss Hls _ IH]; intros pre st Hlss.
  - simpl. unfold ret. destruct st as [l hp tr]. simpl in *. by rewrite Hlss, !app_nil_r.
  - cbn [length seq for_of map concat]. unfold bind at 1.
    rewrite (unload_record E workspaceDir realPath pre ls lss st Hlss Hls Hreal Hok).
    specialize (IH (pre ++ [unloaded realPath ls])).
    rewrite length_app, Nat.add_1_r in IH.
    rewrite IH; [|by rewrite <- app_assoc].
    simpl. by rewrite <- !app_assoc.
Qed.

(** X5. When [fs.realpathSync] resolves the directory and no handler
    rejects, [unloadWorkspace] returns after calling [unloadWorkspace] on
    the shared handler of every record in builtin mode, with the directory
    as given, and on the handler every handler map holds for the canonical
    path, with the canonical path; it removes that entry from every handler
    map and changes nothing else: the handler objects stay as they are and
    no handler is exited. *)
Theorem unloadWorkspace_removes_realPath E workspaceDir realPath st :
  well_shaped_state st →
  realpathSync E workspaceDir = Some realPath →
  (∀ h, unloadFailure E h = None) →
  unloadWorkspace E workspaceDir st =
  (Ok tt,
   {| languageServers := map (unloaded realPath) (languageServers st);
      heap := heap st;
      trace := trace st ++
               concat (map (unload_calls workspaceDir realPath) (languageServers st)) |}).
Proof.
  intros Hshape Hreal Hok. unfold unloadWorkspace, each_languageServer.
  unfold bind at 1, get.
  by apply (unload_loop E workspaceDir realPath (languageServers st) Hreal Hok Hshape [] st).
Qed.

Lemma unloadWorkspace_removes_realPath_witness :
  well_shaped_state started_up ∧
  unloadWorkspace (env 4 READY) "/a" started_up =
  (Ok tt,
   {| languageServers := [with_handlers (HandlerMap [("/b", 1)]) full_typescript;
                          started_java];
      heap := heap started_up;
      trace := trace started_up ++ [HandlerUnload 0 "/a"; HandlerUnload 2 "/a"] |}).
Proof.
  assert (well_shaped_state started_up) as H by (vm_compute; repeat constructor).
  split; [exact H|].
  exact (unloadWorkspace_removes_realPath (env 4 READY) "/a" "/a" started_up H eq_refl
           (λ _, eq_refl)).
Defined.

Lemma pool_alter_ne i j f st :
  i ≠ j → pool j (set_languageServers (alter f i) st) = pool j st.
Proof. intros Hne. unfold pool. simpl. by rewrite list_lookup_alter_ne. Qed.

Lemma pool_assign i m st :
  i < length (languageServers st) →
  pool i (set_languageServers (alter (with_handlers (HandlerMap m)) i) st) = m.
Proof.
  intros Hi. unfold pool. simpl. rewrite list_lookup_alter_eq.
  destruct (lookup_lt_is_Some_2 _ _ Hi) as [ls ->]. done.
Qed.

(** X6. Whether it returns or fails, [unloadWorkspace] changes no handler
    object, leaves every entry of every handler map under a key other
    than the canonical path of the directory as it was, and replaces the
    handler of no record in builtin mode. *)
Theorem unloadWorkspace_keeps_other_workspaces E workspaceDir st j k :
  realpathSync E workspaceDir ≠ Some k →
  heap (snd (unloadWorkspace E workspaceDir st)) = heap st ∧
  handlers_get k (pool j (snd (unloadWorkspace E workspaceDir st))) =
  handlers_get k (pool j st) ∧
  Forall (λ ls, ∀ h, languageServerHandlers ls = Handler h →
                     ls ∈ languageServers st)
    (languageServers (snd (unloadWorkspace E workspaceDir st))).
Proof.
  intros Hk.
  set (P := λ st', heap st' = heap st ∧
                   handlers_get k (pool j st') = handlers_get k (pool j st) ∧
                   Forall (λ ls, ∀ h, languageServerHandlers ls = Handler h →
                                      ls ∈ languageServers st) (languageServers st')).
  assert (preserves P (unloadWorkspace E workspaceDir)) as Hpres.
  { unfold unloadWorkspace. apply preserves_each. intros i st1 (Hheap & Hget & Hsingle).
    unfold deref, bind.
    destruct (languageServers st1 !! i) as [ls|] eqn:Hls; [|done].
    destruct (languageServerHandlers ls) as [|h|m] eqn:Hh; [done| |];
      destruct (builtinWorkspaceFolders ls) eqn:Hb; try done.
    - unfold handler_unloadWorkspace, bind, modify. simpl.
      by destruct (unloadFailure E h).
    - destruct (realpathSync E workspaceDir) as [realPath|] eqn:Hreal; [|done].
      destruct (handlers_get realPath m) as [handler|]; [|done].
      unfold handler_unloadWorkspace, bind, modify. simpl.
      destruct (unloadFailure E handler); simpl; [done|].
      split_and!; [done| |].
      + destruct (decide (i = j)) as [->|Hne].
        * rewrite <- Hget. unfold pool. simpl. rewrite list_lookup_alter_eq, Hls. simpl.
          rewrite Hh. apply handlers_get_delete_ne. congruence.
        * rewrite <- Hget. unfold pool. simpl. by rewrite list_lookup_alter_ne.
      + apply Forall_alter; [done|]. intros x Hx _ h0. by destruct x. }
  apply (Hpres st). unfold P. split_and!; [done..|].
  apply Forall_forall. by intros ls Hin h _.
Qed.

Lemma unloadWorkspace_keeps_other_workspaces_witness :
  realpathSync (env 4 READY) "/a" ≠ Some "/b" ∧
  handlers_get "/b" (pool 0 (snd (unloadWorkspace (env 4 READY) "/a" full))) = Some 1.
Proof.
  assert (realpathSync (env 4 READY) "/a" ≠ Some "/b") as H by (by vm_compute).
  split; [exact H|].
  exact (proj1 (proj2 (unloadWorkspace_keeps_other_workspaces
                         (env 4 READY) "/a" full 0 "/b" H))).
Defined.

Lemma for_of_related {A} (R : State → result unit * State → Prop)
    (xs : list A) (body : A → M State unit) :
  (∀ st, R st (Ok tt, st)) →
  (∀ st st1 r, R st (Ok tt, st1) → R st1 r → R st r) →
  (∀ x st, R st (body x st)) →
  ∀ st, R st (for_of xs body st).
Proof.
  intros Hrefl Htrans Hbody. induction xs as [|x xs IH]; intros st; simpl.
  - apply Hrefl.
  - unfold bind. pose proof (Hbody x st) as Hx.
    destruct (body x st) as [[[]|e] st1]; [|done].
    by eapply Htrans.
Qed.

(** X7. A handler map entry is deleted only after the handler has
    unloaded the workspace: with handlers that reject [unloadWorkspace],
    as every [LanguageServerProxy] does, [unloadWorkspace] of the
    controller removes no entry and changes no handler object, and it
    returns only when it had no handler to call. *)
Theorem unloadWorkspace_keeps_entry_when_unload_rejects E workspaceDir st :
  (∀ h, is_Some (unloadFailure E h)) →
  languageServers (snd (unloadWorkspace E workspaceDir st)) = languageServers st ∧
  heap (snd (unloadWorkspace E workspaceDir st)) = heap st ∧
  (fst (unloadWorkspace E workspaceDir st) = Ok tt →
   trace (snd (unloadWorkspace E workspaceDir st)) = trace st).
Proof.
  intros Hrej. unfold unloadWorkspace, each_languageServer. unfold bind at 1 2 3 4, get.
  apply (for_of_related
           (λ st0 r, languageServers (snd r) = languageServers st0 ∧
                     heap (snd r) = heap st0 ∧
                     (fst r = Ok tt → trace (snd r) = trace st0))).
  - done.
  - intros st0 st1 r (Hl1 & Hh1 & Ht1) (Hl2 & Hh2 & Ht2). simpl in *.
    split_and!; [congruence..|]. intros Hr. rewrite Ht2, Ht1; done.
  - intros i st0. unfold deref, bind.
    destruct (languageServers st0 !! i) as [ls|]; [|done].
    destruct (languageServerHandlers ls) as [|h|m]; [done| |];
      destruct (builtinWorkspaceFolders ls); try done.
    + unfold handler_unloadWorkspace, bind, modify. simpl.
      by destruct (Hrej h) as [e ->].
    + destruct (realpathSync E workspaceDir) as [realPath|]; [|done].
      destruct (handlers_get realPath m) as [handler|]; [|done].
      unfold handler_unloadWorkspace, bind, modify. simpl.
      by destruct (Hrej handler) as [e ->].
Qed.

Lemma unloadWorkspace_keeps_entry_when_unload_rejects_witness :
  (∀ h, is_Some (unloadFailure (rejecting 4) h)) ∧
  languageServers (snd (unloadWorkspace (rejecting 4) "/a" full)) = languageServers full ∧
  fst (unloadWorkspace (rejecting 4) "/a" full) = Throw (Error "should not hit here").
Proof.
  assert (∀ h, is_Some (unloadFailure (rejecting 4) h)) as H
    by (intros h; exact (ex_intro _ _ eq_refl)).
  split; [exact H|]. split; [|by vm_compute].
  exact (proj1 (unloadWorkspace_keeps_entry_when_unload_rejects (rejecting 4) "/a" full H)).
Defined.

(** *** [launchServers] *)

Lemma started_weaken E lo hi es lo' hi' es' ls ls' :
  lo' ≤ lo → hi ≤ hi' → es ⊆ es' →
  started E lo hi es ls ls' → started E lo' hi' es' ls ls'.
Proof.
  intros Hlo Hhi Hes. unfold started.
  destruct (_ && _); [|done].
  destruct (launchFailure E (definition ls)) as [e|].
  - intros [-> Hin]. split; [done|]. by apply Hes.
  - intros (h & -> & ? & ? & Hin). exists h. split_and!; [done|lia|lia|by apply Hes].
Qed.

Lemma launch_record E pre ls post st :
  languageServers st = pre ++ ls :: post →
  ∃ ls' hp es,
    (let* ls := deref (length pre) in
     if status_eqb (installStatus E (definition ls)) READY && builtinWorkspaceFolders ls
     then
       try_catch
         (let* h := launch E (definition ls) true (maxWorkspace ls)
                      (installationPath E (definition ls)) in
          assign_handlers (length pre) (Handler h))
         (fun e => modify (emit (LogError e)))
     else ret tt) st =
    (Ok tt, {| languageServers := pre ++ ls' :: post;
               heap := heap st ++ hp;
               trace := trace st ++ es |}) ∧
    started E (length (heap st)) (length (heap st ++ hp)) es ls ls'.
Proof.
  intros Hlss. unfold bind at 1, deref. rewrite Hlss, lookup_middle.
  destruct st as [lss hp tr]. simpl in Hlss. subst lss. unfold started. simpl.
  destruct (_ && _).
  - unfold try_catch, bind, launch, assign_handlers, modify. simpl.
    destruct (launchFailure E (definition ls)) as [e|];
      unfold set_languageServers, emit, set_heap; simpl.
    + exists ls, [], [LogError e]. rewrite app_nil_r. split; [done|].
      split; [done|]. by apply list_elem_of_singleton.
    + exists (with_handlers (Handler (length hp)) ls), [{| lastAccess := None |}],
        [Launch (definition ls) true (maxWorkspace ls)
           (installationPath E (definition ls)) (length hp)].
      rewrite alter_middle. split; [done|].
      exists (length hp). rewrite length_app. simpl.
      split_and!; [done|lia|lia|]. by apply list_elem_of_singleton.
  - exists ls, [], []. by rewrite !app_nil_r.
Qed.

Lemma launch_loop E lss :
  ∀ pre st,
    languageServers st = pre ++ lss →
    ∃ lss' hp es,
      for_of (seq (length pre) (length lss))
        (λ i,
          let* ls := deref i in
          if status_eqb (installStatus E (definition ls)) READY
             && builtinWorkspaceFolders ls
          then
            try_catch
              (let* h := launch E (definition ls) true (maxWorkspace ls)
                           (installationPath E (definition ls)) in
               assign_handlers i (Handler h))
              (fun e => modify (emit (LogError e)))
          else ret tt) st =
      (Ok tt, {| languageServers := pre ++ lss';
                 heap := heap st ++ hp;
                 trace := trace st ++ es |}) ∧
      Forall2 (started E (length (heap st)) (length (heap st ++ hp)) es) lss lss'.
Proof.
  induction lss as [|ls lss IH]; intros pre st Hlss.
  - exists [], [], []. simpl. unfold ret. destruct st as [l hp tr]. simpl in *.
    rewrite Hlss, !app_nil_r. by split.
  - destruct (launch_record E pre ls lss st Hlss) as (ls' & hp1 & es1 & Hbody & Hls').
    cbn [length seq for_of]. unfold bind at 1. rewrite Hbody.
    specialize (IH (pre ++ [ls'])
                  {| languageServers := pre ++ ls' :: lss;
                     heap := heap st ++ hp1; trace := trace st ++ es1 |}).
    rewrite length_app, Nat.add_1_r in IH.
    destruct IH as (lss' & hp2 & es2 & Hloop & Hrest); [simpl; by rewrite <- app_assoc|].
    simpl in Hloop, Hrest.
    exists (ls' :: lss'), (hp1 ++ hp2), (es1 ++ es2).
    rewrite Hloop, <- !app_assoc. simpl. split; [done|].
    rewrite !length_app in *.
    constructor.
    + eapply started_weaken; [| | |exact Hls']; [lia|lia|].
      intros e He. apply elem_of_app. by left.
    + eapply Forall2_impl; [exact Hrest|]. intros x y Hxy.
      eapply started_weaken; [| | |exact Hxy]; [lia|lia|].
      intros e He. apply elem_of_app. by right.
Qed.

Lemma each_languageServer_unfold body st :
  each_languageServer body st = for_of (seq 0 (length (languageServers st))) body st.
Proof. done. Qed.

(** X8. [launchServers] never fails. It leaves every record that is not
    installed or not in builtin mode as it was; for a record that is
    installed and in builtin mode it calls the launcher with
    [(true, maxWorkspace, installationPath)] and stores the new handler in
    the record, whether or not the record held a handler already, or, when
    the launch is rejected, logs the error and leaves the record as it
    was. *)
Theorem launchServers_never_rejects E st :
  fst (launchServers E st) = Ok tt ∧
  Forall2 (started E (length (heap st)) (length (heap (snd (launchServers E st))))
             (trace (snd (launchServers E st))))
    (languageServers st) (languageServers (snd (launchServers E st))).
Proof.
  unfold launchServers. rewrite each_languageServer_unfold.
  destruct (launch_loop E (languageServers st) [] st eq_refl)
    as (lss' & hp & es & Heq & Hall).
  change (length (@nil LanguageServerData)) with 0 in Heq. rewrite Heq.
  simpl. split; [done|].
  eapply Forall2_impl; [exact Hall|]. intros x y Hxy.
  eapply started_weaken; [| | |exact Hxy]; [lia|lia|].
  intros e He. apply elem_of_app. by right.
Qed.

(** *** The constructor *)

Lemma languages_fold (i : nat) lang langs (m : gmap string nat) :
  fold_left (fun m l => <[l := i]> m) langs m !! lang =
  if existsb (String.eqb lang) langs then Some i else m !! lang.
Proof.
  revert m. induction langs as [|l langs IH]; intros m; simpl; [done|].
  rewrite IH. destruct (existsb (String.eqb lang) langs) eqn:Hex.
  - by rewrite orb_true_r.
  - rewrite orb_false_r. destruct (String.eqb_spec lang l) as [->|Hne].
    + by rewrite lookup_insert_eq.
    + by rewrite lookup_insert_ne.
Qed.

Lemma languageServerMap_fold mx lang defs :
  ∀ k (m : gmap string nat),
    fold_left
      (fun map p =>
         let map' := fold_left (fun m lang => <[lang := fst p]> m) (languages (snd p)) map in
         <[name (definition (snd p)) := fst p]> map')
      (imap (λ i ls, (k + i, ls)) (new_languageServers defs mx)) m !! lang =
    match last_serving lang defs k with
    | Some j => Some j
    | None => m !! lang
    end.
Proof.
  induction defs as [|def defs IH]; intros k m; [done|].
  cbn [new_languageServers map imap fold_left last_serving].
  rewrite (imap_ext _ (λ i ls, (S k + i, ls))); [|intros; unfold compose; simpl; f_equal; lia].
  unfold new_languageServers in IH. rewrite IH.
  destruct (last_serving lang defs (S k)); [done|].
  cbn [fst snd definition languages]. rewrite Nat.add_0_r. unfold serves.
  destruct (String.eqb_spec lang (name def)) as [->|Hne].
  - by rewrite lookup_insert_eq, orb_true_r.
  - rewrite lookup_insert_ne by done. rewrite languages_fold, orb_false_r.
    by destruct (existsb _ _).
Qed.

Lemma last_serving_None lang defs :
  ∀ k, last_serving lang defs k = None → ∀ def, def ∈ defs → serves lang def = false.
Proof.
  induction defs as [|d defs IH]; intros k; simpl; [by intros _ def Hin; apply elem_of_nil in Hin|].
  destruct (last_serving lang defs (S k)) eqn:Hl; [done|].
  destruct (serves lang d) eqn:Hs; [done|]. intros _ def Hin.
  apply elem_of_cons in Hin as [->|Hin]; [done|]. by apply (IH (S k)).
Qed.

Lemma last_serving_Some lang defs :
  ∀ k j, last_serving lang defs k = Some j →
    k ≤ j ∧
    ∃ def, defs !! (j - k) = Some def ∧ serves lang def = true ∧
           ∀ i def', j - k < i → defs !! i = Some def' → serves lang def' = false.
Proof.
  induction defs as [|def defs IH]; intros k j; simpl; [done|].
  destruct (last_serving lang defs (S k)) as [j'|] eqn:Hlast.
  - intros [= ->]. destruct (IH _ _ Hlast) as (Hle & def' & Hdef & Hs & Hlater).
    split; [lia|]. exists def'. replace (j - k) with (S (j - S k)) by lia.
    split_and!; [done..|]. intros [|i] d Hi Hd; [lia|].
    apply (Hlater i); [lia|done].
  - destruct (serves lang def) eqn:Hs; [|done]. intros [= ->].
    split; [done|]. exists def. rewrite Nat.sub_diag. split_and!; [done..|].
    intros [|i] d Hi Hd; [lia|]. simpl in Hd.
    eapply last_serving_None; [exact Hlast|]. by eapply list_elem_of_lookup_2.
Qed.

(** X9. The constructor keys [languageServerMap] by every language and by
    the name of every definition of [LanguageServers]: a key that no
    definition serves has no entry of its own, and a key that several
    definitions serve refers to the record of the last of them. The record
    is the one built from that definition, with the mode of the definition
    and the capacity [options.maxWorkspace]. *)
Theorem languageServerMap_last_definition_wins d defs mx lang :
  match languageServerMap_get (fst (new d defs mx)) (snd (new d defs mx)) lang with
  | Some (i, ls) =>
      defs !! i = Some (definition ls) ∧
      serves lang (definition ls) = true ∧
      builtinWorkspaceFolders ls = def_builtinWorkspaceFolders (definition ls) ∧
      maxWorkspace ls = mx ∧
      ∀ j def, i < j → defs !! j = Some def → serves lang def = false
  | None => ∀ def, def ∈ defs → serves lang def = false
  end.
Proof.
  assert (new_languageServerMap (new_languageServers defs mx) !! lang =
          last_serving lang defs 0) as Hmap.
  { pose proof (languageServerMap_fold mx lang defs 0 ∅) as Hfold.
    rewrite lookup_empty in Hfold.
    destruct (last_serving lang defs 0); exact Hfold. }
  unfold languageServerMap_get, new. cbn [fst snd languageServerMap languageServers].
  rewrite Hmap.
  destruct (last_serving lang defs 0) as [j|] eqn:Hlast.
  - destruct (last_serving_Some _ _ _ _ Hlast) as (_ & def & Hdef & Hs & Hlater).
    rewrite Nat.sub_0_r in *. unfold new_languageServers.
    rewrite list_lookup_fmap, Hdef. simpl. by split_and!.
  - by apply (last_serving_None _ _ 0).
Qed.

(** *** Edge cases of [dispatchRequest] and [handleRequest] *)

Lemma findLanguageServer_ok C E lang st i ls :
  languageServerMap_get C st lang = Some (i, ls) →
  negb (detach C) && negb (status_eqb (installStatus E (definition ls)) READY) = false →
  findLanguageServer C E lang st = (Ok i, st).
Proof. intros Hget Hc. unfold findLanguageServer. by rewrite Hget, Hc. Qed.

(** X10. For a server with builtin workspace folders [dispatchRequest]
    consults neither the workspace path of the request nor the file
    system. While the launcher runs, the request goes to the handler the
    record holds, and the call fails with a [TypeError] when it holds
    none. While the launcher does not run, every call launches: a rejected
    launch fails the call and leaves the controller as it was; otherwise
    the new handler replaces whatever the record held, without a call of
    [exit] on it, and gets the request. Where a handler gets the request,
    the call ends as the call of that handler ends, with its answer or
    with its rejection. *)
Theorem dispatchRequest_builtin_mode C E lang request st i ls :
  truthy (Some lang) = true →
  languageServerMap_get C st lang = Some (i, ls) →
  negb (detach C) && negb (status_eqb (installStatus E (definition ls)) READY) = false →
  builtinWorkspaceFolders ls = true →
  dispatchRequest C E (Some lang) request st =
  if launcherRunning E (definition ls)
  then match languageServerHandlers ls with
       | Handler handler =>
           (handled E handler request, emit (HandleRequest handler request) st)
       | Undefined => (Throw (TypeError "Cannot read properties of undefined"), st)
       | HandlerMap _ => (Throw (TypeError "handler.handleRequest is not a function"), st)
       end
  else match launchFailure E (definition ls) with
       | Some e => (Throw e, st)
       | None =>
           (handled E (length (heap st)) request,
            {| languageServers :=
                 alter (with_handlers (Handler (length (heap st)))) i (languageServers st);
               heap := heap st ++ [{| lastAccess := None |}];
               trace := trace st ++
                        [Launch (definition ls) true (maxWorkspace ls)
                           (installationPath E (definition ls)) (length (heap st));
                         HandleRequest (length (heap st)) request] |})
       end.
Proof.
  intros Ht Hget Hc Hb.
  pose proof (findLanguageServer_ok _ _ _ _ _ _ Hget Hc) as Hf.
  pose proof (languageServerMap_get_lookup _ _ _ _ _ Hget) as Hls.
  destruct (launcherRunning E (definition ls)) eqn:Hrun.
  - by apply (dispatchRequest_builtin_running C E (Some lang) request st i ls).
  - destruct (launchFailure E (definition ls)) as [e|] eqn:Hfail.
    + by apply (dispatchRequest_builtin_launch_fails C E (Some lang) request st i ls).
    + by apply (dispatchRequest_builtin_launch C E (Some lang) request st i ls).
Qed.

Lemma dispatchRequest_builtin_mode_witness :
  languageServerMap_get (controller false) full "java" = Some (1, idle_java) ∧
  fst (dispatchRequest (controller false) (env 3 READY) (Some "java")
         (lsp_request None None) full) = Ok 2.
Proof.
  assert (languageServerMap_get (controller false) full "java" = Some (1, idle_java))
    as H by (by vm_compute).
  split; [exact H|].
  exact (f_equal fst
           (dispatchRequest_builtin_mode (controller false) (env 3 READY) "java"
              (lsp_request None None) full 1 idle_java eq_refl H eq_refl eq_refl)).
Defined.

Lemma handlers_of_eq i ls st :
  languageServers st !! i = Some ls →
  handlers_of i st =
  match languageServerHandlers ls with
  | Undefined => (Ok [], set_languageServers (alter (with_handlers (HandlerMap [])) i) st)
  | HandlerMap m => (Ok m, st)
  | Handler _ => (Throw (TypeError "languageServerHandlers is not a handler map"), st)
  end.
Proof.
  intros Hls. unfold handlers_of, bind, deref. rewrite Hls.
  by destruct (languageServerHandlers ls).
Qed.

Lemma findOrCreateHandler_eq E i ls request st :
  languageServers st !! i = Some ls →
  findOrCreateHandler E i request st =
  match handlers_of i st with
  | (Ok handlers, st1) =>
      (if negb (truthy (workspacePath request))
       then throw (ResponseError UnknownErrorCode "no workspace in request?")
       else
         match realpathSync E (default "" (workspacePath request)) with
         | None => throw (Error "realpathSync")
         | Some realPath =>
             match handlers_get realPath handlers with
             | Some handler => ret handler
             | None =>
                 if (Z.of_nat (length (Object_entries handlers)) <? maxWorkspace ls)%Z
                 then
                   let* handler := launch E (definition ls) (builtinWorkspaceFolders ls)
                                     (maxWorkspace ls)
                                     (installationPath E (definition ls)) in
                   assign_handlers i
                     (HandlerMap (handlers_set realPath handler handlers)) ;;
                   ret handler
                 else
                   match Object_entries handlers with
                   | [] => throw (TypeError "undefined is not iterable")
                   | first :: _ =>
                       let* st := get in
                       let '(oldestWorkspace, oldestHandler) :=
                         oldest_entry (heap st) first (Object_entries handlers) in
                       assign_handlers i
                         (HandlerMap (handlers_set (default "" (workspacePath request))
                                        oldestHandler
                                        (handlers_delete oldestWorkspace handlers))) ;;
                       ret oldestHandler
                   end
             end
         end) st1
  | (Throw e, st1) => (Throw e, st1)
  end.
Proof.
  intros Hls. unfold findOrCreateHandler. unfold bind at 1. unfold deref at 1.
  rewrite Hls. unfold bind at 1. done.
Qed.

(** X11. For a server with one backend per workspace, a request without a
    workspace path (absent or empty) fails with [UnknownErrorCode] and the
    message [no workspace in request?]; nothing is launched and no handler
    is called, but a record that had no handler map yet has been given an
    empty one. *)
Theorem dispatchRequest_without_workspace C E lang request st i ls :
  truthy (Some lang) = true →
  languageServerMap_get C st lang = Some (i, ls) →
  negb (detach C) && negb (status_eqb (installStatus E (definition ls)) READY) = false →
  builtinWorkspaceFolders ls = false →
  well_shaped ls →
  truthy (workspacePath request) = false →
  dispatchRequest C E (Some lang) request st =
  (Throw (ResponseError UnknownErrorCode "no workspace in request?"),
   match languageServerHandlers ls with
   | Undefined => set_languageServers (alter (with_handlers (HandlerMap [])) i) st
   | _ => st
   end).
Proof.
  intros Ht Hget Hc Hb Hshape Hwp.
  pose proof (findLanguageServer_ok _ _ _ _ _ _ Hget Hc) as Hf.
  pose proof (languageServerMap_get_lookup _ _ _ _ _ Hget) as Hls.
  rewrite (dispatchRequest_pooled C E (Some lang) request st i ls Ht Hf Hls Hb).
  unfold well_shaped in Hshape.
  unfold bind at 1. rewrite (findOrCreateHandler_eq E i ls request st Hls).
  rewrite (handlers_of_eq i ls st Hls), Hwp.
  by destruct (languageServerHandlers ls) as [|h|m]; [| congruence |].
Qed.

Lemma dispatchRequest_without_workspace_witness :
  languageServerMap_get (controller false) initial "typescript"
  = Some (0, idle_typescript 2) ∧
  dispatchRequest (controller false) (env 1 READY) (Some "typescript")
    (lsp_request None None) initial =
  (Throw (ResponseError UnknownErrorCode "no workspace in request?"),
   set_languageServers (alter (with_handlers (HandlerMap [])) 0) initial).
Proof.
  assert (languageServerMap_get (controller false) initial "typescript"
          = Some (0, idle_typescript 2)) as H by (by vm_compute).
  split; [exact H|].
  exact (dispatchRequest_without_workspace (controller false) (env 1 READY) "typescript"
           (lsp_request None None) initial 0 (idle_typescript 2)
           eq_refl H eq_refl eq_refl I eq_refl).
Defined.

Lemma capacity_shape ls hs :
  without_capacity ls → (∀ m, hs = HandlerMap m → m = []) →
  without_capacity (with_handlers hs ls).
Proof.
  intros [Hmx Hlive] Hhs. split; [done|]. unfold live_handlers. simpl.
  destruct hs as [| |m]; [done..|]. by rewrite (Hhs m).
Qed.

Lemma without_capacity_pool st i :
  Forall without_capacity (languageServers st) → pool i st = [].
Proof.
  intros Hall. unfold pool. destruct (languageServers st !! i) as [ls|] eqn:Hls; [|done].
  destruct (Forall_lookup_1 _ _ _ _ Hall Hls) as [_ Hlive]. unfold live_handlers in Hlive.
  destruct (languageServerHandlers ls) as [| |m]; [done..|]. by destruct m.
Qed.

Lemma findOrCreateHandler_without_capacity E i request st ls :
  languageServers st !! i = Some ls →
  without_capacity ls →
  ∃ e, fst (findOrCreateHandler E i request st) = Throw e ∧
       trace (snd (findOrCreateHandler E i request st)) = trace st ∧
       (truthy (workspacePath request) = true →
        is_Some (realpathSync E (default "" (workspacePath request))) →
        (∀ h, languageServerHandlers ls ≠ Handler h) →
        e = TypeError "undefined is not iterable") ∧
       (Forall without_capacity (languageServers st) →
        Forall without_capacity
          (languageServers (snd (findOrCreateHandler E i request st)))).
Proof.
  intros Hls [Hmx Hlive]. unfold live_handlers in Hlive.
  rewrite (findOrCreateHandler_eq E i ls request st Hls).
  rewrite (handlers_of_eq i ls st Hls).
  assert ((Z.of_nat (length (Object_entries [])) <? maxWorkspace ls)%Z = false) as Hcap
    by (apply Z.ltb_ge; simpl; lia).
  assert (Forall without_capacity (languageServers st) →
          Forall without_capacity
            (languageServers
               (set_languageServers (alter (with_handlers (HandlerMap [])) i) st)))
    as Hkeep.
  { intros Hall. simpl. apply Forall_alter; [done|]. intros x Hx Hwc.
    apply capacity_shape; [done|]. by intros m [= <-]. }
  destruct (languageServerHandlers ls) as [|h|m] eqn:Hh.
  - destruct (truthy (workspacePath request)); cbn [negb];
      [|eexists; split_and!; [done|done|done|exact Hkeep]].
    destruct (realpathSync E _) as [realPath|];
      [|eexists; split_and!; [done|done|by intros _ []|exact Hkeep]].
    cbn [handlers_get]. rewrite Hcap.
    eexists; split_and!; [done|done|done|exact Hkeep].
  - eexists. split_and!; [done|done| |done]. intros _ _ Hnot. by destruct (Hnot h).
  - destruct m as [|p m]; [|done].
    destruct (truthy (workspacePath request)); cbn [negb];
      [|eexists; split_and!; done].
    destruct (realpathSync E _) as [realPath|];
      [|eexists; split_and!; [done|done|by intros _ []|done]].
    cbn [handlers_get]. rewrite Hcap. eexists; split_and!; done.
Qed.

Lemma dispatchRequest_capacity C E lang request :
  preserves (λ st, Forall without_capacity (languageServers st))
    (dispatchRequest C E lang request).
Proof.
  intros st Hs.
  destruct (truthy lang) eqn:Ht; [|by rewrite dispatchRequest_falsy].
  destruct (findLanguageServer_cases C E (default "" lang) st)
    as [(i & ls & Hget & Hc & Hf)|[e Hf]];
    [|by rewrite (dispatchRequest_unresolved _ _ _ _ _ _ Ht Hf)].
  pose proof (languageServerMap_get_lookup _ _ _ _ _ Hget) as Hls.
  destruct (builtinWorkspaceFolders ls) eqn:Hb.
  - destruct (launcherRunning E (definition ls)) eqn:Hrun.
    + rewrite (dispatchRequest_builtin_running _ _ _ _ _ _ _ Ht Hf Hls Hb Hrun).
      by destruct (languageServerHandlers ls).
    + destruct (launchFailure E (definition ls)) as [e|] eqn:Hfail.
      * by rewrite (dispatchRequest_builtin_launch_fails _ _ _ _ _ _ _ _ Ht Hf Hls Hb Hrun Hfail).
      * rewrite (dispatchRequest_builtin_launch _ _ _ _ _ _ _ Ht Hf Hls Hb Hrun Hfail).
        simpl. apply Forall_alter; [done|].
        intros x Hx Hwc. by apply capacity_shape.
  - rewrite (dispatchRequest_pooled _ _ _ _ _ _ _ Ht Hf Hls Hb). unfold bind at 1.
    destruct (findOrCreateHandler_without_capacity E i request st ls Hls
                (Forall_lookup_1 _ _ _ _ Hs Hls)) as (e & He & _ & _ & Hkeep).
    destruct (findOrCreateHandler E i request st) as [r st1]. simpl in *. subst r.
    by apply Hkeep.
Qed.

Lemma after_capacity C c st :
  public c →
  Forall without_capacity (languageServers st) →
  Forall without_capacity (languageServers (after C c st)).
Proof.
  destruct c; simpl; intros Hpub; [| |done| | |].
  - unfold handleRequest. destruct (truthy _); [|done].
    apply (dispatchRequest_capacity C E _ request st).
  - apply (dispatchRequest_capacity C E lang request st).
  - revert st. unfold unloadWorkspace. apply (preserves_each (λ st, Forall without_capacity (languageServers st))). intros i st Hs.
    unfold deref, bind.
    destruct (languageServers st !! i) as [ls|] eqn:Hls; [|done].
    destruct (Forall_lookup_1 _ _ _ _ Hs Hls) as [_ Hlive]. unfold live_handlers in Hlive.
    destruct (languageServerHandlers ls) as [|h|m] eqn:Hh; [done| |];
      destruct (builtinWorkspaceFolders ls) eqn:Hb; try done.
    + unfold handler_unloadWorkspace, bind, modify. simpl.
      by destruct (unloadFailure E h).
    + destruct m; [|done].
      by destruct (realpathSync E workspaceDir) as [realPath|].
  - revert st. unfold launchServers. apply (preserves_each (λ st, Forall without_capacity (languageServers st))). intros i st Hs.
    unfold deref, bind. destruct (languageServers st !! i) as [ls|] eqn:Hls; [|done].
    destruct (status_eqb _ READY); simpl; [|done].
    destruct (builtinWorkspaceFolders ls) eqn:Hb; [|done].
    unfold try_catch, bind, launch.
    destruct (launchFailure E (definition ls)); simpl; [done|].
    apply Forall_alter; [done|]. intros x Hx Hwc. by apply capacity_shape.
  - revert st. unfold exit. apply (preserves_each (λ st, Forall without_capacity (languageServers st))). intros i.
    apply preserves_bind; [apply deref_preserves|]. intros ls.
    assert (∀ h, preserves (λ st, Forall without_capacity (languageServers st))
                   (handler_exit E h)) as Hexit.
    { intros h st Hs. unfold handler_exit, bind, modify. simpl.
      by destruct (exitFailure E h). }
    destruct (languageServerHandlers ls) as [|h|m]; [apply preserves_ret| |];
      destruct (builtinWorkspaceFolders ls);
      try apply preserves_throw; [apply Hexit|].
    by apply preserves_for_of.
Qed.

Lemma reachable_without_capacity d defs mx calls :
  (mx ≤ 0)%Z →
  Forall public calls →
  Forall without_capacity
    (languageServers (after_all (fst (new d defs mx)) calls (snd (new d defs mx)))).
Proof.
  intros Hmx Hpub.
  assert (Forall without_capacity (languageServers (snd (new d defs mx)))) as Hnew.
  { unfold new, new_languageServers. simpl. apply Forall_map, Forall_forall. by intros def _. }
  revert Hnew. generalize (snd (new d defs mx)) as st. unfold after_all.
  induction Hpub as [|c calls Hc _ IH]; intros st Hs; simpl; [done|].
  apply IH. by apply after_capacity.
Qed.

(** X12. A controller built with [maxWorkspace] at most 0 never holds a
    pooled handler: in every state its public methods reach, the handler
    map of a server with one backend per workspace is empty and every
    [dispatchRequest] for such a server fails without calling a launcher
    or a handler. When the language server is found, the request has a
    workspace path and the path resolves, the failure is the [TypeError]
    of destructuring the first entry of an empty array. *)
Theorem no_capacity_no_pooled_handler d defs mx calls E lang request i ls :
  (mx ≤ 0)%Z →
  Forall public calls →
  let C := fst (new d defs mx) in
  let st := after_all C calls (snd (new d defs mx)) in
  truthy (Some lang) = true →
  languageServerMap_get C st lang = Some (i, ls) →
  builtinWorkspaceFolders ls = false →
  pool i st = [] ∧
  ∃ e, fst (dispatchRequest C E (Some lang) request st) = Throw e ∧
       trace (snd (dispatchRequest C E (Some lang) request st)) = trace st ∧
       (negb (detach C) && negb (status_eqb (installStatus E (definition ls)) READY)
          = false →
        truthy (workspacePath request) = true →
        is_Some (realpathSync E (default "" (workspacePath request))) →
        e = TypeError "undefined is not iterable").
Proof.
  intros Hmx Hpub C st Ht Hget Hb.
  pose proof (reachable_without_capacity d defs mx calls Hmx Hpub) as Hcap.
  pose proof (reachable_shape d defs mx calls Hpub) as Hshape.
  fold C in Hcap, Hshape. fold st in Hcap, Hshape.
  pose proof (languageServerMap_get_lookup _ _ _ _ _ Hget) as Hls.
  split; [by apply without_capacity_pool|].
  destruct (findLanguageServer_cases C E lang st)
    as [(i' & ls' & Hget' & Hc & Hf)|[e Hf]].
  - rewrite Hget in Hget'. injection Hget' as <- <-.
    rewrite (dispatchRequest_pooled C E (Some lang) request st i ls Ht Hf Hls Hb).
    unfold bind at 1 3.
    destruct (findOrCreateHandler_without_capacity E i request st ls Hls
                (Forall_lookup_1 _ _ _ _ Hcap Hls)) as (e & He & Htrace & Hwhich & _).
    destruct (findOrCreateHandler E i request st) as [r st1]. simpl in He, Htrace. subst r.
    exists e. split_and!; [done|done|].
    intros _ Hwp Hreal. apply Hwhich; [done..|].
    intros h Hh. pose proof (Forall_lookup_1 _ _ _ _ Hshape Hls) as Hs.
    unfold well_shaped in Hs. rewrite Hh in Hs. congruence.
  - rewrite (dispatchRequest_unresolved C E (Some lang) request st e Ht Hf).
    exists e. split_and!; [done..|].
    intros Hc. unfold findLanguageServer in Hf. rewrite Hget, Hc in Hf. done.
Qed.

Lemma no_capacity_no_pooled_handler_witness :
  (0 ≤ 0)%Z ∧
  languageServerMap_get (fst (new false [typescript; java] 0))
    (snd (new false [typescript; java] 0)) "typescript" = Some (0, idle_typescript 0) ∧
  ∃ e, fst (dispatchRequest (fst (new false [typescript; java] 0)) (env 1 READY)
              (Some "typescript") (lsp_request None (Some "/a"))
              (snd (new false [typescript; java] 0))) = Throw e ∧
       e = TypeError "undefined is not iterable".
Proof.
  assert (0 ≤ 0)%Z as H0 by exact (Z.le_refl 0).
  assert (languageServerMap_get (fst (new false [typescript; java] 0))
            (snd (new false [typescript; java] 0)) "typescript"
          = Some (0, idle_typescript 0)) as H by (by vm_compute).
  split; [exact H0|]. split; [exact H|].
  destruct (no_capacity_no_pooled_handler false [typescript; java] 0 [] (env 1 READY)
              "typescript" (lsp_request None (Some "/a")) 0 (idle_typescript 0)
              H0 (List.Forall_nil public) eq_refl H eq_refl) as (_ & e & He & _ & Hwhich).
  exists e. split; [exact He|].
  exact (Hwhich eq_refl eq_refl (ex_intro _ _ eq_refl)).
Defined.

(** *** [handleRequest] and the [file://] scheme *)

Lemma substring_all s : String.substring 0 (String.length s) s = s.
Proof. induction s as [|c s IH]; simpl; [done|]. by rewrite IH. Qed.

Lemma replace_prefix_file p : Js.replace "file://" "" ("file://" +:+ p) = p.
Proof.
  assert (∀ c s1 s2, String c s1 +:+ s2 = String c (s1 +:+ s2)) as Hcons by done.
  assert (∀ s, "" +:+ s = s) as Hnil by done.
  rewrite !Hcons, Hnil. simpl. rewrite Hnil, ?Nat.sub_0_r.
  assert (String.prefix "" p = true) as -> by by destruct p.
  apply substring_all.
Qed.

Lemma replace_no_occurrence pat by_ s :
  no_occurrence pat s = true → Js.replace pat by_ s = s.
Proof.
  induction s as [|c s IH]; cbn [no_occurrence Js.replace].
  - by destruct (String.prefix pat "").
  - destruct (String.prefix pat (String c s)); [done|]. cbn [negb andb].
    intros Hno. by rewrite IH.
Qed.

(** X13. [handleRequest] detects the language of the file path with its
    first [file://] removed: for a path that starts with [file://], of the
    rest of the path, also when the rest contains [file://] again; for a
    path that is not empty and contains no [file://], of the path as it
    is. The request is then dispatched under that language. *)
Theorem handleRequest_strips_first_file_scheme C E request st :
  (∀ p, resolvedFilePath request = Some ("file://" +:+ p) →
        handleRequest C E request st = dispatchRequest C E (detectLanguage E p) request st) ∧
  (∀ f, resolvedFilePath request = Some f → f ≠ "" →
        no_occurrence "file://" f = true →
        handleRequest C E request st = dispatchRequest C E (detectLanguage E f) request st).
Proof.
  split.
  - intros p Hfile. unfold handleRequest. rewrite Hfile. cbn [truthy default id].
    by rewrite replace_prefix_file.
  - intros f Hfile Hne Hno. unfold handleRequest. rewrite Hfile. cbn [truthy default id].
    destruct (String.eqb_spec f ""); [done|]. cbn [negb].
    by rewrite replace_no_occurrence.
Qed.

(** *** [exit] and later requests *)

Lemma exited_all E hs : fst (exited E hs) = Ok tt → snd (exited E hs) = hs.
Proof.
  induction hs as [|h hs IH]; simpl; [done|].
  destruct (exitFailure E h); simpl; [done|]. intros Hok. by rewrite IH.
Qed.

Lemma handlers_get_held k m h : handlers_get k m = Some h → h ∈ Object_values m.
Proof.
  intros Hget. destruct (handlers_get_Some_elem _ _ _ Hget) as [k' Hin].
  unfold Object_values. apply list_elem_of_fmap. by exists (k', h).
Qed.

Lemma elem_of_concat_map {A B} (f : A → list B) l x y :
  x ∈ l → y ∈ f x → y ∈ concat (map f l).
Proof.
  intros Hx Hy. induction l as [|a l IH]; [by apply elem_of_nil in Hx|].
  simpl. apply elem_of_app. apply elem_of_cons in Hx as [<-|Hx]; [by left|].
  right. by apply IH.
Qed.

Lemma held_all_handlers st i ls h :
  languageServers st !! i = Some ls → h ∈ handlers_held ls → h ∈ all_handlers st.
Proof.
  intros Hls Hin. unfold all_handlers.
  apply (elem_of_concat_map handlers_held _ ls); [|done].
  by eapply list_elem_of_lookup_2.
Qed.

(** X14. [exit] leaves every handler registered: after an [exit] that
    returned, a request for a workspace whose handler the controller held
    before goes to that handler, on which [exit()] has been called, and
    nothing is launched; the call ends as the call of that handler ends. *)
Theorem exited_handler_still_serves C E E' lang request st i ls m wp realPath handler :
  well_shaped_state st →
  fst (exit E st) = Ok tt →
  truthy (Some lang) = true →
  languageServerMap_get C st lang = Some (i, ls) →
  negb (detach C) && negb (status_eqb (installStatus E' (definition ls)) READY) = false →
  builtinWorkspaceFolders ls = false →
  languageServerHandlers ls = HandlerMap m →
  workspacePath request = Some wp →
  wp ≠ "" →
  realpathSync E' wp = Some realPath →
  handlers_get realPath m = Some handler →
  languageServers (snd (exit E st)) = languageServers st ∧
  HandlerExit handler ∈ trace (snd (exit E st)) ∧
  dispatchRequest C E' (Some lang) request (snd (exit E st)) =
  (handled E' handler request,
   {| languageServers := languageServers st;
      heap := alter (λ _, {| lastAccess := Some (now E') |}) handler (heap st);
      trace := trace (snd (exit E st)) ++ [HandleRequest handler request] |}).
Proof.
  intros Hshape Hok Ht Hget Hc Hb Hmap Hwp Hne Hreal Hhit.
  pose proof (languageServerMap_get_lookup _ _ _ _ _ Hget) as Hls.
  assert (exit E st =
          (fst (exited E (all_handlers st)),
           emits (map HandlerExit (snd (exited E (all_handlers st)))) st)) as Hexit.
  { unfold exit. rewrite each_languageServer_unfold. by apply exit_loop. }
  rewrite Hexit in Hok |- *. cbn [fst snd] in *.
  rewrite (exited_all _ _ Hok).
  split_and!.
  - done.
  - simpl. apply elem_of_app. right. apply list_elem_of_fmap. exists handler.
    split; [done|]. apply (held_all_handlers st i ls); [done|].
    unfold handlers_held. rewrite Hmap. by eapply handlers_get_held.
  - exact (dispatchRequest_hit C E' lang request
             (emits (map HandlerExit (all_handlers st)) st) i ls m wp realPath handler
             Ht Hget Hc Hb Hmap Hwp Hne Hreal Hhit).
Qed.

Lemma exited_handler_still_serves_witness :
  well_shaped_state full ∧
  fst (exit (env 3 READY) full) = Ok tt ∧
  HandlerExit 0 ∈ trace (snd (exit (env 3 READY) full)) ∧
  fst (dispatchRequest (controller false) (env 4 READY) (Some "typescript")
         (lsp_request None (Some "/a")) (snd (exit (env 3 READY) full))) = Ok 0.
Proof.
  assert (well_shaped_state full) as H1 by (vm_compute; repeat constructor).
  assert (fst (exit (env 3 READY) full) = Ok tt) as H2 by (by vm_compute).
  assert (languageServerMap_get (controller false) full "typescript"
          = Some (0, full_typescript)) as H3 by (by vm_compute).
  assert ("/a" ≠ "") as H4 by discriminate.
  pose proof (exited_handler_still_serves (controller false) (env 3 READY) (env 4 READY)
                "typescript" (lsp_request None (Some "/a")) full 0 full_typescript
                [("/a", 0); ("/b", 1)] "/a" "/a" 0
                H1 H2 eq_refl H3 eq_refl eq_refl eq_refl eq_refl H4 eq_refl eq_refl)
    as (_ & Hin & Heq).
  split; [exact H1|]. split; [exact H2|]. split; [exact Hin|].
  exact (f_equal fst Heq).
Defined.

(** *** What no method changes *)

Lemma skeleton_same st st' :
  languageServers st' = languageServers st → skeleton st' = skeleton st.
Proof. unfold skeleton. by intros ->. Qed.

Lemma skeleton_assign i hs st :
  skeleton (set_languageServers (alter (with_handlers hs) i) st) = skeleton st.
Proof.
  unfold skeleton. simpl. generalize (languageServers st) as l. intros l. revert i.
  induction l as [|x l IH]; intros [|i]; simpl; [done|done|done|].
  f_equal. apply IH.
Qed.

Lemma get_keeps L : preserves (λ st, skeleton st = L) (@get State).
Proof. by intros st. Qed.

Lemma launch_keeps L E d b mx p : preserves (λ st, skeleton st = L) (launch E d b mx p).
Proof.
  intros st <-. unfold launch. destruct (launchFailure E d); simpl; [done|].
  by apply skeleton_same.
Qed.

(** One step through a computation built from the primitive actions of the
    controller, none of which changes the skeleton. *)
Ltac keeps_step :=
  first
    [ apply preserves_ret
    | apply preserves_throw
    | apply deref_preserves
    | apply findLanguageServer_preserves
    | apply get_keeps
    | apply launch_keeps
    | apply preserves_bind; [|intros ?]
    | apply preserves_try_catch; [|intros ?]
    | apply preserves_for_of; intros ?
    | apply preserves_each; intros ?
    | (apply modify_preserves; intros ? <-;
       first [ apply skeleton_assign | by apply skeleton_same ])
    | match goal with
      | |- preserves _ (match ?x with _ => _ end) => destruct x
      end ].

Lemma findOrCreateHandler_keeps L E i request :
  preserves (λ st, skeleton st = L) (findOrCreateHandler E i request).
Proof.
  unfold findOrCreateHandler, handlers_of, assign_handlers. repeat keeps_step.
Qed.

Lemma dispatchRequest_keeps L C E lang request :
  preserves (λ st, skeleton st = L) (dispatchRequest C E lang request).
Proof.
  unfold dispatchRequest, assign_handlers, assign_lastAccess, forward.
  repeat first [apply findOrCreateHandler_keeps | keeps_step].
Qed.

Lemma after_keeps L C c st : public c → skeleton st = L → skeleton (after C c st) = L.
Proof.
  destruct c; simpl; intros Hpub; [| |done| | |].
  - revert st. unfold handleRequest. destruct (truthy _); [|by intros st].
    apply (dispatchRequest_keeps L).
  - apply (dispatchRequest_keeps L).
  - revert st. change (preserves (λ st, skeleton st = L) (unloadWorkspace E workspaceDir)).
    unfold unloadWorkspace, handler_unloadWorkspace, assign_handlers.
    repeat keeps_step.
  - revert st. change (preserves (λ st, skeleton st = L) (launchServers E)).
    unfold launchServers, assign_handlers. repeat keeps_step.
  - revert st. change (preserves (λ st, skeleton st = L) (exit E)).
    unfold exit, handler_exit. repeat keeps_step.
Qed.

Lemma languageServerMap_new d defs mx lang :
  languageServerMap (fst (new d defs mx)) !! lang = last_serving lang defs 0.
Proof.
  pose proof (languageServerMap_fold mx lang defs 0 ∅) as Hfold.
  rewrite lookup_empty in Hfold.
  destruct (last_serving lang defs 0); exact Hfold.
Qed.

Lemma last_serving_exists lang defs :
  ∀ k, is_Some (last_serving lang defs k) ↔ existsb (serves lang) defs = true.
Proof.
  induction defs as [|def defs IH]; intros k; simpl.
  - split; [by intros [? ?]|done].
  - specialize (IH (S k)). destruct (last_serving lang defs (S k)) as [j|].
    + rewrite (proj1 IH) by by eexists. rewrite orb_true_r. split; [done|by eexists].
    + destruct (existsb (serves lang) defs).
      * by destruct (proj2 IH eq_refl).
      * rewrite orb_false_r.
        destruct (serves lang def); split; try done; try (by eexists); by intros [? ?].
Qed.

(** X15. The public methods change nothing of a record but its handlers:
    in every state they reach from the constructor, the records are those
    the constructor built, in the same order, with their definition, mode,
    languages and capacity. So, when no definition has [__proto__] for a
    language or for its name, [supportLanguage] answers at any time, for
    every [lang] that is no member name of [Object.prototype], [true]
    exactly if [lang] is a language or the name of a definition. *)
Theorem records_change_only_their_handlers d defs mx calls :
  Forall public calls →
  let C := fst (new d defs mx) in
  let st := after_all C calls (snd (new d defs mx)) in
  skeleton st = new_languageServers defs mx ∧
  (existsb (serves "__proto__") defs = false →
   ∀ lang, is_Object_prototype_name lang = false →
           supportLanguage C st lang = existsb (serves lang) defs).
Proof.
  intros Hpub C st.
  assert (skeleton st = new_languageServers defs mx) as Hkept.
  { unfold st. assert (skeleton (snd (new d defs mx)) = new_languageServers defs mx) as Hnew.
    { unfold skeleton, new, new_languageServers. simpl. rewrite map_map. by apply map_ext. }
    revert Hnew. generalize (snd (new d defs mx)) as st0. unfold after_all.
    induction Hpub as [|c calls Hc _ IH]; intros st0 Hs; simpl; [done|].
    apply IH. by apply after_keeps. }
  split; [done|]. intros _ lang _.
  unfold supportLanguage, languageServerMap_get.
  unfold C. rewrite languageServerMap_new.
  pose proof (last_serving_exists lang defs 0) as Hex.
  destruct (last_serving lang defs 0) as [j|] eqn:Hlast.
  - rewrite (proj1 Hex) by by eexists.
    destruct (last_serving_Some _ _ _ _ Hlast) as (_ & def & Hdef & _).
    rewrite Nat.sub_0_r in Hdef.
    assert (j < length (languageServers st)) as Hj.
    { pose proof (f_equal length Hkept) as Hlen.
      unfold skeleton, new_languageServers in Hlen. rewrite !length_map in Hlen.
      rewrite Hlen. by eapply lookup_lt_Some. }
    fold C. fold st. by destruct (lookup_lt_is_Some_2 _ _ Hj) as [ls ->].
  - destruct (existsb (serves lang) defs); [|done].
    by destruct (proj2 Hex eq_refl).
Qed.

Lemma records_change_only_their_handlers_witness :
  Forall public opened ∧
  existsb (serves "__proto__") [typescript; java] = false ∧
  is_Object_prototype_name "javascript" = false ∧
  is_Object_prototype_name "python" = false ∧
  skeleton full = [idle_typescript 2; idle_java] ∧
  supportLanguage (controller false) full "javascript" = true ∧
  supportLanguage (controller false) full "python" = false.
Proof.
  assert (Forall public opened) as H by (repeat constructor).
  pose proof (records_change_only_their_handlers false [typescript; java] 2 opened H)
    as [H1 H2].
  split; [exact H|]. split; [reflexivity|]. split; [reflexivity|]. split; [reflexivity|].
  split; [exact H1|]. split.
  - exact (H2 eq_refl "javascript" eq_refl).
  - exact (H2 eq_refl "python" eq_refl).
Defined.

End LifecycleProofs.

(** ** The connection of the proxy to its backend *)

Module ConnectionProofs.

Import Proxy Scenario Deployment ProxyProofs.

Local Open Scope nat_scope.
Local Open Scope list_scope.

(** *** The socket and the promise of [connect()] *)

Lemma sockets_app tr1 tr2 : sockets (tr1 ++ tr2) = sockets tr1 + sockets tr2.
Proof. unfold sockets. by rewrite List.filter_app, length_app. Qed.

Lemma connection_inv_new : connection_inv new.
Proof. unfold connection_inv. simpl. split_and!; done. Qed.

Lemma connection_inv_log es st :
  sockets es = 0 → connection_inv st → connection_inv (log es st).
Proof.
  intros Hes (Hs & Hsock & Hres & Hcur & Hinit).
  unfold connection_inv. simpl. rewrite sockets_app, Hes, Nat.add_0_r.
  split_and!; try done.
  intros Hi. destruct (Hinit Hi) as (c & H1 & H2).
  exists c. split; apply elem_of_app; by left.
Qed.

Lemma connection_inv_set_closed b st : connection_inv st → connection_inv (set_closed b st).
Proof. done. Qed.

Lemma connection_inv_connect st : connection_inv st → connection_inv (snd (connect st)).
Proof.
  intros Hinv. unfold connect.
  destruct (clientConnection st) as [c|] eqn:Hc; [done|].
  simpl. destruct (connectingPromise st) as [pr|] eqn:Hp; simpl.
  - apply (connection_inv_log [SocketConnect]); [done|].
    by apply connection_inv_set_closed.
  - destruct Hinv as (Hs & Hsock & Hres & Hcur & Hinit).
    rewrite (proj2 Hsock Hp) in Hs.
    unfold connection_inv. simpl. rewrite sockets_app, Hs. simpl.
    split_and!; try done.
    intros Hi. destruct (Hinit Hi) as (c & H1 & H2).
    exists c. split; apply elem_of_app; by left.
Qed.

Lemma connection_inv_on_socket_connect st :
  has_socket st = true → connection_inv st → connection_inv (on_socket_connect st).
Proof.
  intros Hyes (Hs & Hsock & Hres & Hcur & Hinit).
  unfold connection_inv, on_socket_connect. simpl.
  rewrite sockets_app, Hs, Hyes. simpl.
  split_and!; try done.
  - split; [done|]. destruct (connectingPromise st) as [[c|]|] eqn:Hp; try done.
    intros _. rewrite <- Hyes. by apply Hsock.
  - intros c. destruct (connectingPromise st) as [[c0|]|] eqn:Hp.
    + intros [= <-]. pose proof (Hres c0 eq_refl). lia.
    + intros [= <-]. lia.
    + done.
  - by intros c [= <-].
  - intros Hi. destruct (Hinit Hi) as (c & H1 & H2).
    exists c. split; apply elem_of_app; by left.
Qed.

Lemma connection_inv_on_server_connection st :
  connection_inv st → connection_inv (on_server_connection st).
Proof.
  intros (Hs & Hsock & Hres & Hcur & Hinit).
  unfold connection_inv, on_server_connection. simpl.
  rewrite sockets_app, Hs. simpl. rewrite Nat.add_0_r.
  split_and!; try done.
  - intros c Hc. pose proof (Hres c Hc). lia.
  - by intros c [= <-].
  - intros Hi. destruct (Hinit Hi) as (c & H1 & H2).
    exists c. split; apply elem_of_app; by left.
Qed.

Lemma connection_inv_onSocketClosed st :
  connection_inv st → connection_inv (onSocketClosed st).
Proof.
  intros Hinv. unfold onSocketClosed.
  apply (connection_inv_log [Emit "close"]); [done|].
  assert (∀ st1, connection_inv st1 → connection_inv (set_clientConnection None st1))
    as Hset.
  { intros st1 (Hs & Hsock & Hres & Hcur & Hinit).
    unfold connection_inv. simpl. split_and!; done. }
  destruct (clientConnection st) as [c|] eqn:Hc.
  - apply Hset. by apply (connection_inv_log [ClientConnectionDispose c]).
  - by apply Hset.
Qed.

Lemma connection_inv_exit f st : connection_inv st → connection_inv (snd (exit f st)).
Proof.
  intros Hinv. unfold exit, bind, get, modify, ret.
  destruct (clientConnection st) as [c|]; simpl.
  - destruct f as [e|]; simpl.
    + by apply (connection_inv_log [SendRequest c "shutdown"]).
    + apply (connection_inv_log [Emit "exit"]); [done|].
      apply connection_inv_set_closed.
      apply (connection_inv_log [SendNotification c "exit"; ConnDispose]); [done|].
      by apply (connection_inv_log [SendRequest c "shutdown"]).
  - apply (connection_inv_log [Emit "exit"]); [done|].
    by apply connection_inv_set_closed.
Qed.

Lemma connection_inv_sendRequest c method answer st :
  connection_inv st → connection_inv (snd (sendRequest c method answer st)).
Proof.
  intros Hinv. unfold sendRequest, bind, modify.
  destruct answer as [e|r]; simpl; by apply (connection_inv_log [SendRequest c method]).
Qed.

Lemma connection_inv_initialize_on ws answer c st :
  connection_inv st → connection_inv (snd (initialize_on ws answer c st)).
Proof.
  intros Hinv. unfold initialize_on. destruct ws as [|rootUri ws]; [done|].
  unfold sendRequest, bind, modify, ret.
  destruct answer as [e|r]; simpl.
  - by apply (connection_inv_log [SendRequest c "initialize"]).
  - destruct Hinv as (Hs & Hsock & Hres & Hcur & Hinit).
    unfold connection_inv. simpl. rewrite !sockets_app, Hs. simpl.
    rewrite !Nat.add_0_r. split_and!; try done.
    intros _. exists c. split.
    + apply elem_of_app. left. apply elem_of_app. right. by apply list_elem_of_singleton.
    + apply elem_of_app. right. by apply list_elem_of_singleton.
Qed.

Lemma connection_inv_await_connect {A} (k : Conn → M LanguageServerProxy A) st :
  (∀ c st1, connection_inv st1 → connection_inv (snd (k c st1))) →
  connection_inv st → connection_inv (snd (await_connect k st)).
Proof.
  intros Hk Hinv. unfold await_connect.
  pose proof (connection_inv_connect st Hinv) as Hc.
  destruct (connect st) as [[|c] st1]; simpl in *; [done|]. by apply Hk.
Qed.

Lemma connection_inv_resume {A} (k : Conn → M LanguageServerProxy A) st :
  (∀ c st1, connection_inv st1 → connection_inv (snd (k c st1))) →
  connection_inv st → connection_inv (resume k st).
Proof.
  intros Hk Hinv. unfold resume.
  destruct (connectingPromise st) as [[c|]|]; [|done..]. by apply Hk.
Qed.

Lemma connection_inv_op o st : connection_inv st → connection_inv (op st o).
Proof.
  intros Hinv. destruct o; simpl.
  - by apply connection_inv_connect.
  - destruct (has_socket st) eqn:Hsock; [|done]. by apply connection_inv_on_socket_connect.
  - by apply connection_inv_on_server_connection.
  - by apply connection_inv_onSocketClosed.
  - by apply connection_inv_exit.
  - apply connection_inv_await_connect; [|done].
    intros c st1. apply connection_inv_initialize_on.
  - apply connection_inv_await_connect; [|done].
    intros c st1. apply connection_inv_sendRequest.
  - apply connection_inv_await_connect; [|done].
    intros c st1. apply connection_inv_sendRequest.
  - apply connection_inv_resume; [|done].
    intros c st1. apply connection_inv_initialize_on.
  - apply connection_inv_resume; [|done].
    intros c st1. apply connection_inv_sendRequest.
Qed.

Lemma connection_inv_ops os : ∀ st, connection_inv st → connection_inv (ops os st).
Proof.
  unfold ops. induction os as [|o os IH]; intros st Hinv; simpl; [done|].
  apply IH. by apply connection_inv_op.
Qed.

(** What a step keeps: a field that no continuation of [await connect()]
    changes is changed by no method that awaits [connect()]. *)
Lemma op_keeps (P : LanguageServerProxy → Prop) :
  (∀ es st, P st → P (log es st)) →
  (∀ b st, P st → P (set_closed b st)) →
  (∀ st, P st → P (set_initialized true st)) →
  (∀ st, P st → P (set_clientConnection None st)) →
  (∀ st, P st → P (snd (connect st))) →
  (∀ st, P st → P (on_socket_connect st)) →
  (∀ st, P st → P (on_server_connection st)) →
  ∀ o st, P st → P (op st o).
Proof.
  intros Hlog Hclosed Hinit Hclient Hconnect Hsocket Hserver o st HP.
  assert (∀ c m a st1, P st1 → P (snd (sendRequest c m a st1))) as Hsend.
  { intros c m a st1 H1. unfold sendRequest, bind, modify.
    destruct a; simpl; by apply Hlog. }
  assert (∀ ws a c st1, P st1 → P (snd (initialize_on ws a c st1))) as Hon.
  { intros ws a c st1 H1. unfold initialize_on. destruct ws; [done|].
    unfold sendRequest, bind, modify, ret.
    destruct a; simpl; [by apply Hlog|]. apply Hinit. apply Hlog. by apply Hlog. }
  assert (∀ A (k : Conn → M LanguageServerProxy A),
            (∀ c st1, P st1 → P (snd (k c st1))) → P (snd (await_connect k st))) as Hawait.
  { intros A k Hk. unfold await_connect. pose proof (Hconnect st HP) as Hc.
    destruct (connect st) as [[|c] st1]; simpl in *; [done|]. by apply Hk. }
  assert (∀ A (k : Conn → M LanguageServerProxy A),
            (∀ c st1, P st1 → P (snd (k c st1))) → P (resume k st)) as Hresume.
  { intros A k Hk. unfold resume.
    destruct (connectingPromise st) as [[c|]|]; [|done..]. by apply Hk. }
  destruct o; simpl.
  - by apply Hconnect.
  - destruct (has_socket st); [|done]. by apply Hsocket.
  - by apply Hserver.
  - unfold onSocketClosed. apply Hlog, Hclient.
    destruct (clientConnection st); [by apply Hlog|done].
  - unfold exit, bind, get, modify, ret.
    destruct (clientConnection st); simpl.
    + destruct shutdownFailure; simpl; [by apply Hlog|].
      apply Hlog, Hclosed, Hlog. by apply Hlog.
    + by apply Hlog, Hclosed.
  - apply Hawait. intros c st1. apply Hon.
  - apply Hawait. intros c st1. apply Hsend.
  - apply Hawait. intros c st1. apply Hsend.
  - apply Hresume. intros c st1. apply Hon.
  - apply Hresume. intros c st1. apply Hsend.
Qed.

Lemma ops_keeps (P : LanguageServerProxy → Prop) os :
  (∀ o st, P st → P (op st o)) → ∀ st, P st → P (ops os st).
Proof.
  intros Hop. unfold ops. induction os as [|o os IH]; intros st HP; simpl; [done|].
  apply IH. by apply Hop.
Qed.

(** X16. A proxy creates at most one socket: the first [connect()] that
    finds no client connection creates it together with the promise that
    [connect()] returns, and every later one dials again on the same
    socket. This holds after any sequence of calls of [connect], [exit],
    [initialize], [shutdown] and forwarded requests, of [connect] and
    [close] events of sockets and of backends connecting to the proxy. *)
Theorem socket_is_created_once os :
  sockets (trace (ops os new)) = (if has_socket (ops os new) then 1 else 0) ∧
  (has_socket (ops os new) = false ↔ connectingPromise (ops os new) = None).
Proof.
  destruct (connection_inv_ops os new connection_inv_new) as (Hs & Hsock & _). done.
Qed.

(** X17. The promise of [connect()] is resolved once: whatever happens to
    the proxy afterwards, it keeps the message connection it was resolved
    with. While the proxy holds a client connection, which is the last
    connection made, [connect()] returns it and changes nothing. While it
    holds none but the promise is resolved, as after the close of the
    socket, [connect()] clears the closed mark, dials again and returns
    the connection of the promise, which was made before and is not the
    one the new dial will make. *)
Theorem connect_promise_resolves_once os :
  let st := ops os new in
  (∀ c os', connectingPromise st = Some (Some c) →
            connectingPromise (ops os' st) = Some (Some c)) ∧
  (∀ c, clientConnection st = Some c →
        S c = connections st ∧ connect st = (Connected c, st)) ∧
  (∀ c, clientConnection st = None →
        connectingPromise st = Some (Some c) →
        c < connections st ∧
        connect st = (Connected c, log [SocketConnect] (set_closed false st))).
Proof.
  intros st. destruct (connection_inv_ops os new connection_inv_new)
    as (_ & _ & Hres & Hcur & _). fold st in Hres, Hcur.
  split_and!.
  - intros c os' Hc. revert Hc. generalize st. clear. intros st Hc.
    apply (ops_keeps (λ st, connectingPromise st = Some (Some c))); [|done].
    apply op_keeps; try done.
    + intros st1 H1. unfold connect. destruct (clientConnection st1); [done|].
      simpl. by rewrite H1.
    + intros st1 H1. unfold on_socket_connect. simpl. by rewrite H1.
  - intros c Hc. split; [by apply Hcur|]. unfold connect. by rewrite Hc.
  - intros c Hc Hp. split; [by apply Hres|]. unfold connect. rewrite Hc. simpl.
    by rewrite Hp.
Qed.

(** X18. A proxy says it is initialized only after it has sent the
    [initialize] request and the [initialized] notification on one
    connection, and it never takes the mark back: neither [exit] nor the
    close of the socket nor a new connection resets it. *)
Theorem initialized_after_handshake os :
  initialized (ops os new) = true →
  (∃ c, SendRequest c "initialize" ∈ trace (ops os new) ∧
        SendNotification c "initialized" ∈ trace (ops os new)) ∧
  ∀ os', initialized (ops os' (ops os new)) = true.
Proof.
  intros Hi. split.
  - destruct (connection_inv_ops os new connection_inv_new) as (_ & _ & _ & _ & Hinit).
    by apply Hinit.
  - intros os'. apply (ops_keeps (λ st, initialized st = true)); [|done].
    apply op_keeps; try done.
    intros st1 H1. unfold connect. destruct (clientConnection st1); [done|].
    simpl. by destruct (connectingPromise st1).
Qed.

Lemma initialized_after_handshake_witness :
  initialized (ops handshake new) = true ∧
  (∃ c, SendRequest c "initialize" ∈ trace (ops handshake new) ∧
        SendNotification c "initialized" ∈ trace (ops handshake new)) ∧
  initialized (ops [OpSocketClose; OpExit None; OpConnect; OpSocketConnect]
                 (ops handshake new)) = true.
Proof.
  assert (initialized (ops handshake new) = true) as H by reflexivity.
  split; [exact H|]. split.
  - exact (proj1 (initialized_after_handshake handshake H)).
  - exact (proj2 (initialized_after_handshake handshake H)
             [OpSocketClose; OpExit None; OpConnect; OpSocketConnect]).
Defined.

(** *** Pending promises *)

Lemma registered_handleRequest request st :
  wf st →
  (∀ p, promises st !! p = Some Pending → ∃ k, replies st !! k = Some p) →
  ∀ p, promises (snd (handleRequest request st)) !! p = Some Pending →
       ∃ k, replies (snd (handleRequest request st)) !! k = Some p.
Proof.
  intros [Hwf _] Hreg p. unfold handleRequest, receiveRequest.
  destruct (isNotification request); simpl; intros Hp.
  - apply lookup_app_Some in Hp as [Hp|[Hlen Hp]]; [by apply Hreg|].
    destruct (p - length (promises st)); simpl in Hp; [done|].
    by rewrite lookup_nil in Hp.
  - apply lookup_app_Some in Hp as [Hp|[Hlen Hp]].
    + destruct (Hreg p Hp) as [k Hk]. exists k.
      rewrite lookup_insert_ne; [done|]. destruct (Hwf k p Hk) as [Hlt _]. lia.
    + exists (sequenceNumber st).
      destruct (p - length (promises st)) as [|n] eqn:Hn; simpl in Hp;
        [|by rewrite lookup_nil in Hp].
      rewrite lookup_insert_eq. f_equal. lia.
Qed.

Lemma registered_write response st :
  wf st →
  (∀ p, promises st !! p = Some Pending → ∃ k, replies st !! k = Some p) →
  ∀ p, promises (write response st) !! p = Some Pending →
       ∃ k, replies (write response st) !! k = Some p.
Proof.
  intros [Hwf Hinj] Hreg p. unfold write.
  destruct (replies st !! response_id response) as [p0|] eqn:Hr; [|by apply Hreg].
  simpl. intros Hp.
  destruct (decide (p = p0)) as [->|Hne].
  - destruct (Hwf _ _ Hr) as [_ Hp0].
    rewrite list_lookup_insert_eq in Hp by by eapply lookup_lt_Some.
    unfold settle in Hp. by destruct (response_error response).
  - rewrite list_lookup_insert_ne in Hp by done.
    destruct (Hreg p Hp) as [k Hk]. exists k.
    rewrite lookup_delete_ne; [done|]. intros Heq. subst k.
    assert (Some p = Some p0) as [= Hpp] by exact (eq_trans (eq_sym Hk) Hr). done.
Qed.

(** X19. After any sequence of requests and responses on a new proxy, the
    promises that are still pending are exactly the promises registered in
    the reply table: no caller waits on a promise that a response can no
    longer reach, and no settled promise stays registered. *)
Theorem pending_promises_are_registered ss p :
  promises (steps ss new) !! p = Some Pending ↔
  ∃ k, replies (steps ss new) !! k = Some p.
Proof.
  split.
  - assert (∀ st, wf st →
              (∀ p, promises st !! p = Some Pending → ∃ k, replies st !! k = Some p) →
              ∀ p, promises (steps ss st) !! p = Some Pending →
                   ∃ k, replies (steps ss st) !! k = Some p) as Hall.
    { unfold steps. induction ss as [|s ss IH]; intros st Hwf Hreg; simpl; [done|].
      apply IH; [by apply step_wf|].
      destruct s as [request|response]; simpl.
      - by apply registered_handleRequest.
      - by apply registered_write. }
    apply Hall; [apply wf_new|]. intros p0 Hp0. simpl in Hp0. by rewrite lookup_nil in Hp0.
  - intros [k Hk]. destruct (steps_wf ss new wf_new) as [Hwf _].
    by destruct (Hwf k p Hk).
Qed.

End ConnectionProofs.
